(** * py-chordpro: the chord model, the key estimator and the document
      transposer of [pychord.py]

    A shallow embedding of the transposing half of [pychord.py]:
    the pitch-class tables, the [Chord] class, the regular expressions the
    program calls, and the three passes of [parse_file] that run when a
    transposition is requested.

    Python values are modelled as the code has them: unbounded integers are
    [Z], [str] is [string], a [dict] with string keys is a [gmap string _],
    a raised exception is the [Raise] branch of [result].  A [while] loop
    whose termination depends on its input takes fuel. *)

From Stdlib Require Import ZArith String Ascii List Lia Bool.
From stdpp Require Import base option list list_numbers gmap strings pretty.

Local Open Scope string_scope.
Local Open Scope list_scope.
Local Open Scope Z_scope.

(** ** Exceptions and results *)

(** The exceptions the modelled code can raise.  [ChordError] is the
    program's own class; the others are Python's built-in ones. *)
Inductive exn : Set :=
  | ChordError
  | KeyError
  | TypeError
  | IndexError
  | UnboundLocalError
  | NameError.

(** What running a piece of the program gives: a value, an exception that
    propagates, or no answer within the fuel given to its [while] loops. *)
Inductive result (A : Type) : Type :=
  | Ok (a : A)
  | Raise (e : exn)
  | OutOfFuel.
Arguments Ok {A} a.
Arguments Raise {A} e.
Arguments OutOfFuel {A}.

#[global] Instance result_ret : MRet result := @Ok.
#[global] Instance result_bind : MBind result := λ A B f m,
  match m with
  | Ok a => f a
  | Raise e => Raise e
  | OutOfFuel => OutOfFuel
  end.
#[global] Instance result_fmap : FMap result := λ A B f m,
  match m with
  | Ok a => Ok (f a)
  | Raise e => Raise e
  | OutOfFuel => OutOfFuel
  end.

(** [for x in l: st = f(st, x)] where the body may raise. *)
Fixpoint foldM {A B : Type} (f : B → A → result B) (b : B) (l : list A)
  : result B :=
  match l with
  | [] => Ok b
  | x :: l' => b' ← f b x; foldM f b' l'
  end.

(** [d[k]] on a dict: [KeyError] when the key is absent. *)
Definition dict_get {V : Type} (d : gmap string V) (k : string) : result V :=
  match d !! k with
  | Some v => Ok v
  | None => Raise KeyError
  end.

(** The dynamically typed values that reach [in key_norm] and
    [key_norm[...]]. *)
Inductive pyval : Set :=
  | PyNone
  | PyInt (n : Z)
  | PyStr (s : string).

(** Python truthiness: [None], [0] and the empty string are false. *)
Definition truthy (v : pyval) : bool :=
  match v with
  | PyNone => false
  | PyInt n => negb (n =? 0)
  | PyStr s => negb (String.eqb s EmptyString)
  end.

(** [v == w]; values of different types are unequal. *)
Definition py_eq (v w : pyval) : bool :=
  match v, w with
  | PyNone, PyNone => true
  | PyInt a, PyInt b => a =? b
  | PyStr a, PyStr b => String.eqb a b
  | _, _ => false
  end.

(** [v in l] for a list of strings [l]: some element compares equal. *)
Definition py_in (v : pyval) (l : list string) : bool :=
  existsb (λ s, py_eq v (PyStr s)) l.

(** [l[v]]: a list index must be an integer ([TypeError] otherwise);
    negative indices count from the end; out of range is [IndexError]. *)
Definition list_get (l : list string) (v : pyval) : result string :=
  match v with
  | PyInt n =>
      let i := if n <? 0 then n + Z.of_nat (length l) else n in
      if i <? 0 then Raise IndexError
      else match l !! Z.to_nat i with
           | Some s => Ok s
           | None => Raise IndexError
           end
  | _ => Raise TypeError
  end.

(** ** The pitch-class tables *)

Definition chord_to_offset : gmap string Z :=
  list_to_map
    [ ("C", 0); ("C#", 1); ("Db", 1); ("D", 2); ("D#", 3); ("Eb", 3);
      ("E", 4); ("F", 5); ("F#", 6); ("Gb", 6); ("G", 7); ("G#", 8);
      ("Ab", 8); ("A", 9); ("A#", 10); ("Bb", 10); ("B", 11) ].

Definition key_norm : list string :=
  ["b"; "#"; "#"; "b"; "#"; "b"; "#"; "#"; "#"; "#"; "b"; "#"].

(** [range(12)] *)
Definition range12 : list Z := seqZ 0 12.

(** ["%s" % i] and ["%sm" % i], the keys of the histogram and of the
    multiplier table. *)
Definition count_key (i : Z) (minor : bool) : string :=
  if minor then pretty i +:+ "m" else pretty i.

(** All 24 entries set to 0, as the loop over [range(12)] does. *)
Definition zero_counts : gmap string Z :=
  foldl (λ d i, <[count_key i true := 0]> (<[count_key i false := 0]> d))
        ∅ range12.

Definition chord_multiplier : gmap string Z :=
  <["9m" := 2]> (<["4m" := 1]> (<["2m" := 1]>
  (<["7" := 1]> (<["5" := 1]> (<["0" := 2]> zero_counts))))).

Definition map_transpose_semitone : gmap string string :=
  list_to_map
    [ ("C#", "D"); ("D#", "E"); ("F#", "G"); ("G#", "A"); ("A#", "B");
      ("Db", "D"); ("Eb", "E"); ("Gb", "G"); ("Ab", "A"); ("Bb", "B");
      ("C", "C#"); ("D", "D#"); ("E", "F"); ("F", "F#"); ("G", "G#");
      ("A", "A#"); ("B", "C") ].

Definition map_accidental_flat : gmap string string :=
  list_to_map
    [ ("C#", "Db"); ("D#", "Eb"); ("F#", "Gb"); ("G#", "Ab"); ("A#", "Bb") ].

Definition map_accidental_sharp : gmap string string :=
  list_to_map
    [ ("Db", "C#"); ("Eb", "D#"); ("Gb", "F#"); ("Ab", "G#"); ("Bb", "A#") ].

(** ** Characters and strings *)

Definition in_range (lo hi c : ascii) : bool :=
  (N_of_ascii lo <=? N_of_ascii c)%N && (N_of_ascii c <=? N_of_ascii hi)%N.

(** [str.upper] and [str.lower] on one ASCII character. *)
Definition upper (c : ascii) : ascii :=
  if in_range "a" "z" c then ascii_of_N (N_of_ascii c - 32) else c.

Definition lower (c : ascii) : ascii :=
  if in_range "A" "Z" c then ascii_of_N (N_of_ascii c + 32) else c.

Fixpoint map_string (f : ascii → ascii) (s : string) : string :=
  match s with
  | EmptyString => EmptyString
  | String c s' => String (f c) (map_string f s')
  end.

(** [string.capitalize(s)]: first character upper case, the rest lower
    case. *)
Definition capitalize (s : string) : string :=
  match s with
  | EmptyString => EmptyString
  | String c s' => String (upper c) (map_string lower s')
  end.

(** Truthiness of a value that is [None] or a string. *)
Definition str_truthy (o : option string) : bool :=
  match o with
  | Some s => negb (String.eqb s EmptyString)
  | None => false
  end.

(** [s.startswith(p)] *)
Definition startswith (p s : string) : bool := String.prefix p s.

(** [re.sub] of the literal [maj] by the empty string: every occurrence,
    left to right and non-overlapping, is removed. *)
Fixpoint remove_maj (s : string) : string :=
  match s with
  | EmptyString => EmptyString
  | String c s' =>
      if startswith "maj" s then
        match s' with
        | String _ (String _ s'') => remove_maj s''
        | _ => EmptyString
        end
      else String c (remove_maj s')
  end.

(** ** Regular expressions, as Python's [re] runs them *)

(** The fragment of the pattern language the program uses.  A star applies
    to a character class only; [Eos] is [$] without [re.MULTILINE]. *)
Inductive regex : Type :=
  | Cls (p : ascii → bool)
  | Seq (r1 r2 : regex)
  | Opt (r : regex)
  | StarCls (p : ascii → bool)
  | Grp (n : nat) (r : regex)
  | Eos.

(** The capture groups, indexed from 0; [None] is a group that took no
    part in the match. *)
Definition groups : Type := list (option string).

(** [$]: at the end of the string, or just before a newline that is the
    last character. *)
Definition at_end (s : string) : bool :=
  match s with
  | EmptyString => true
  | String c EmptyString => Ascii.eqb c "010"
  | _ => false
  end.

(** A greedy star over a class: take a character and go on; when the rest
    of the pattern [k] fails after that, give the character back. *)
Fixpoint star_cls {R : Type} (p : ascii → bool) (s : string)
    (k : string → string → option R) : option R :=
  match s with
  | String c s' =>
      if p c then
        match star_cls p s' (λ m rest, k (String c m) rest) with
        | Some x => Some x
        | None => k EmptyString s
        end
      else k EmptyString s
  | EmptyString => k EmptyString s
  end.

(** The backtracking matcher at the start of [s].  The continuation [k]
    stands for the rest of the pattern; it receives the text matched, the
    text left and the groups.  Every choice is greedy and is undone when
    what follows fails. *)
Fixpoint run {R : Type} (r : regex) (s : string) (g : groups)
    (k : string → string → groups → option R) : option R :=
  match r with
  | Cls p =>
      match s with
      | String c s' => if p c then k (String c EmptyString) s' g else None
      | EmptyString => None
      end
  | Seq r1 r2 =>
      run r1 s g (λ m1 s1 g1,
        run r2 s1 g1 (λ m2 s2 g2, k (m1 +:+ m2) s2 g2))
  | Opt r' =>
      match run r' s g k with
      | Some x => Some x
      | None => k EmptyString s g
      end
  | StarCls p => star_cls p s (λ m rest, k m rest g)
  | Grp n r' => run r' s g (λ m rest g', k m rest (<[n := Some m]> g'))
  | Eos => if at_end s then k EmptyString s g else None
  end.

(** [re.match(r, s)] for a pattern with groups [1 .. n]: the match object's
    groups and the text left after the match.  Group 0, the whole match,
    is not recorded: the program never reads it. *)
Definition re_match_at (n : nat) (r : regex) (s : string)
  : option (groups * string) :=
  run r s (replicate (S n) None) (λ _ rest g, Some (g, rest)).

Definition re_match (n : nat) (r : regex) (s : string) : option groups :=
  fst <$> re_match_at n r s.

(** [m.group(i)] *)
Definition group (g : groups) (i : nat) : option string :=
  mjoin (g !! i).

(** The leftmost match: the text before it, its groups, the text after. *)
Fixpoint re_search (n : nat) (r : regex) (s : string)
  : option (string * groups * string) :=
  match re_match_at n r s with
  | Some (g, rest) => Some (EmptyString, g, rest)
  | None =>
      match s with
      | EmptyString => None
      | String c s' =>
          match re_search n r s' with
          | Some (pre, g, rest) => Some (String c pre, g, rest)
          | None => None
          end
      end
  end.

(** [re.split(r, s)] for a pattern with one group that matches no empty
    string: text, group, text, group, ..., text.  Every match consumes a
    character, so [fuel] = the length of [s] is enough. *)
Fixpoint re_split_fuel (fuel : nat) (r : regex) (s : string) : list string :=
  match fuel with
  | O => [s]
  | S fuel' =>
      match re_search 1 r s with
      | Some (pre, g, rest) =>
          pre :: default EmptyString (group g 1) :: re_split_fuel fuel' r rest
      | None => [s]
      end
  end.

Definition re_split (r : regex) (s : string) : list string :=
  re_split_fuel (String.length s) r s.

(** *** The character classes and the three patterns of the program *)

Definition is_char (a c : ascii) : bool := Ascii.eqb c a.
Definition not_char (a c : ascii) : bool := negb (Ascii.eqb c a).

(** [[A-Ga-g]] *)
Definition note_letter (c : ascii) : bool :=
  in_range "A" "G" c || in_range "a" "g" c.

(** [[b#]] *)
Definition accidental (c : ascii) : bool :=
  Ascii.eqb c "b" || Ascii.eqb c "#".

(** [.] matches everything but a newline. *)
Definition dot (c : ascii) : bool := not_char "010" c.

(** [\s]: space, tab, newline, carriage return, form feed, vertical tab. *)
Definition whitespace (c : ascii) : bool :=
  Ascii.eqb c " " || Ascii.eqb c "009" || Ascii.eqb c "010"
  || Ascii.eqb c "013" || Ascii.eqb c "012" || Ascii.eqb c "011".

(** A note: [[A-Ga-g]] and then [[b#]?]. *)
Definition note_re : regex := Seq (Cls note_letter) (Opt (Cls accidental)).

(** The pattern of [Chord.__init__]: an optional group 1 holding an
    opening parenthesis; group 2, a note; group 3, the longest run without
    a slash; an optional slash; an optional group 4, a note; group 5, a
    run of [.]; then [$]. *)
Definition chord_re : regex :=
  Seq (Opt (Grp 1 (Cls (is_char "("))))
 (Seq (Grp 2 note_re)
 (Seq (Grp 3 (StarCls (not_char "/")))
 (Seq (Opt (Cls (is_char "/")))
 (Seq (Opt (Grp 4 note_re))
 (Seq (Grp 5 (StarCls dot))
      Eos))))).

(** The pattern of the three [re.split] calls: an opening bracket, group
    1 holding a run of characters other than the closing bracket, and a
    closing bracket. *)
Definition bracket_re : regex :=
  Seq (Cls (is_char "["))
 (Seq (Grp 1 (StarCls (not_char "]")))
      (Cls (is_char "]"))).

(** The pattern of a blank line: a run of [\s], then [$]. *)
Definition blank_re : regex := Seq (StarCls whitespace) Eos.

(** *** The chord pattern along its greedy path

    [re_match 5 chord_re] is proved below to be [chord_greedy]: each
    greedy choice is kept, because a failure after it is a failure of
    every other choice as well. *)

(** The longest prefix whose characters are in the class, and the rest. *)
Fixpoint span (p : ascii → bool) (s : string) : string * string :=
  match s with
  | String c s' =>
      if p c then (String c (span p s').1, (span p s').2)
      else (EmptyString, s)
  | EmptyString => (EmptyString, EmptyString)
  end.

(** A note at the head of [s], with its accidental when there is one. *)
Definition take_note (s : string) : option (string * string) :=
  match s with
  | String c s' =>
      if note_letter c then
        match s' with
        | String a s'' =>
            if accidental a then Some (String c (String a EmptyString), s'')
            else Some (String c EmptyString, s')
        | EmptyString => Some (String c EmptyString, s')
        end
      else None
  | EmptyString => None
  end.

(** No newline in [s], but possibly as its last character: what group 5
    followed by [$] can match. *)
Definition nl_ok (s : string) : bool := at_end (span dot s).2.

(** Group 5 and [$]. *)
Definition tail5 (s : string) (g : groups) : option (groups * string) :=
  if nl_ok s then Some (<[5%nat := Some (span dot s).1]> g, (span dot s).2)
  else None.

(** The optional group 4, then group 5 and [$]. *)
Definition tail4 (s : string) (g : groups) : option (groups * string) :=
  match take_note s with
  | Some (n, s') => tail5 s' (<[4%nat := Some n]> g)
  | None => tail5 s g
  end.

(** The optional slash, then the rest. *)
Definition tail_slash (s : string) (g : groups) : option (groups * string) :=
  match s with
  | String c s' => if is_char "/" c then tail4 s' g else tail4 s g
  | EmptyString => tail4 s g
  end.

(** Group 3, then the rest. *)
Definition tail3 (s : string) (g : groups) : option (groups * string) :=
  tail_slash (span (not_char "/") s).2
             (<[3%nat := Some (span (not_char "/") s).1]> g).

(** Group 2, then the rest. *)
Definition tail2 (s : string) (g : groups) : option (groups * string) :=
  match take_note s with
  | Some (n, s') => tail3 s' (<[2%nat := Some n]> g)
  | None => None
  end.

Definition chord_greedy (s : string) : option (groups * string) :=
  let g := replicate 6 None in
  match s with
  | String c s' =>
      if is_char "(" c then tail2 s' (<[1%nat := Some (String c EmptyString)]> g)
      else tail2 s g
  | EmptyString => tail2 s g
  end.

(** *** The line splitter along its greedy path *)

(** The bracket pattern at the head of [s]: the chord between the
    opening bracket and the first closing bracket after it, and the text
    after that closing bracket. *)
Definition bracket_at (s : string) : option (string * string) :=
  match s with
  | String c s' =>
      if is_char "[" c then
        match (span (not_char "]") s').2 with
        | String _ rest => Some ((span (not_char "]") s').1, rest)
        | EmptyString => None
        end
      else None
  | EmptyString => None
  end.

(** Segments put together again, every chord segment back in its
    brackets. *)
Fixpoint unsplit (segments : list string) : string :=
  match segments with
  | text :: chord :: segments' =>
      text +:+ "[" +:+ chord +:+ "]" +:+ unsplit segments'
  | [text] => text
  | [] => EmptyString
  end.

(** [s] without any bracket character. *)
Fixpoint remove_brackets (s : string) : string :=
  match s with
  | String c s' =>
      if is_char "[" c || is_char "]" c then remove_brackets s'
      else String c (remove_brackets s')
  | EmptyString => EmptyString
  end.

(** ** The [Chord] class *)

Record Chord : Type := mkChord {
  opening_brace : option string;
  root : string;
  triad : option string;
  bass : option string;
  bassrest : option string;
  minor : bool   (* [None] or [True] in the source *)
}.

(** [if c.group(i): self.x = c.group(i)]: the attribute stays [None] for
    a group that is absent or empty. *)
Definition if_truthy (o : option string) : option string :=
  if str_truthy o then o else None.

(** The attributes [Chord.__init__] sets from the match object [c].
    Group 2 takes part in every match. *)
Definition Chord_of_match (c : groups) : Chord :=
  let triad := if_truthy (group c 3) in
  {| opening_brace := group c 1;
     root := capitalize (default EmptyString (group c 2));
     triad := triad;
     bass := capitalize <$> if_truthy (group c 4);
     bassrest := if_truthy (group c 5);
     minor := match triad with
              | Some t => startswith "m" (remove_maj t)
              | None => false
              end |}.

(** [Chord.__init__] *)
Definition Chord_init (chord : string) : result Chord :=
  match re_match 5 chord_re chord with
  | None => Raise ChordError
  | Some c => Ok (Chord_of_match c)
  end.

(** [Chord.chord]: the token text. *)
Definition Chord_chord (c : Chord) : string :=
  let ch := root c in
  let ch := if str_truthy (opening_brace c) then "(" +:+ ch else ch in
  let ch := if str_truthy (triad c) then ch +:+ default EmptyString (triad c) else ch in
  let ch := if str_truthy (bass c) then ch +:+ "/" +:+ default EmptyString (bass c)
            else ch in
  let ch := if str_truthy (bassrest c) then ch +:+ default EmptyString (bassrest c)
            else ch in
  ch.

(** The body of the [while] loop of [Chord.transpose]. *)
Definition transpose_step (c : Chord) : result Chord :=
  r ← dict_get map_transpose_semitone (root c);
  b ← (if str_truthy (bass c)
       then Some <$> dict_get map_transpose_semitone (default EmptyString (bass c))
       else Ok (bass c));
  Ok {| opening_brace := opening_brace c; root := r; triad := triad c;
        bass := b; bassrest := bassrest c; minor := minor c |}.

(** [Chord.transpose]: [while shift: ...; shift -= 1]. *)
Fixpoint Chord_transpose (fuel : nat) (shift : Z) (c : Chord) : result Chord :=
  if shift =? 0 then Ok c
  else match fuel with
       | O => OutOfFuel
       | S fuel' => c' ← transpose_step c; Chord_transpose fuel' (shift - 1) c'
       end.

(** [Chord.normalise] *)
Definition Chord_normalise (accidental : string) (c : Chord) : Chord :=
  let map := if String.eqb accidental "b" then map_accidental_flat
             else map_accidental_sharp in
  let r := match map !! root c with
           | Some r' => r'
           | None => root c
           end in
  let b := if str_truthy (bass c) then
             match map !! default EmptyString (bass c) with
             | Some b' => Some b'
             | None => bass c
             end
           else bass c in
  {| opening_brace := opening_brace c; root := r; triad := triad c;
     bass := b; bassrest := bassrest c; minor := minor c |}.

(** ** The key estimator (the scoring loop of [parse_file]) *)

(** One turn of the inner loop [for i in range(12)]: two additions to
    [value], then the comparison with [bestvalue], which sits inside the
    inner loop.  The state is [(value, bestvalue, bestkey)]. *)
Definition score_step (count : gmap string Z) (key : Z)
    (st : Z * Z * Z) (i : Z) : result (Z * Z * Z) :=
  let '(value, bestvalue, bestkey) := st in
  m ← dict_get chord_multiplier (count_key ((i - key) `mod` 12) false);
  c ← dict_get count (count_key i false);
  let value := value + m * c in
  mm ← dict_get chord_multiplier (count_key ((i - key) `mod` 12) true);
  cm ← dict_get count (count_key i true);
  let value := value + mm * cm in
  if bestvalue <? value then Ok (value, value, key)
  else Ok (value, bestvalue, bestkey).

(** One turn of the outer loop [for key in range(12)]: [value = 0], then
    the inner loop.  The state is [(bestvalue, bestkey)]. *)
Definition score_key (count : gmap string Z) (best : Z * Z) (key : Z)
  : result (Z * Z) :=
  st ← foldM (score_step count key) (0, best.1, best.2) range12;
  Ok (st.1.2, st.2).

(** [bestvalue = 0; bestkey = 0; for key in range(12): ...]; returns
    [(bestvalue, bestkey)], stored as [p["val"]] and [p["key"]]. *)
Definition estimate_key (count : gmap string Z) : result (Z * Z) :=
  foldM (score_key count) (0, 0) range12.

(** [s] begins with an accidental. *)
Definition starts_with_accidental (s : string) : bool :=
  match s with
  | String a _ => accidental a
  | EmptyString => false
  end.

(** [n] is what the note pattern takes, greedily, in front of [rest]: a
    letter with its accidental, or a letter alone when no accidental
    follows. *)
Definition note_shape (n rest : string) : Prop :=
  ∃ c, note_letter c = true
       ∧ ((n = String c EmptyString ∧ starts_with_accidental rest = false)
          ∨ ∃ a, accidental a = true ∧ n = String c (String a EmptyString)).

(** *** The round trip through [Chord.__init__] and [Chord.chord] *)

(** The character [a] occurs in [s]. *)
Fixpoint contains (a : ascii) (s : string) : bool :=
  match s with
  | String c s' => Ascii.eqb c a || contains a s'
  | EmptyString => false
  end.




(** The chord of the token [abm7sus4/g#], the example of the source. *)
Definition Ab_m7sus4_over_Gsharp : Chord :=
  {| opening_brace := None; root := "Ab"; triad := Some "m7sus4";
     bass := Some "G#"; bassrest := None; minor := true |}.

(** The chord of the token [C/xyz]: a slash, and no bass note after it. *)
Definition C_slash_xyz : Chord :=
  {| opening_brace := None; root := "C"; triad := None;
     bass := None; bassrest := Some "xyz"; minor := false |}.

(** *** Pitch classes of a chord *)

(** A flat spelling: a letter followed by [b]. *)
Definition is_flat (s : string) : bool :=
  match s with
  | String _ (String c _) => Ascii.eqb c "b"
  | _ => false
  end.

(** The offsets of root and bass under [chord_to_offset]; [None] when a
    spelling is not a key of the table (the lookup raises [KeyError]). *)
Definition pitch_classes (c : Chord) : option (Z * option Z) :=
  r ← chord_to_offset !! root c;
  match bass c with
  | Some b => o ← chord_to_offset !! b; Some (r, Some o)
  | None => Some (r, None)
  end.

(** Root and bass offsets moved up by [n] semitones. *)
Definition advance (n : Z) (pc : Z * option Z) : Z * option Z :=
  ((pc.1 + n) `mod` 12, (λ o, (o + n) `mod` 12) <$> pc.2).

(** What one entry [s ↦ t] of the semitone-step table has to satisfy: [t]
    is a key of the step table and of the offset table, one semitone above
    [s], and not a flat spelling. *)
Definition step_entry_ok (s t : string) : Prop :=
  is_Some (map_transpose_semitone !! t)
  ∧ (∃ o, chord_to_offset !! s = Some o
          ∧ chord_to_offset !! t = Some ((o + 1) `mod` 12))
  ∧ is_flat t = false.

(** The chord of the token [C#m7/G#]. *)
Definition Csharp_m7_over_Gsharp : Chord :=
  {| opening_brace := None; root := "C#"; triad := Some "m7";
     bass := Some "G#"; bassrest := None; minor := true |}.

(** The chord of the token [D/E#]: its root is in the tables, its bass in
    none. *)
Definition D_slash_E_sharp : Chord :=
  {| opening_brace := None; root := "D"; triad := None;
     bass := Some "E#"; bassrest := None; minor := false |}.

(** The chord of the token [Cb]: the pattern accepts it, no table has it. *)
Definition C_flat : Chord :=
  {| opening_brace := None; root := "Cb"; triad := None;
     bass := None; bassrest := None; minor := false |}.

(** ** The document transposer: [parse_file] with [transpose] given *)

(** [re.match] of the blank-line pattern succeeds. *)
Definition blank_line (line : string) : bool :=
  bool_decide (is_Some (re_match 0 blank_re line)).

(** The line splitter: text, chord, text, chord, ..., text. *)
Definition split_line (line : string) : list string :=
  re_split bracket_re line.

(** The slice [l[1::2]]. *)
Fixpoint odd_items {A : Type} (l : list A) : list A :=
  match l with
  | _ :: x :: l' => x :: odd_items l'
  | _ => []
  end.

(** [l[i]] for an index variable that is never negative. *)
Definition nth_or_raise {A : Type} (l : list A) (i : nat) : result A :=
  match l !! i with
  | Some x => Ok x
  | None => Raise IndexError
  end.

(** [l[i] = x] for an index variable that is never negative: the list
    with its element at [i] replaced, [IndexError] when [i] is out of
    range. *)
Definition list_set {A : Type} (l : list A) (i : nat) (x : A)
  : result (list A) :=
  if bool_decide (i < length l)%nat then Ok (<[i := x]> l)
  else Raise IndexError.

(** *** Pass 1: one histogram per paragraph *)

(** The body of [for chord in chords]: parse the token, then add one to
    the count of its (offset, mode) in the current paragraph. *)
Definition count_chord (st : list (gmap string Z) * nat) (chord : string)
  : result (list (gmap string Z) * nat) :=
  let '(paragraphs, para_index) := st in
  c ← Chord_init chord;
  count ← nth_or_raise paragraphs para_index;
  offset ← dict_get chord_to_offset (root c);
  let k := count_key offset (minor c) in
  n ← dict_get count k;
  Ok (<[para_index := <[k := n + 1]> count]> paragraphs, para_index).

(** The body of the first [for line in text]: a blank line opens a new
    zeroed paragraph, and every line (a blank one too) is split and its
    chord tokens counted. *)
Definition count_line (st : list (gmap string Z) * nat) (line : string)
  : result (list (gmap string Z) * nat) :=
  let '(paragraphs, para_index) := st in
  let st' := if blank_line line
             then (paragraphs ++ [zero_counts], S para_index)
             else (paragraphs, para_index) in
  foldM count_chord st' (odd_items (split_line line)).

Definition count_chords (text : list string) : result (list (gmap string Z)) :=
  fst <$> foldM count_line ([zero_counts], O) text.

(** A paragraph once its key is estimated: [p["chord_count"]],
    [p["key"]] and [p["val"]]. *)
Record paragraph : Type := mkParagraph {
  chord_count : gmap string Z;
  key : Z;
  val : Z
}.

Definition estimate_paragraph (count : gmap string Z) : result paragraph :=
  best ← estimate_key count;
  Ok {| chord_count := count; key := best.2; val := best.1 |}.

(** [for p in paragraphs: ...; p["key"] = bestkey; p["val"] = bestvalue] *)
Fixpoint estimate_keys (counts : list (gmap string Z)) : result (list paragraph) :=
  match counts with
  | [] => Ok []
  | count :: counts' =>
      p ← estimate_paragraph count;
      ps ← estimate_keys counts';
      Ok (p :: ps)
  end.

(** *** Pass 2: the shift and the first accidental preference *)

(** The loop that sets [shift] and [first_key], leaving at the first
    paragraph whose [val] is positive. *)
Fixpoint find_shift (transpose : string) (paragraphs : list paragraph)
    (shift : Z) (first_key : pyval) : result (Z * pyval) :=
  match paragraphs with
  | [] => Ok (shift, first_key)
  | p :: paragraphs' =>
      let first_key :=
        if truthy (PyInt (key p)) && negb (truthy first_key)
        then PyInt (key p) else first_key in
      if 0 <? val p then
        offset ← dict_get chord_to_offset transpose;
        Ok ((offset - key p) `mod` 12, first_key)
      else find_shift transpose paragraphs' shift first_key
  end.

(** [if transpose in key_norm: ... elif transpose in chord_to_offset: ...];
    [None] is [norm] left unbound. *)
Definition initial_norm (transpose : string) : result (option string) :=
  if py_in (PyStr transpose) key_norm then
    Some <$> list_get key_norm (PyStr transpose)
  else
    match chord_to_offset !! transpose with
    | Some offset => Some <$> list_get key_norm (PyInt offset)
    | None => Ok None
    end.

(** What passes 1 and 2 hand to the rewrite pass. *)
Record analysis : Type := mkAnalysis {
  paragraphs : list paragraph;
  shift : Z;
  first_key : pyval;
  norm : option string
}.

Definition analyse (text : list string) (transpose : string) : result analysis :=
  counts ← count_chords text;
  ps ← estimate_keys counts;
  sf ← find_shift transpose ps (-1) PyNone;
  n ← initial_norm transpose;
  Ok {| paragraphs := ps; shift := sf.1; first_key := sf.2; norm := n |}.

(** *** Pass 3: the rewrite *)

(** The state of the rewrite loop. *)
Record rewriter : Type := mkRewriter {
  para_index : nat;
  active_key : pyval;            (* [first_key] *)
  active_norm : option string;   (* [norm] *)
  transposed_text : list string
}.

(** The key-change test at the head of the loop body. *)
Definition key_change (pkey : Z) (first_key : pyval) (norm : option string)
  : result (pyval * option string) :=
  if truthy (PyInt pkey) && negb (py_eq (PyInt pkey) first_key) then
    let first_key := PyInt pkey in
    if py_in first_key key_norm then
      n ← list_get key_norm first_key;
      Ok (first_key, Some n)
    else Ok (first_key, norm)
  else Ok (first_key, norm).

(** The body of [for chord in line[1::2]]; the state is the list [line]
    and [line_index]. *)
Definition rewrite_chord (fuel : nat) (shift : Z) (norm : option string)
    (st : list string * nat) (chord : string) : result (list string * nat) :=
  let '(line, line_index) := st in
  line' ← (if negb (String.eqb chord EmptyString) then
             c ← Chord_init chord;
             c ← Chord_transpose fuel shift c;
             n ← match norm with
                 | Some n => Ok n
                 | None => Raise UnboundLocalError
                 end;
             list_set line line_index
                      ("[" +:+ Chord_chord (Chord_normalise n c) +:+ "]")
           else Ok line);
  Ok (line', (line_index + 2)%nat).

(** [newline = ...; for l in line: newline += l] *)
Definition join (line : list string) : string :=
  foldl String.append EmptyString line.

Definition rewrite_line (fuel : nat) (paragraphs : list paragraph) (shift : Z)
    (st : rewriter) (line : string) : result rewriter :=
  p ← nth_or_raise paragraphs (para_index st);
  kn ← key_change (key p) (active_key st) (active_norm st);
  let para_index := if blank_line line then S (para_index st)
                    else para_index st in
  let segments := split_line line in
  done ← foldM (rewrite_chord fuel shift kn.2) (segments, 1%nat)
               (odd_items segments);
  Ok {| para_index := para_index; active_key := kn.1; active_norm := kn.2;
        transposed_text := transposed_text st ++ [join done.1] |}.

Definition rewrite (fuel : nat) (a : analysis) (text : list string)
  : result rewriter :=
  foldM (rewrite_line fuel (paragraphs a) (shift a))
        {| para_index := O; active_key := first_key a;
           active_norm := norm a; transposed_text := [] |}
        text.

(** Passes 1 to 3 of the transposing branch of [parse_file]: the list
    [transposed_text] as pass 3 has built it when the branch comes to its
    last statement.  The two [print] statements of pass 2 and those of
    the key-change branch write to the console only and are left out. *)
Definition parse_file_transpose (fuel : nat) (text : list string)
    (transpose : string) : result (list string) :=
  a ← analyse text transpose;
  r ← rewrite fuel a text;
  Ok (transposed_text r).

(** The branch [if transpose:] of [parse_file] as a whole, from its guard
    to its last statement, the call [parse(transposed_text)].  The guard is
    false for no target and for the empty string: then the layout branch
    runs instead ([None]).  The module defines no [parse], so the call
    raises [NameError] once pass 3 has built its list, and the branch
    never comes to the output code that follows it. *)
Definition transposing_branch (fuel : nat) (text : list string)
    (transpose : option string) : option (result unit) :=
  if str_truthy transpose then
    Some (transposed_text ←
            parse_file_transpose fuel text (default EmptyString transpose);
          Raise NameError)
  else None.

(** *** The estimator as the specification words it *)

(** The count and the weight at an (offset, mode) pair; both tables hold
    all 24 keys, so the default is never used on a well-formed histogram. *)
Definition count_at (count : gmap string Z) (i : Z) (minor : bool) : Z :=
  default 0 (count !! count_key i minor).

Definition multiplier (d : Z) (minor : bool) : Z :=
  default 0 (chord_multiplier !! count_key d minor).

Definition sumZ (f : Z → Z) (l : list Z) : Z :=
  foldr (λ i acc, f i + acc) 0 l.

(** What offset [i] adds to the total of candidate [k]. *)
Definition weighted_term (count : gmap string Z) (k i : Z) : Z :=
  multiplier ((i - k) `mod` 12) false * count_at count i false
  + multiplier ((i - k) `mod` 12) true * count_at count i true.

(** The weighted total of candidate tonic [k]. *)
Definition weighted_total (count : gmap string Z) (k : Z) : Z :=
  sumZ (weighted_term count k) range12.

(** A paragraph histogram: the 24 keys are present, with counts [>= 0]. *)
Definition histogram (count : gmap string Z) : Prop :=
  ∀ i minor, 0 ≤ i < 12 →
    ∃ c, count !! count_key i minor = Some c ∧ 0 ≤ c.

(** The invariant of the outer loop: [best = (bestvalue, bestkey)] is the
    running maximum after the candidates [0 .. n-1]. *)
Definition best_upto (count : gmap string Z) (n : Z) (best : Z * Z) : Prop :=
  0 ≤ best.1
  ∧ (∀ k, 0 ≤ k < n → weighted_total count k ≤ best.1)
  ∧ ((best.1 = 0 ∧ best.2 = 0)
     ∨ (0 ≤ best.2 < n ∧ 0 < best.1
        ∧ best.1 = weighted_total count best.2
        ∧ ∀ k, 0 ≤ k < best.2 → weighted_total count k < best.1)).

(** Offset 0 (major) counted four times, nothing else. *)
Definition four_C_major : gmap string Z := <["0" := 4]> zero_counts.

(** *** Notions for the statements about whole documents *)

(** The chord tokens of a document, in the order pass 1 meets them. *)
Definition document_chords (text : list string) : list string :=
  flat_map (λ line, odd_items (split_line line)) text.

(** The number of blank lines, that is of paragraph breaks. *)
Definition blank_lines (text : list string) : nat :=
  length (filter (λ line, blank_line line = true) text).

(** A token that pass 1 counts: it parses, and its root is a key of the
    offset table. *)
Definition counted (chord : string) : Prop :=
  ∃ c o, Chord_init chord = Ok c ∧ chord_to_offset !! root c = Some o.

(** What counting the token raises, if anything: [ChordError] when it
    does not parse, [KeyError] when its root is not in the offset table. *)
Definition chord_error (chord : string) : option exn :=
  match Chord_init chord with
  | Ok c =>
      match chord_to_offset !! root c with
      | Some _ => None
      | None => Some KeyError
      end
  | Raise e => Some e
  | OutOfFuel => None
  end.

(** The error of the first token that has one. *)
Fixpoint first_error (chords : list string) : option exn :=
  match chords with
  | [] => None
  | chord :: chords' =>
      match chord_error chord with
      | Some e => Some e
      | None => first_error chords'
      end
  end.

(** The state of pass 1 is in order: [para_index] is the index of the
    last paragraph, and every paragraph holds its 24 counts. *)
Definition counting (st : list (gmap string Z) * nat) : Prop :=
  length st.1 = S st.2 ∧ Forall histogram st.1.

(** Some chord was counted in the paragraph. *)
Definition has_chord (count : gmap string Z) : Prop :=
  ∃ i minor, 0 ≤ i < 12 ∧ 1 ≤ count_at count i minor.

(** A paragraph without chords, once estimated. *)
Definition empty_paragraph : paragraph :=
  {| chord_count := zero_counts; key := 0; val := 0 |}.

(** What the examples read off an analysis and off the rewrite state:
    the (offset, score) of each paragraph, [shift], [first_key], [norm];
    and [first_key], [norm], the rewritten lines. *)
Definition analysis_summary (a : analysis)
  : list (Z * Z) * Z * pyval * option string :=
  ((λ p, (key p, val p)) <$> paragraphs a, shift a, first_key a, norm a).

Definition rewriter_summary (r : rewriter)
  : pyval * option string * list string :=
  (active_key r, active_norm r, transposed_text r).

(** The documents and lines of the examples; every line ends in a
    newline, as [readlines] returns them. *)
Definition newline : string := String "010" EmptyString.

Definition hello_world : list string := ["[C]Hello [G]world" +:+ newline].

Definition plain_text : list string :=
  ["hello" +:+ newline; newline; "world" +:+ newline].

Definition key_change_text : list string :=
  ["[C]a" +:+ newline; newline; "[D][D][A#]" +:+ newline].

Definition to_C_text : list string :=
  ["[D]a" +:+ newline; newline; "[C]b" +:+ newline].

Definition E_sharp_then_bad : list string := ["[E#][9xyz]" +:+ newline].

(** ** Further notions *)

(** *** For the chord class *)

(** The token after an opening parenthesis, if it has one. *)
Definition strip_paren (t : string) : string :=
  match t with
  | String c t' => if is_char "(" c then t' else t
  | EmptyString => EmptyString
  end.

(** [s] begins with a letter A-G or a-g. *)
Definition starts_with_note (s : string) : bool :=
  match s with
  | String c _ => note_letter c
  | EmptyString => false
  end.

(** A capital letter A-G, alone or followed by [b] or [#]: the 21
    spellings that a root or a bass can have after [Chord.__init__]. *)
Definition spelling (s : string) : Prop :=
  ∃ l, in_range "A" "G" l = true
       ∧ (s = String l EmptyString ∨ s = String l "b" ∨ s = String l "#").

(** The four spellings that the pattern accepts and no table holds. *)
Definition unlisted_spellings : list string := ["Cb"; "Fb"; "E#"; "B#"].

(** The chord of the token [Db/F]. *)
Definition D_flat_over_F : Chord :=
  {| opening_brace := None; root := "Db"; triad := None;
     bass := Some "F"; bassrest := None; minor := false |}.

(** *** For the document transposer *)

(** [for x in l: out.append(f(x))] where [f] may raise. *)
Fixpoint mapM {A B : Type} (f : A → result B) (l : list A) : result (list B) :=
  match l with
  | [] => Ok []
  | x :: l' => y ← f x; ys ← mapM f l'; Ok (y :: ys)
  end.

(** What pass 3 leaves in the place of a chord segment: the token
    parsed, transposed and normalised, back in its brackets; an empty
    segment stays empty. *)
Definition rewritten_chord (fuel : nat) (shift : Z) (norm : option string)
    (chord : string) : result string :=
  if negb (String.eqb chord EmptyString) then
    c ← Chord_init chord;
    c ← Chord_transpose fuel shift c;
    n ← match norm with
        | Some n => Ok n
        | None => Raise UnboundLocalError
        end;
    Ok ("[" +:+ Chord_chord (Chord_normalise n c) +:+ "]")
  else Ok chord.

(** The segments put together with [f] applied to every chord segment,
    from left to right. *)
Fixpoint rewritten_segments (f : string → result string)
    (segments : list string) : result string :=
  match segments with
  | text :: chord :: segments' =>
      c ← f chord;
      r ← rewritten_segments f segments';
      Ok (text +:+ c +:+ r)
  | [text] => Ok text
  | [] => Ok EmptyString
  end.

Definition rewritten_line (fuel : nat) (shift : Z) (norm : option string)
    (line : string) : result string :=
  rewritten_segments (rewritten_chord fuel shift norm) (split_line line).

(** Root and bass of the token are keys of the offset table. *)
Definition transposable (chord : string) : Prop :=
  ∃ c pc, Chord_init chord = Ok c ∧ pitch_classes c = Some pc.

Definition D_over_E_sharp : list string := ["[D/E#]a" +:+ newline].

(** *** For the line splitter *)

(** The slice [l[0::2]]. *)
Fixpoint even_items {A : Type} (l : list A) : list A :=
  match l with
  | x :: _ :: l' => x :: even_items l'
  | [x] => [x]
  | [] => []
  end.

(** Segments as the splitter gives them: an odd number; no opening
    bracket in a text segment that a chord follows, no closing bracket in
    a chord segment, and no chord left in the last text segment. *)
Fixpoint well_split (segments : list string) : Prop :=
  match segments with
  | text :: chord :: segments' =>
      contains "[" text = false ∧ contains "]" chord = false
      ∧ well_split segments'
  | [text] => split_line text = [text]
  | [] => False
  end.

(** ** The text layout: [parse_file] without [transpose] *)

Definition CHORD_OUT : Z := 0.
Definition CHORD_IN : Z := 1.

(** [s * n]: the empty string when [n] is not positive. *)
Fixpoint repeat_string (s : string) (n : nat) : string :=
  match n with
  | O => EmptyString
  | S n' => s +:+ repeat_string s n'
  end.

Definition str_mul (s : string) (n : Z) : string :=
  repeat_string s (Z.to_nat n).

(** [len(s)] *)
Definition len (s : string) : Z := Z.of_nat (String.length s).

(** [s.endswith(" ")] *)
Fixpoint ends_with_space (s : string) : bool :=
  match s with
  | String c EmptyString => Ascii.eqb c " "
  | String _ s' => ends_with_space s'
  | EmptyString => false
  end.

(** The variables of the character loop.  [chord] is a local of
    [parse_file] that no line resets: it is unbound ([None]) until the
    first opening bracket of the file. *)
Record layout : Type := mkLayout {
  inside_chord : Z;
  chord : option string;
  chord_pad : Z;
  prev_chord_len : Z;
  chord_line : string;
  text_line : string
}.

(** [if c == "["]: the padding that puts the chord over the text that
    follows it. *)
Definition open_chord (st : layout) : layout :=
  let prev_chord_len := prev_chord_len st in
  let chord_pad := chord_pad st in
  let chord_line := chord_line st in
  let text_line := text_line st in
  let '(chord_line, text_line) :=
    if negb (prev_chord_len =? 0) && (chord_pad <=? prev_chord_len) then
      let chord_line := chord_line +:+ " " in
      let text_line :=
        if String.eqb text_line EmptyString || ends_with_space text_line then
          text_line +:+ str_mul " " (prev_chord_len - chord_pad + 1)
        else
          let l := prev_chord_len - chord_pad + 1 in
          let text_line :=
            if negb (l `mod` 2 =? 0) then text_line +:+ str_mul " " (l `div` 2)
            else text_line +:+ str_mul " " (l `div` 2 - 1) in
          let text_line := text_line +:+ "-" in
          text_line +:+ str_mul " " (l `div` 2) in
      (chord_line, text_line)
    else (chord_line, text_line) in
  let chord_line :=
    if prev_chord_len <? chord_pad
    then chord_line +:+ str_mul " " (chord_pad - prev_chord_len)
    else chord_line in
  {| inside_chord := CHORD_IN; chord := Some EmptyString;
     chord_pad := chord_pad; prev_chord_len := prev_chord_len;
     chord_line := chord_line; text_line := text_line |}.

(** [if c == "]"]: reading [chord] raises when it was never bound. *)
Definition close_chord (st : layout) : result layout :=
  match chord st with
  | Some ch =>
      Ok {| inside_chord := CHORD_OUT; chord := Some EmptyString;
            chord_pad := 0; prev_chord_len := len ch;
            chord_line := chord_line st +:+ ch; text_line := text_line st |}
  | None => Raise UnboundLocalError
  end.

(** Any other character goes to the chord or to the text. *)
Definition other_char (st : layout) (c : ascii) : result layout :=
  if inside_chord st =? CHORD_IN then
    match chord st with
    | Some ch =>
        Ok {| inside_chord := inside_chord st;
              chord := Some (ch +:+ String c EmptyString);
              chord_pad := chord_pad st; prev_chord_len := prev_chord_len st;
              chord_line := chord_line st; text_line := text_line st |}
    | None => Raise UnboundLocalError
    end
  else
    Ok {| inside_chord := inside_chord st; chord := chord st;
          chord_pad := chord_pad st + 1; prev_chord_len := prev_chord_len st;
          chord_line := chord_line st;
          text_line := text_line st +:+ String c EmptyString |}.

(** The body of [for c in line]. *)
Definition layout_char (st : layout) (c : ascii) : result layout :=
  if Ascii.eqb c "[" then Ok (open_chord st)
  else if Ascii.eqb c "]" then close_chord st
  else other_char st c.

(** [for c in line], from the state [st]. *)
Fixpoint layout_chars (st : layout) (line : string) : result layout :=
  match line with
  | EmptyString => Ok st
  | String c line' => st' ← layout_char st c; layout_chars st' line'
  end.

(** The state at the head of a line; [chord] is what the lines before
    left in it. *)
Definition line_start (chord : option string) : layout :=
  {| inside_chord := CHORD_OUT; chord := chord; chord_pad := 0;
     prev_chord_len := 0; chord_line := EmptyString;
     text_line := EmptyString |}.

(** What the line adds to [out]. *)
Definition layout_out (st : layout) : string :=
  if negb (String.eqb (chord_line st) EmptyString)
  then chord_line st +:+ newline +:+ text_line st +:+ newline
  else text_line st +:+ newline.

(** The character loop and the lines it adds to [out], for one line
    (already without its line break); also the value it leaves in
    [chord]. *)
Definition layout_line (chord0 : option string) (line : string)
  : result (string * option string) :=
  st ← layout_chars (line_start chord0) line;
  Ok (layout_out st, chord st).

(** *** The rows of the table: [make_pdf_table] up to [data] *)

(** The body of [for c, t in pairs]; [n] is [len(pairs)], and [c], [t]
    are the cells as they were when [zip] paired them. *)
Definition pad_cells (n : Z) (st : list string * list string * nat)
    (ct : string * string) : result (list string * list string * nat) :=
  let '(chords, text, idx) := st in
  let '(c, t) := ct in
  if Z.of_nat idx <? n - 1 then
    text ← (if len t <? len c then
              x ← nth_or_raise text idx;
              Ok (<[idx := x +:+ " -"]> text)
            else Ok text);
    x ← nth_or_raise chords idx;
    Ok (<[idx := x +:+ " "]> chords, text, S idx)
  else Ok st.

(** [make_pdf_table] up to [data = [chords, text]], which it hands to
    the table constructor of the PDF library. *)
Definition make_pdf_table (chords text : list string)
  : result (list string * list string) :=
  let pairs := zip chords text in
  st ← foldM (pad_cells (Z.of_nat (length pairs))) (chords, text, O) pairs;
  Ok (st.1.1, st.1.2).

(** The two rows built for a line: [parts[1::2]] over [parts[2::2]] when
    the line starts with an opening bracket, and an empty chord cell
    before [parts[1::2]] over [parts[0::2]] otherwise. *)
Definition table_rows (line : string) : result (list string * list string) :=
  let parts := split_line line in
  if startswith "[" line
  then make_pdf_table (odd_items parts) (even_items (drop 2 parts))
  else make_pdf_table (EmptyString :: odd_items parts) (even_items parts).

(** *** Notions for the statements about the layout *)

(** No bracket character in [s]. *)
Definition bracket_free (s : string) : Prop :=
  contains "[" s = false ∧ contains "]" s = false.

(** Outside a chord, the text after the last chord and that chord start
    at the same column. *)
Definition aligned (st : layout) : Prop :=
  inside_chord st = CHORD_OUT
  ∧ 0 ≤ chord_pad st ∧ 0 ≤ prev_chord_len st
  ∧ len (text_line st) - chord_pad st
    = len (chord_line st) - prev_chord_len st.

(** The rows cell by cell: a space after every chord but the last of the
    pairs, and [ -] after a text that is shorter than its chord. *)
Definition padded_rows (chords text : list string)
  : list string * list string :=
  let n := Z.of_nat (length (zip chords text)) in
  (imap (λ i c, if Z.of_nat i <? n - 1 then c +:+ " " else c) chords,
   imap (λ i t, if (Z.of_nat i <? n - 1)
                   && (len t <? len (default EmptyString (chords !! i)))
                then t +:+ " -" else t) text).

(** *** For the counting pass *)

(** The entry of the histogram that a chord token adds to: the offset of
    its root and its mode. *)
Definition chord_key (chord : string) : option (Z * bool) :=
  match Chord_init chord with
  | Ok c => o ← chord_to_offset !! root c; Some (o, minor c)
  | _ => None
  end.

(** How many of the tokens have the offset [i] and the mode [minor]. *)
Definition tally (chords : list string) (i : Z) (minor : bool) : Z :=
  Z.of_nat (length (filter (λ chord, chord_key chord = Some (i, minor)) chords)).

(** The chord tokens paragraph by paragraph: a blank line opens the next
    paragraph, and is its first line. *)
Fixpoint paragraph_chords_from (current : list string) (text : list string)
  : list (list string) :=
  match text with
  | [] => [current]
  | line :: text' =>
      if blank_line line
      then current :: paragraph_chords_from (odd_items (split_line line)) text'
      else paragraph_chords_from (current ++ odd_items (split_line line)) text'
  end.

Definition paragraph_chords (text : list string) : list (list string) :=
  paragraph_chords_from [] text.

(** The histogram holds the tally of the tokens. *)
Definition tallied (count : gmap string Z) (chords : list string) : Prop :=
  histogram count
  ∧ ∀ i minor, 0 ≤ i < 12 → count_at count i minor = tally chords i minor.

(** *** Comments and directives *)

(** [s.rstrip(chars)] and [s.lstrip(chars)], the characters given by a
    class. *)
Fixpoint rstrip (p : ascii → bool) (s : string) : string :=
  match s with
  | EmptyString => EmptyString
  | String c s' =>
      let r := rstrip p s' in
      if p c && String.eqb r EmptyString then EmptyString else String c r
  end.

Fixpoint lstrip (p : ascii → bool) (s : string) : string :=
  match s with
  | String c s' => if p c then lstrip p s' else s
  | EmptyString => EmptyString
  end.

(** [s.strip(chars)] *)
Definition strip (p : ascii → bool) (s : string) : string :=
  rstrip p (lstrip p s).

(** The characters of [{} \t]. *)
Definition brace_or_blank (c : ascii) : bool :=
  Ascii.eqb c "{" || Ascii.eqb c "}" || Ascii.eqb c " " || Ascii.eqb c "009".

(** [s.split(":", 1)] *)
Definition split_colon (s : string) : list string :=
  match (span (not_char ":") s).2 with
  | String _ args => [(span (not_char ":") s).1; args]
  | EmptyString => [s]
  end.

(** What a line that starts with a brace does. *)
Inductive directive : Type :=
  | Title (args : string)
  | Subtitle (args : string)
  | Unsupported.

(** The command of the line.  Without a colon [command] stays the list
    that [split] returned, which is equal to none of the four names. *)
Definition command_of (line : string) : directive :=
  match split_colon (strip brace_or_blank line) with
  | [command; args] =>
      if bool_decide (command ∈ ["title"; "t"]) then Title args
      else if bool_decide (command ∈ ["subtitle"; "st"]) then Subtitle args
      else Unsupported
  | _ => Unsupported
  end.

(** What the loop over the lines does with a line. *)
Inductive line_kind : Type :=
  | Skipped
  | SetsTitle (args : string)
  | SetsSubtitle (args : string)
  | LaidOut (line : string).

Definition classify (line : string) : line_kind :=
  let line := rstrip (is_char "010") line in
  if startswith "#" line then Skipped
  else if startswith "{" line then
    match command_of line with
    | Title args => SetsTitle args
    | Subtitle args => SetsSubtitle args
    | Unsupported => LaidOut line
    end
  else LaidOut line.

(** *** The first key as the specification words it *)

(** [firstKey], as the specification words it: the estimated offset of the
    first paragraph whose score is not zero. *)
Fixpoint firstKey (paragraphs : list paragraph) : option Z :=
  match paragraphs with
  | [] => None
  | p :: paragraphs' =>
      if val p =? 0 then firstKey paragraphs' else Some (key p)
  end.

(** * Theorems *)

(** The tables are looked up through lemmas, never unfolded by [simpl]. *)
#[local] Opaque chord_to_offset map_transpose_semitone map_accidental_flat
  map_accidental_sharp chord_multiplier zero_counts.

(** ** The monad and the fold *)

Lemma foldM_app {A B : Type} (f : B → A → result B) (b : B) (l1 l2 : list A) :
  foldM f b (l1 ++ l2) = (b' ← foldM f b l1; foldM f b' l2).
Proof.
  revert b. induction l1 as [|x l1 IH]; intros b; simpl; [done|].
  destruct (f b x) as [b'|e|]; simpl; [apply IH|done|done].
Qed.

Lemma bind_Ok {A B : Type} (f : A → result B) (a : A) : (Ok a ≫= f) = f a.
Proof. reflexivity. Qed.

Lemma dict_get_Some {V : Type} (d : gmap string V) k v :
  d !! k = Some v → dict_get d k = Ok v.
Proof. unfold dict_get. by intros ->. Qed.

Lemma dict_get_None {V : Type} (d : gmap string V) k :
  d !! k = None → dict_get d k = Raise KeyError.
Proof. unfold dict_get. by intros ->. Qed.

(** ** The key estimator *)

Lemma twelve_cases (d : Z) :
  0 ≤ d < 12 →
  d = 0 ∨ d = 1 ∨ d = 2 ∨ d = 3 ∨ d = 4 ∨ d = 5 ∨ d = 6 ∨ d = 7 ∨ d = 8
  ∨ d = 9 ∨ d = 10 ∨ d = 11.
Proof. lia. Qed.

Ltac each_offset d H :=
  apply twelve_cases in H;
  repeat (destruct H as [H|H]; [subst d|]); [..|subst d].

Lemma multiplier_lookup d minor :
  0 ≤ d < 12 →
  chord_multiplier !! count_key d minor = Some (multiplier d minor).
Proof. intros H. each_offset d H; destruct minor; by vm_compute. Qed.

Lemma multiplier_nonneg d minor : 0 ≤ d < 12 → 0 ≤ multiplier d minor.
Proof. intros H. each_offset d H; destruct minor; by vm_compute. Qed.

Section KeyEstimator.
Variable count : gmap string Z.
Hypothesis Hcount : histogram count.

Lemma count_lookup i minor :
  0 ≤ i < 12 → count !! count_key i minor = Some (count_at count i minor).
Proof.
  intros Hi. destruct (Hcount i minor Hi) as (c & Hc & _).
  unfold count_at. by rewrite Hc.
Qed.

Lemma count_nonneg i minor : 0 ≤ i < 12 → 0 ≤ count_at count i minor.
Proof.
  intros Hi. destruct (Hcount i minor Hi) as (c & Hc & Hpos).
  unfold count_at. by rewrite Hc.
Qed.

Lemma weighted_term_nonneg k i : 0 ≤ i < 12 → 0 ≤ weighted_term count k i.
Proof.
  intros Hi. unfold weighted_term.
  assert (0 ≤ (i - k) `mod` 12 < 12) as Hd by (apply Z.mod_pos_bound; lia).
  pose proof (multiplier_nonneg _ false Hd).
  pose proof (multiplier_nonneg _ true Hd).
  pose proof (count_nonneg i false Hi).
  pose proof (count_nonneg i true Hi). nia.
Qed.

Lemma sumZ_nonneg k l :
  Forall (λ i, 0 ≤ i < 12) l → 0 ≤ sumZ (weighted_term count k) l.
Proof.
  induction 1 as [|i l Hi _ IH]; simpl; [lia|].
  pose proof (weighted_term_nonneg k i Hi). lia.
Qed.

Lemma range12_bounds : Forall (λ i, 0 ≤ i < 12) range12.
Proof. apply Forall_seqZ. lia. Qed.

Lemma weighted_total_nonneg k : 0 ≤ weighted_total count k.
Proof. apply sumZ_nonneg, range12_bounds. Qed.

(** The body of the inner loop, with the four lookups resolved. *)
Lemma score_step_eq key value bestvalue bestkey i :
  0 ≤ i < 12 →
  score_step count key (value, bestvalue, bestkey) i =
    let value' := value + weighted_term count key i in
    Ok (value',
        if bestvalue <? value' then value' else bestvalue,
        if bestvalue <? value' then key else bestkey).
Proof.
  intros Hi. unfold score_step.
  assert (0 ≤ (i - key) `mod` 12 < 12) as Hd by (apply Z.mod_pos_bound; lia).
  rewrite (dict_get_Some _ _ _ (multiplier_lookup _ false Hd)), bind_Ok.
  rewrite (dict_get_Some _ _ _ (count_lookup i false Hi)), bind_Ok.
  rewrite (dict_get_Some _ _ _ (multiplier_lookup _ true Hd)), bind_Ok.
  rewrite (dict_get_Some _ _ _ (count_lookup i true Hi)), bind_Ok.
  cbn zeta. unfold weighted_term. rewrite Z.add_assoc.
  by destruct (_ <? _).
Qed.

(** The inner loop: because every term is [>= 0], comparing after each
    addition has the effect of one comparison with the final total. *)
Lemma inner_loop key l : ∀ value bestvalue bestkey,
  Forall (λ i, 0 ≤ i < 12) l →
  value ≤ bestvalue →
  foldM (score_step count key) (value, bestvalue, bestkey) l =
    let total := value + sumZ (weighted_term count key) l in
    Ok (total,
        if bestvalue <? total then total else bestvalue,
        if bestvalue <? total then key else bestkey).
Proof.
  induction l as [|i l IH]; intros value bestvalue bestkey Hl Hle.
  - simpl. rewrite Z.add_0_r.
    destruct (Z.ltb_spec bestvalue value); [lia|done].
  - apply Forall_cons in Hl as [Hi Hl].
    cbn [foldM]. rewrite score_step_eq by done. cbn zeta.
    pose proof (weighted_term_nonneg key i Hi) as Hterm.
    pose proof (sumZ_nonneg key l Hl) as Hsum.
    rewrite bind_Ok.
    cbn [sumZ foldr]. fold (sumZ (weighted_term count key) l).
    destruct (Z.ltb_spec bestvalue (value + weighted_term count key i)).
    + rewrite IH by (done || lia). cbn zeta.
      rewrite <- Z.add_assoc.
      destruct (Z.ltb_spec (value + weighted_term count key i)
                  (value + (weighted_term count key i
                            + sumZ (weighted_term count key) l)));
      destruct (Z.ltb_spec bestvalue
                  (value + (weighted_term count key i
                            + sumZ (weighted_term count key) l)));
      try lia; try done.
      repeat f_equal; lia.
    + rewrite IH by (done || lia). cbn zeta.
      by rewrite <- Z.add_assoc.
Qed.

(** One candidate key: the running maximum is compared with its total. *)
Lemma score_key_eq bestvalue bestkey key :
  0 ≤ bestvalue →
  score_key count (bestvalue, bestkey) key =
    Ok (if bestvalue <? weighted_total count key
        then (weighted_total count key, key) else (bestvalue, bestkey)).
Proof.
  intros Hpos. unfold score_key. cbn [fst snd].
  rewrite inner_loop by (apply range12_bounds || done).
  cbn zeta. rewrite Z.add_0_l. fold (weighted_total count key).
  rewrite bind_Ok. cbn [fst snd].
  by destruct (_ <? _).
Qed.

Lemma outer_loop (n : nat) :
  ∃ best, foldM (score_key count) (0, 0) (seqZ 0 (Z.of_nat n)) = Ok best
          ∧ best_upto count (Z.of_nat n) best.
Proof.
  induction n as [|n (best & Hrun & Hpos & Hmax & Harg)].
  - exists (0, 0). split; [done|]. unfold best_upto; simpl.
    split; [lia|]. split; [lia|]. by left.
  - destruct best as [bv bk]. cbn [fst snd] in *.
    rewrite seqZ_S, foldM_app, Hrun, bind_Ok. cbn [foldM].
    rewrite Z.add_0_l, score_key_eq, bind_Ok by done.
    eexists; split; [done|].
    destruct (Z.ltb_spec bv (weighted_total count (Z.of_nat n))) as [Hlt|Hge];
      unfold best_upto; cbn [fst snd].
    + split; [lia|]. split.
      * intros k Hk. destruct (decide (k = Z.of_nat n)) as [->|]; [lia|].
        specialize (Hmax k). lia.
      * right. repeat split; try lia.
        intros k Hk. specialize (Hmax k). lia.
    + split; [lia|]. split.
      * intros k Hk. destruct (decide (k = Z.of_nat n)) as [->|]; [lia|].
        specialize (Hmax k). lia.
      * destruct Harg as [?|(? & ? & ? & ?)]; [by left|].
        right. repeat split; try lia; done.
Qed.

End KeyEstimator.

Lemma weighted_total_zero count k :
  (∀ i minor, 0 ≤ i < 12 → count_at count i minor = 0) →
  weighted_total count k = 0.
Proof.
  intros Hzero. unfold weighted_total.
  pose proof range12_bounds as Hl.
  induction Hl as [|i l Hi _ IH]; [done|].
  cbn [sumZ foldr]. fold (sumZ (weighted_term count k) l).
  rewrite IH. unfold weighted_term. rewrite !Hzero by done. lia.
Qed.

(** The estimator returns the first maximum of the weighted totals. *)
Lemma estimate_key_best (count : gmap string Z) :
  histogram count →
  ∃ bestScore bestOffset,
    estimate_key count = Ok (bestScore, bestOffset)
    ∧ 0 ≤ bestOffset < 12
    ∧ bestScore = weighted_total count bestOffset
    ∧ (∀ k, 0 ≤ k < 12 → weighted_total count k ≤ bestScore)
    ∧ (∀ k, 0 ≤ k < bestOffset → weighted_total count k < bestScore).
Proof.
  intros Hcount.
  destruct (outer_loop count Hcount 12) as ([bv bk] & Hrun & Hpos & Hmax & Harg).
  cbn [fst snd] in *. exists bv, bk. split; [exact Hrun|].
  pose proof (weighted_total_nonneg count Hcount 0) as H0.
  destruct Harg as [[-> ->]|(Hbk & Hlt & Heq & Hfirst)].
  - pose proof (Hmax 0 ltac:(lia)) as Hmax0.
    split; [lia|]. split; [lia|]. split; [done|]. intros k Hk. lia.
  - split; [lia|]. split; [done|]. split; done.
Qed.

(** C1.  On a paragraph histogram (24 counts [>= 0]) the estimator returns
    a best score equal to the maximum over the candidate offsets 0..11 of
    the weighted total, and as best offset the smallest candidate reaching
    that maximum; an all-zero histogram gives offset 0 and score 0. *)
Theorem estimate_key_is_first_argmax (count : gmap string Z) :
  histogram count →
  ∃ bestScore bestOffset,
    estimate_key count = Ok (bestScore, bestOffset)
    ∧ 0 ≤ bestOffset < 12
    ∧ bestScore = weighted_total count bestOffset
    ∧ (∀ k, 0 ≤ k < 12 → weighted_total count k ≤ bestScore)
    ∧ (∀ k, 0 ≤ k < bestOffset → weighted_total count k < bestScore)
    ∧ ((∀ i minor, 0 ≤ i < 12 → count_at count i minor = 0) →
       bestOffset = 0 ∧ bestScore = 0).
Proof.
  intros Hcount.
  destruct (estimate_key_best count Hcount)
    as (v & k & Hrun & Hk & Hv & Hmax & Hfirst).
  exists v, k. split; [done|]. split; [done|]. split; [done|].
  split; [done|]. split; [done|].
  intros Hzero. rewrite (weighted_total_zero _ _ Hzero) in Hv. subst v.
  split; [|done]. destruct (decide (k = 0)) as [|Hne]; [done|].
  specialize (Hfirst 0 ltac:(lia)).
  rewrite (weighted_total_zero _ _ Hzero) in Hfirst. lia.
Qed.

Lemma zero_counts_histogram : histogram zero_counts.
Proof.
  intros i minor Hi.
  each_offset i Hi; destruct minor; exists 0; (split; [by vm_compute|lia]).
Qed.

Lemma zero_counts_at i minor : 0 ≤ i < 12 → count_at zero_counts i minor = 0.
Proof. intros Hi. each_offset i Hi; destruct minor; by vm_compute. Qed.

Lemma four_C_major_histogram : histogram four_C_major.
Proof.
  intros i minor Hi.
  each_offset i Hi; destruct minor; eexists; (split; [by vm_compute|lia]).
Qed.

Lemma estimate_key_is_first_argmax_witness :
  (∃ bestScore bestOffset,
     estimate_key four_C_major = Ok (bestScore, bestOffset)
     ∧ 0 ≤ bestOffset < 12
     ∧ bestScore = weighted_total four_C_major bestOffset
     ∧ (∀ k, 0 ≤ k < 12 → weighted_total four_C_major k ≤ bestScore)
     ∧ (∀ k, 0 ≤ k < bestOffset → weighted_total four_C_major k < bestScore))
  ∧ (∃ bestScore bestOffset,
       estimate_key zero_counts = Ok (bestScore, bestOffset)
       ∧ bestOffset = 0 ∧ bestScore = 0).
Proof.
  split.
  - destruct (estimate_key_is_first_argmax four_C_major four_C_major_histogram)
      as (v & k & H1 & H2 & H3 & H4 & H5 & _).
    exists v, k. split; [exact H1|]. split; [exact H2|]. split; [exact H3|].
    split; [exact H4|exact H5].
  - destruct (estimate_key_is_first_argmax zero_counts zero_counts_histogram)
      as (v & k & H1 & _ & _ & _ & _ & Hzero).
    exists v, k. split; [exact H1|]. apply Hzero. apply zero_counts_at.
Defined.

Example estimate_four_C_major : estimate_key four_C_major = Ok (8, 0).
Proof. by vm_compute. Qed.

(** ** The semitone-step table and [Chord.transpose] *)

Lemma step_table_closed :
  map_Forall (λ s t,
    bool_decide (is_Some (map_transpose_semitone !! t))
    && bool_decide ((λ o, (o + 1) `mod` 12) <$> chord_to_offset !! s
                    = chord_to_offset !! t)
    && bool_decide (is_Some (chord_to_offset !! s))
    && negb (is_flat t) = true) map_transpose_semitone.
Proof. apply (bool_decide_unpack _). vm_compute. exact I. Qed.

Lemma step_table_entry s t :
  map_transpose_semitone !! s = Some t → step_entry_ok s t.
Proof.
  intros Hst. pose proof (step_table_closed s t Hst) as H. cbv beta in H.
  repeat (apply andb_prop in H as [H ?]).
  apply bool_decide_eq_true in H. unfold step_entry_ok.
  match goal with Hs : bool_decide (is_Some (chord_to_offset !! s)) = true |- _ =>
    apply bool_decide_eq_true in Hs as [o Ho] end.
  match goal with He : bool_decide (_ = _) = true |- _ =>
    apply bool_decide_eq_true in He; rewrite Ho in He; simpl in He end.
  split; [done|]. split; [by exists o|]. by apply negb_true_iff.
Qed.

(** The offset table and the step table have the same keys. *)
Lemma step_table_total :
  map_Forall (λ s (_ : Z), is_Some (map_transpose_semitone !! s)) chord_to_offset.
Proof. apply (bool_decide_unpack _). vm_compute. exact I. Qed.

Lemma step_of_offset s o :
  chord_to_offset !! s = Some o →
  ∃ t, map_transpose_semitone !! s = Some t
       ∧ chord_to_offset !! t = Some ((o + 1) `mod` 12).
Proof.
  intros Ho. destruct (step_table_total s o Ho) as [t Ht]. exists t.
  split; [done|].
  destruct (step_table_entry s t Ht) as (_ & (o' & Ho' & Ht') & _).
  congruence.
Qed.

Lemma offset_nonempty s o : chord_to_offset !! s = Some o → s ≠ EmptyString.
Proof. intros H ->. vm_compute in H. discriminate. Qed.

Lemma str_truthy_Some s : s ≠ EmptyString → str_truthy (Some s) = true.
Proof. destruct s; [done|]. reflexivity. Qed.

Lemma offsets_in_range :
  map_Forall (λ (_ : string) o, 0 ≤ o < 12) chord_to_offset.
Proof. apply (bool_decide_unpack _). vm_compute. exact I. Qed.

Lemma pitch_classes_inv c pc :
  pitch_classes c = Some pc →
  chord_to_offset !! root c = Some pc.1
  ∧ match bass c with
    | Some b => ∃ o, chord_to_offset !! b = Some o ∧ pc.2 = Some o
    | None => pc.2 = None
    end.
Proof.
  unfold pitch_classes. intros H.
  destruct (chord_to_offset !! root c) as [r|]; [|done].
  cbn [mbind option_bind] in H.
  destruct (bass c) as [b|].
  - destruct (chord_to_offset !! b) as [o|]; [|done].
    cbn [mbind option_bind] in H. injection H as <-. split; [done|]. by exists o.
  - by injection H as <-.
Qed.

Lemma pitch_classes_intro c r ob :
  chord_to_offset !! root c = Some r →
  match bass c with
  | Some b => ∃ o, chord_to_offset !! b = Some o ∧ ob = Some o
  | None => ob = None
  end →
  pitch_classes c = Some (r, ob).
Proof.
  unfold pitch_classes. intros -> H. cbn [mbind option_bind].
  destruct (bass c) as [b|]; [|by subst].
  destruct H as (o & -> & ->). done.
Qed.

Lemma advance_0 c pc : pitch_classes c = Some pc → advance 0 pc = pc.
Proof.
  intros H. apply pitch_classes_inv in H as [Hr Hb].
  destruct pc as [r ob]. cbn [fst snd] in *. unfold advance. cbn [fst snd].
  pose proof (offsets_in_range _ _ Hr).
  rewrite Z.add_0_r, Z.mod_small by done. f_equal.
  destruct (bass c) as [b|]; [|by subst].
  destruct Hb as (o & Ho & ->). cbn.
  pose proof (offsets_in_range _ _ Ho).
  by rewrite Z.add_0_r, Z.mod_small.
Qed.

(** One pass through the loop body moves a chord with table spellings
    one semitone up, and raises nothing. *)
Lemma transpose_step_classes c pc :
  pitch_classes c = Some pc →
  ∃ c', transpose_step c = Ok c'
        ∧ pitch_classes c' = Some (advance 1 pc)
        ∧ opening_brace c' = opening_brace c ∧ triad c' = triad c
        ∧ bassrest c' = bassrest c ∧ minor c' = minor c.
Proof.
  intros Hpc. apply pitch_classes_inv in Hpc as [Hr Hb].
  destruct pc as [r ob]. cbn [fst snd] in *. unfold transpose_step.
  destruct (step_of_offset _ _ Hr) as (r' & Hstep & Hr').
  rewrite (dict_get_Some _ _ _ Hstep), bind_Ok.
  destruct (bass c) as [b|] eqn:Hbass.
  - destruct Hb as (o & Ho & ->).
    destruct (step_of_offset _ _ Ho) as (b' & Hstepb & Hb').
    rewrite (str_truthy_Some b (offset_nonempty _ _ Ho)).
    cbn [default from_option id]. rewrite (dict_get_Some _ _ _ Hstepb).
    eexists; split; [reflexivity|]. split; [|done].
    apply pitch_classes_intro; [done|]. cbn [bass]. by exists ((o + 1) `mod` 12).
  - subst ob. cbn [str_truthy]. eexists; split; [reflexivity|]. split; [|done].
    by apply pitch_classes_intro.
Qed.

Lemma advance_advance a b pc :
  advance b (advance a pc) = advance (a + b) pc.
Proof.
  destruct pc as [r [o|]]; unfold advance; cbn [fst snd fmap option_fmap option_map];
    rewrite !Zplus_mod_idemp_l, <- ?Z.add_assoc; done.
Qed.

Lemma advance_mod n pc : advance (n `mod` 12) pc = advance n pc.
Proof.
  destruct pc as [r [o|]]; unfold advance; cbn [fst snd fmap option_fmap option_map];
    rewrite !Zplus_mod_idemp_r; done.
Qed.

Lemma Chord_transpose_0 fuel c : Chord_transpose fuel 0 c = Ok c.
Proof. by destruct fuel. Qed.

Lemma Chord_transpose_S fuel n c :
  n ≠ 0 →
  Chord_transpose (S fuel) n c =
    (c' ← transpose_step c; Chord_transpose fuel (n - 1) c').
Proof. intros Hn. cbn [Chord_transpose]. by destruct (Z.eqb_spec n 0). Qed.

(** [Chord.transpose] with a shift [n >= 0] and fuel for [n] turns: the
    loop ends, raises nothing, and moves root and bass by [n]. *)
Lemma Chord_transpose_classes (fuel : nat) : ∀ n c pc,
  pitch_classes c = Some pc →
  0 ≤ n ≤ Z.of_nat fuel →
  ∃ c', Chord_transpose fuel n c = Ok c'
        ∧ pitch_classes c' = Some (advance n pc)
        ∧ opening_brace c' = opening_brace c ∧ triad c' = triad c
        ∧ bassrest c' = bassrest c ∧ minor c' = minor c.
Proof.
  induction fuel as [|fuel IH]; intros n c pc Hpc Hn.
  - assert (n = 0) as -> by lia. exists c. rewrite Chord_transpose_0.
    by rewrite (advance_0 c pc).
  - destruct (decide (n = 0)) as [->|Hnz].
    + exists c. rewrite Chord_transpose_0. by rewrite (advance_0 c pc).
    + rewrite Chord_transpose_S by done.
      destruct (transpose_step_classes c pc Hpc)
        as (c1 & -> & Hpc1 & Hf1 & Hf2 & Hf3 & Hf4).
      rewrite bind_Ok.
      destruct (IH (n - 1) c1 _ Hpc1 ltac:(lia))
        as (c' & -> & Hpc' & Hg1 & Hg2 & Hg3 & Hg4).
      exists c'. split; [done|].
      rewrite Hpc', advance_advance. replace (1 + (n - 1)) with n by lia.
      repeat split; congruence.
Qed.

(** A negative shift never reaches zero: no fuel is enough. *)
Lemma Chord_transpose_negative (fuel : nat) : ∀ n c,
  n < 0 → ∀ c', Chord_transpose fuel n c ≠ Ok c'.
Proof.
  induction fuel as [|fuel IH]; intros n c Hn c'.
  - cbn. by destruct (Z.eqb_spec n 0); [lia|].
  - rewrite Chord_transpose_S by lia.
    destruct (transpose_step c) as [c1| |]; [|done..].
    rewrite bind_Ok. apply IH. lia.
Qed.

(** The step table has no key outside the offset table. *)
Lemma step_key_has_offset s t :
  map_transpose_semitone !! s = Some t → is_Some (chord_to_offset !! s).
Proof.
  intros H. destruct (step_table_entry s t H) as (_ & (o & Ho & _) & _).
  by exists o.
Qed.

Lemma dict_get_Ok {V : Type} (d : gmap string V) k v :
  dict_get d k = Ok v → d !! k = Some v.
Proof. unfold dict_get. destruct (d !! k); [|done]. by intros [= ->]. Qed.

Lemma empty_has_no_offset : chord_to_offset !! EmptyString = None.
Proof. vm_compute. reflexivity. Qed.

(** A chord with a spelling outside the table never acquires pitch
    classes by transposition. *)
Lemma transpose_step_no_classes c c' :
  pitch_classes c = None → transpose_step c = Ok c' → pitch_classes c' = None.
Proof.
  unfold transpose_step. intros Hnone Hstep.
  destruct (dict_get map_transpose_semitone (root c)) as [r| |] eqn:Hr; [|done..].
  rewrite bind_Ok in Hstep.
  apply dict_get_Ok in Hr. destruct (step_key_has_offset _ _ Hr) as [o Ho].
  unfold pitch_classes in Hnone. rewrite Ho in Hnone. cbn [mbind option_bind] in Hnone.
  destruct (bass c) as [b|] eqn:Hb; [|done].
  destruct b as [|ch b].
  - cbn in Hstep. injection Hstep as <-. unfold pitch_classes. cbn [root bass].
    destruct (chord_to_offset !! r); [|done]. cbn [mbind option_bind].
    by rewrite empty_has_no_offset.
  - change (str_truthy (Some (String ch b))) with true in Hstep.
    cbn [default from_option id] in Hstep.
    destruct (dict_get map_transpose_semitone (String ch b)) as [b'| |] eqn:Hb';
      [|done..].
    apply dict_get_Ok in Hb'. destruct (step_key_has_offset _ _ Hb') as [ob Hob].
    rewrite Hob in Hnone. done.
Qed.

Lemma Chord_transpose_no_classes (fuel : nat) : ∀ n c c',
  pitch_classes c = None → Chord_transpose fuel n c = Ok c' →
  pitch_classes c' = None.
Proof.
  induction fuel as [|fuel IH]; intros n c c' Hnone Hrun.
  - cbn in Hrun. destruct (n =? 0); [|done]. by injection Hrun as <-.
  - destruct (decide (n = 0)) as [->|Hnz].
    + rewrite Chord_transpose_0 in Hrun. by injection Hrun as <-.
    + rewrite Chord_transpose_S in Hrun by done.
      destruct (transpose_step c) as [c1| |] eqn:Hstep; [|done..].
      rewrite bind_Ok in Hrun.
      eapply IH; [|exact Hrun]. by eapply transpose_step_no_classes.
Qed.

(** C5, as amended.  For a parsed chord whose root and bass (when it has
    one) are keys of the offset table, and all [a, b >= 0]: transposing
    by [a] and then by [b] returns a chord, transposing the parsed chord
    once by [(a + b) mod 12] returns a chord, and the two have the same
    root and bass pitch classes, those of the parsed chord moved up by
    [a + b] modulo 12.  (The fuel bounds say that the loops are given
    turns enough to end.) *)
Theorem transpose_twice_is_transpose_sum (t : string) (c : Chord)
    (a b : Z) (fuel : nat) :
  Chord_init t = Ok c →
  is_Some (chord_to_offset !! root c) →
  (∀ x, bass c = Some x → is_Some (chord_to_offset !! x)) →
  0 ≤ a ≤ Z.of_nat fuel → 0 ≤ b ≤ Z.of_nat fuel → 12 ≤ Z.of_nat fuel →
  ∃ c1 c2 c3 pc,
    Chord_transpose fuel a c = Ok c1
    ∧ Chord_transpose fuel b c1 = Ok c2
    ∧ Chord_transpose fuel ((a + b) `mod` 12) c = Ok c3
    ∧ pitch_classes c = Some pc
    ∧ pitch_classes c2 = Some (advance (a + b) pc)
    ∧ pitch_classes c3 = Some (advance (a + b) pc).
Proof.
  intros _ [r Hr] Hbass Ha Hb Hfuel.
  assert (0 ≤ (a + b) `mod` 12 < 12) as Hab by (apply Z.mod_pos_bound; lia).
  assert (∃ pc, pitch_classes c = Some pc) as [pc Hpc].
  { destruct (bass c) as [x|] eqn:Hx.
    - destruct (Hbass x eq_refl) as [o Ho]. exists (r, Some o).
      apply pitch_classes_intro; [done|]. rewrite Hx. by exists o.
    - exists (r, None). apply pitch_classes_intro; [done|]. by rewrite Hx. }
  destruct (Chord_transpose_classes fuel a c pc Hpc Ha) as (c1 & Hc1 & Hpc1 & _).
  destruct (Chord_transpose_classes fuel b c1 _ Hpc1 Hb) as (c2 & Hc2 & Hpc2 & _).
  destruct (Chord_transpose_classes fuel ((a + b) `mod` 12) c pc Hpc ltac:(lia))
    as (c3 & Hc3 & Hpc3 & _).
  exists c1, c2, c3, pc. rewrite advance_advance in Hpc2.
  rewrite advance_mod in Hpc3. done.
Qed.

Lemma Chord_init_Csharp_m7_over_Gsharp :
  Chord_init "C#m7/G#" = Ok Csharp_m7_over_Gsharp.
Proof. vm_compute. reflexivity. Qed.

Lemma transpose_twice_is_transpose_sum_witness :
  ∃ c1 c2 c3 pc,
    Chord_transpose 12 5 Csharp_m7_over_Gsharp = Ok c1
    ∧ Chord_transpose 12 9 c1 = Ok c2
    ∧ Chord_transpose 12 ((5 + 9) `mod` 12) Csharp_m7_over_Gsharp = Ok c3
    ∧ pitch_classes Csharp_m7_over_Gsharp = Some pc
    ∧ pitch_classes c2 = Some (advance (5 + 9) pc)
    ∧ pitch_classes c3 = Some (advance (5 + 9) pc).
Proof.
  apply (transpose_twice_is_transpose_sum "C#m7/G#" Csharp_m7_over_Gsharp
           5 9 12 Chord_init_Csharp_m7_over_Gsharp).
  - vm_compute. eexists. reflexivity.
  - intros x [= <-]. vm_compute. eexists. reflexivity.
  - lia.
  - lia.
  - lia.
Defined.

(** C5 as stated fails on the parsed chord of [D/E#], whose bass is in no
    table, with [a = 5] and [b = 7]: transposing by 5 raises [KeyError]
    at the bass, so the two calls give no chord, while transposing once
    by [(5 + 7) mod 12 = 0] does not enter the loop and returns the chord,
    with the root at pitch class 2. *)
Lemma transpose_twice_raises_on_D_over_E_sharp :
  Chord_init "D/E#" = Ok D_slash_E_sharp
  ∧ Chord_transpose 12 5 D_slash_E_sharp = Raise KeyError
  ∧ (c1 ← Chord_transpose 12 5 D_slash_E_sharp; Chord_transpose 12 7 c1)
    = Raise KeyError
  ∧ Chord_transpose 12 ((5 + 7) `mod` 12) D_slash_E_sharp = Ok D_slash_E_sharp
  ∧ chord_to_offset !! root D_slash_E_sharp = Some 2.
Proof. repeat split; vm_compute; reflexivity. Qed.

(** C10, as amended.  Every entry [s ↦ t] of the semitone-step table has
    [t] a key of the step table and of the offset table, one semitone
    above [s], and never a flat spelling.  Consequently [Chord.transpose]
    with [n >= 0], on a parsed chord whose root and bass are spellings of
    the offset table, ends without raising, leaves root and bass in the
    table and moves each offset up by [n] modulo 12. *)
Theorem step_table_closed_and_transpose_total :
  (∀ s t, map_transpose_semitone !! s = Some t → step_entry_ok s t)
  ∧ (∀ (t : string) (c : Chord) (pc : Z * option Z) (n : Z) (fuel : nat),
       Chord_init t = Ok c →
       pitch_classes c = Some pc →
       0 ≤ n ≤ Z.of_nat fuel →
       ∃ c', Chord_transpose fuel n c = Ok c'
             ∧ pitch_classes c' = Some (advance n pc)).
Proof.
  split; [exact step_table_entry|].
  intros t c pc n fuel _ Hpc Hn.
  destruct (Chord_transpose_classes fuel n c pc Hpc Hn) as (c' & Hrun & Hpc' & _).
  by exists c'.
Qed.

Lemma step_table_closed_and_transpose_total_witness :
  ∃ c', Chord_transpose 3 3 Csharp_m7_over_Gsharp = Ok c'
        ∧ pitch_classes c' = Some (advance 3 (1, Some 8)).
Proof.
  apply (proj2 step_table_closed_and_transpose_total "C#m7/G#"
           Csharp_m7_over_Gsharp (1, Some 8) 3 3%nat
           Chord_init_Csharp_m7_over_Gsharp).
  - vm_compute. reflexivity.
  - lia.
Defined.

(** C10 as stated fails: the token [Cb] parses, its root is in no table,
    and one semitone step raises [KeyError]. *)
Lemma transpose_raises_on_C_flat :
  Chord_init "Cb" = Ok C_flat
  ∧ pitch_classes C_flat = None
  ∧ ∀ fuel, Chord_transpose (S fuel) 1 C_flat = Raise KeyError.
Proof.
  split; [vm_compute; reflexivity|]. split; [vm_compute; reflexivity|].
  intros fuel. rewrite Chord_transpose_S by done.
  assert (transpose_step C_flat = Raise KeyError) as -> by (vm_compute; reflexivity).
  done.
Qed.

(** ** Strings *)

Lemma str_app_cons (c : ascii) (s1 s2 : string) :
  String c s1 +:+ s2 = String c (s1 +:+ s2).
Proof. reflexivity. Qed.

Lemma str_app_nil_l (s : string) : EmptyString +:+ s = s.
Proof. reflexivity. Qed.

Lemma str_app_nil_r (s : string) : s +:+ EmptyString = s.
Proof. induction s as [|c s IH]; [done|by rewrite str_app_cons, IH]. Qed.

Lemma str_app_assoc (s1 s2 s3 : string) : (s1 +:+ s2) +:+ s3 = s1 +:+ (s2 +:+ s3).
Proof. induction s1 as [|c s1 IH]; [done|by rewrite !str_app_cons, IH]. Qed.

Lemma str_length_app (s1 s2 : string) :
  String.length (s1 +:+ s2) = (String.length s1 + String.length s2)%nat.
Proof.
  induction s1 as [|c s1 IH]; [done|].
  rewrite str_app_cons. cbn [String.length]. by rewrite IH.
Qed.

(** ** The greedy star *)

Lemma span_app p s : (span p s).1 +:+ (span p s).2 = s.
Proof.
  induction s as [|c s IH]; cbn [span]; [done|].
  destruct (p c); cbn [fst snd]; [|done].
  by rewrite str_app_cons, IH.
Qed.

Lemma span_cons_true p a s :
  p a = true → span p (String a s) = (String a (span p s).1, (span p s).2).
Proof. intros H. cbn [span]. by rewrite H. Qed.

Lemma span_cons_false p a s :
  p a = false → span p (String a s) = (EmptyString, String a s).
Proof. intros H. cbn [span]. by rewrite H. Qed.

(** Every character of the span is in the class. *)
Lemma span_class p s m c m' :
  (span p s).1 = m +:+ String c m' → p c = true.
Proof.
  revert m. induction s as [|a s IH]; intros m; cbn [span].
  - cbn [fst]. destruct m; discriminate.
  - destruct (p a) eqn:Hpa; cbn [fst].
    + destruct m as [|b m]; rewrite ?str_app_nil_l, ?str_app_cons.
      * intros [= -> _]. done.
      * intros [= _ H]. by eapply IH.
    + destruct m; discriminate.
Qed.

(** The character after the span, if any, is outside the class. *)
Lemma span_stop p s c r : (span p s).2 = String c r → p c = false.
Proof.
  induction s as [|a s IH]; cbn [span]; [done|].
  destruct (p a) eqn:Hpa; cbn [snd]; [done|]. by intros [= <- _].
Qed.

Lemma span_all p m r :
  (∀ m1 c m2, m = m1 +:+ String c m2 → p c = true) →
  match r with String c _ => p c = false | EmptyString => True end →
  span p (m +:+ r) = (m, r).
Proof.
  intros Hm Hr. induction m as [|a m IH]; rewrite ?str_app_nil_l, ?str_app_cons.
  - destruct r as [|c r]; cbn [span]; [done|]. by rewrite Hr.
  - cbn [span]. rewrite (Hm EmptyString a m eq_refl). rewrite IH; [done|].
    intros m1 c m2 ->. by apply (Hm (String a m1) c m2).
Qed.

(** The star keeps its longest match when a failure of the rest of the
    pattern after the longest match means that it fails after every
    shorter one. *)
Lemma star_cls_greedy {R : Type} p s (k : string → string → option R) :
  (k (span p s).1 (span p s).2 = None →
   ∀ m c m', (span p s).1 = m +:+ String c m' →
             k m (String c m' +:+ (span p s).2) = None) →
  star_cls p s k = k (span p s).1 (span p s).2.
Proof.
  revert k. induction s as [|a s IH]; intros k Hk; [done|].
  cbn [star_cls]. destruct (p a) eqn:Hpa.
  - rewrite span_cons_true in * by done. cbn [fst snd] in *.
    rewrite IH.
    + destruct (k (String a (span p s).1) (span p s).2) eqn:Hgreedy; [done|].
      specialize (Hk eq_refl EmptyString a (span p s).1 eq_refl).
      by rewrite str_app_cons, span_app in Hk.
    + intros Hnone m c m' Hm.
      apply (Hk Hnone (String a m) c m'). by rewrite Hm.
  - by rewrite span_cons_false.
Qed.

(** ** The chord pattern *)

Lemma note_letter_dot c : note_letter c = true → dot c = true.
Proof. by destruct c as [[] [] [] [] [] [] [] []]. Qed.

Lemma accidental_dot c : accidental c = true → dot c = true.
Proof. by destruct c as [[] [] [] [] [] [] [] []]. Qed.

Lemma accidental_not_slash c : accidental c = true → not_char "/" c = true.
Proof. by destruct c as [[] [] [] [] [] [] [] []]. Qed.

Lemma slash_dot c : is_char "/" c = true → dot c = true.
Proof. by destruct c as [[] [] [] [] [] [] [] []]. Qed.

Lemma nl_ok_cons_dot c s : dot c = true → nl_ok (String c s) = nl_ok s.
Proof. intros H. unfold nl_ok. cbn [span]. by rewrite H. Qed.

Lemma nl_ok_cons c s : nl_ok (String c s) = true → nl_ok s = true.
Proof.
  destruct (dot c) eqn:Hc; [by rewrite nl_ok_cons_dot|].
  unfold nl_ok. cbn [span]. rewrite Hc. cbn [snd at_end].
  destruct s; [done|]. done.
Qed.

Lemma nl_ok_app m s : nl_ok (m +:+ s) = true → nl_ok s = true.
Proof.
  induction m as [|c m IH]; [done|]. rewrite str_app_cons.
  intros H. by apply IH, (nl_ok_cons c).
Qed.

Lemma tail5_None s g : tail5 s g = None ↔ nl_ok s = false.
Proof. unfold tail5. destruct (nl_ok s); naive_solver. Qed.

Lemma take_note_nl_ok s n s' : take_note s = Some (n, s') → nl_ok s = nl_ok s'.
Proof.
  unfold take_note. destruct s as [|c s]; [done|].
  destruct (note_letter c) eqn:Hc; [|done].
  apply note_letter_dot in Hc.
  destruct s as [|a s].
  - intros [= <- <-]. by rewrite nl_ok_cons_dot.
  - destruct (accidental a) eqn:Ha.
    + intros [= <- <-]. apply accidental_dot in Ha.
      by rewrite !nl_ok_cons_dot.
    + intros [= <- <-]. by rewrite nl_ok_cons_dot.
Qed.

Lemma tail4_None s g : tail4 s g = None ↔ nl_ok s = false.
Proof.
  unfold tail4. destruct (take_note s) as [[n s']|] eqn:Hn.
  - by rewrite tail5_None, (take_note_nl_ok _ _ _ Hn).
  - apply tail5_None.
Qed.

Lemma tail_slash_None s g : tail_slash s g = None ↔ nl_ok s = false.
Proof.
  unfold tail_slash. destruct s as [|c s]; [apply tail4_None|].
  destruct (is_char "/" c) eqn:Hc; rewrite tail4_None; [|done].
  by rewrite (nl_ok_cons_dot c s (slash_dot c Hc)).
Qed.

Lemma tail3_None s g :
  tail3 s g = None ↔ nl_ok (span (not_char "/") s).2 = false.
Proof. unfold tail3. apply tail_slash_None. Qed.

(** ** The matcher *)

Lemma star_cls_ext {R : Type} p s (k k' : string → string → option R) :
  (∀ m rest, k m rest = k' m rest) → star_cls p s k = star_cls p s k'.
Proof.
  revert k k'. induction s as [|c s IH]; intros k k' Hk; cbn [star_cls]; [done|].
  destruct (p c); [|done].
  rewrite (IH _ (λ m rest, k' (String c m) rest)) by (intros; apply Hk).
  by rewrite Hk.
Qed.

(** The result depends on the continuation through its values only. *)
Lemma run_ext {R : Type} r : ∀ s g (k k' : string → string → groups → option R),
  (∀ m rest g', k m rest g' = k' m rest g') → run r s g k = run r s g k'.
Proof.
  induction r as [p|r1 IH1 r2 IH2|r IH|p|n r IH|]; intros s g k k' Hk; cbn [run].
  - destruct s as [|c s]; [done|]. by rewrite Hk.
  - apply IH1. intros m1 s1 g1. apply IH2. intros m2 s2 g2. apply Hk.
  - rewrite (IH s g k k' Hk). by rewrite Hk.
  - apply star_cls_ext. intros. apply Hk.
  - apply IH. intros. apply Hk.
  - by rewrite Hk.
Qed.

(** A sequence whose second part is known for every final continuation. *)
Lemma run_Seq_tail r1 r2 (T : string → groups → option (groups * string)) s g k :
  (∀ s1 g1 k1, (∀ m rest g', k1 m rest g' = Some (g', rest)) →
               run r2 s1 g1 k1 = T s1 g1) →
  (∀ m rest g', k m rest g' = Some (g', rest)) →
  run (Seq r1 r2) s g k = run r1 s g (λ _ s1 g1, T s1 g1).
Proof.
  intros H2 Hk. cbn [run]. apply run_ext. intros m1 s1 g1.
  apply H2. intros. apply Hk.
Qed.

Lemma at_end_dot c s : dot c = true → at_end (String c s) = false.
Proof.
  intros H. cbn [at_end]. destruct s; [|done].
  unfold dot, not_char in H. by apply negb_true_iff in H.
Qed.

Lemma run_tail5 s g k :
  (∀ m rest g', k m rest g' = Some (g', rest)) →
  run (Seq (Grp 5 (StarCls dot)) Eos) s g k = tail5 s g.
Proof.
  intros Hk. cbn [run]. rewrite star_cls_greedy.
  - unfold tail5, nl_ok. destruct (at_end _); [apply Hk|done].
  - intros _ m c m' Hm. apply span_class in Hm.
    by rewrite str_app_cons, at_end_dot.
Qed.

(** A note, as the pattern runs it: with the accidental first, and
    without it when the rest fails. *)
Lemma run_note {R : Type} s g (k : string → string → groups → option R) :
  run note_re s g k =
    match s with
    | String c s' =>
        if note_letter c then
          match
            match s' with
            | String a s'' =>
                if accidental a then k (String c (String a EmptyString)) s'' g
                else None
            | EmptyString => None
            end
          with
          | Some x => Some x
          | None => k (String c EmptyString) s' g
          end
        else None
    | EmptyString => None
    end.
Proof.
  destruct s as [|c s']; [done|]. unfold note_re. cbn [run].
  destruct (note_letter c); [|done]. rewrite str_app_nil_r.
  destruct s' as [|a s'']; [done|]. by destruct (accidental a).
Qed.

Lemma run_note_greedy {R : Type} s g (k : string → string → groups → option R) :
  (∀ c a s', accidental a = true →
     k (String c (String a EmptyString)) s' g = None →
     k (String c EmptyString) (String a s') g = None) →
  run note_re s g k =
    match take_note s with
    | Some (n, s') => k n s' g
    | None => None
    end.
Proof.
  intros Hk. rewrite run_note. unfold take_note.
  destruct s as [|c s']; [done|]. destruct (note_letter c); [|done].
  destruct s' as [|a s'']; [done|].
  destruct (accidental a) eqn:Ha; [|done].
  destruct (k (String c (String a EmptyString)) s'' g) eqn:Hgreedy; [done|].
  by apply Hk.
Qed.

Lemma run_tail4 s g k :
  (∀ m rest g', k m rest g' = Some (g', rest)) →
  run (Seq (Opt (Grp 4 note_re)) (Seq (Grp 5 (StarCls dot)) Eos)) s g k
  = tail4 s g.
Proof.
  intros Hk. rewrite (run_Seq_tail _ _ tail5) by (done || apply run_tail5).
  cbn [run]. rewrite run_note_greedy.
  - unfold tail4. destruct (take_note s) as [[n s']|] eqn:Hn; [|done].
    destruct (tail5 s' _) eqn:Hgreedy; [done|].
    apply tail5_None in Hgreedy. apply tail5_None.
    by rewrite (take_note_nl_ok _ _ _ Hn).
  - intros c a s' Ha. rewrite !tail5_None. intros H.
    by rewrite nl_ok_cons_dot by by apply accidental_dot.
Qed.

Lemma run_tail_slash s g k :
  (∀ m rest g', k m rest g' = Some (g', rest)) →
  run (Seq (Opt (Cls (is_char "/")))
      (Seq (Opt (Grp 4 note_re)) (Seq (Grp 5 (StarCls dot)) Eos))) s g k
  = tail_slash s g.
Proof.
  intros Hk. rewrite (run_Seq_tail _ _ tail4) by (done || apply run_tail4).
  cbn [run]. unfold tail_slash. destruct s as [|c s']; [done|].
  destruct (is_char "/" c) eqn:Hc; [|done].
  destruct (tail4 s' g) eqn:Hgreedy; [done|].
  apply tail4_None in Hgreedy. apply tail4_None.
  by rewrite nl_ok_cons_dot by by apply slash_dot.
Qed.

Lemma run_tail3 s g k :
  (∀ m rest g', k m rest g' = Some (g', rest)) →
  run (Seq (Grp 3 (StarCls (not_char "/")))
      (Seq (Opt (Cls (is_char "/")))
      (Seq (Opt (Grp 4 note_re)) (Seq (Grp 5 (StarCls dot)) Eos)))) s g k
  = tail3 s g.
Proof.
  intros Hk. rewrite (run_Seq_tail _ _ tail_slash) by (done || apply run_tail_slash).
  cbn [run]. rewrite star_cls_greedy; [done|].
  intros Hgreedy m c m' _.
  apply tail_slash_None in Hgreedy. apply tail_slash_None.
  destruct (nl_ok (String c m' +:+ _)) eqn:Hnl; [|done].
  apply nl_ok_app in Hnl. congruence.
Qed.

Lemma run_tail2 s g k :
  (∀ m rest g', k m rest g' = Some (g', rest)) →
  run (Seq (Grp 2 note_re)
      (Seq (Grp 3 (StarCls (not_char "/")))
      (Seq (Opt (Cls (is_char "/")))
      (Seq (Opt (Grp 4 note_re)) (Seq (Grp 5 (StarCls dot)) Eos))))) s g k
  = tail2 s g.
Proof.
  intros Hk. rewrite (run_Seq_tail _ _ tail3) by (done || apply run_tail3).
  cbn [run]. rewrite run_note_greedy; [done|].
  intros c a s' Ha. rewrite !tail3_None.
  by rewrite span_cons_true by by apply accidental_not_slash.
Qed.

Lemma paren_not_note c : is_char "(" c = true → note_letter c = false.
Proof. by destruct c as [[] [] [] [] [] [] [] []]. Qed.

(** The chord pattern matches along its greedy path, or not at all. *)
Lemma re_match_chord_re s : re_match_at 5 chord_re s = chord_greedy s.
Proof.
  unfold re_match_at, chord_re.
  rewrite (run_Seq_tail _ _ tail2) by (done || apply run_tail2).
  cbn [run]. unfold chord_greedy. destruct s as [|c s']; [done|].
  destruct (is_char "(" c) eqn:Hc; [|done].
  destruct (tail2 s' _) eqn:Hgreedy; [done|].
  unfold tail2, take_note. by rewrite (paren_not_note c Hc).
Qed.

(** ** The round trip *)


Lemma lower_accidental a : accidental a = true → lower a = a.
Proof. by destruct a as [[] [] [] [] [] [] [] []]. Qed.


Lemma note_letter_not_paren c : note_letter c = true → is_char "(" c = false.
Proof. by destruct c as [[] [] [] [] [] [] [] []]. Qed.

Lemma is_char_eq a c : is_char a c = true → c = a.
Proof. unfold is_char. by intros ?%Ascii.eqb_eq. Qed.

Lemma not_char_false a c : not_char a c = false → c = a.
Proof. unfold not_char. intros ?%negb_false_iff. by apply Ascii.eqb_eq. Qed.

Lemma take_note_shape s n rest :
  take_note s = Some (n, rest) ↔ s = n +:+ rest ∧ note_shape n rest.
Proof.
  unfold take_note, note_shape. split.
  - destruct s as [|c s]; [done|].
    destruct (note_letter c) eqn:Hc; [|done].
    destruct s as [|a s].
    + intros [= <- <-]. split; [done|]. exists c. split; [done|]. by left.
    + destruct (accidental a) eqn:Ha; intros [= <- <-]; (split; [done|]);
        exists c; (split; [done|]); [right; by exists a|by left].
  - intros [-> (c & Hc & [[-> Hrest]|(a & Ha & ->)])].
    + rewrite str_app_cons, str_app_nil_l, Hc. destruct rest as [|a rest]; [done|].
      cbn in Hrest. by rewrite Hrest.
    + rewrite !str_app_cons, str_app_nil_l, Hc. by rewrite Ha.
Qed.




Lemma note_shape_nonempty n rest : note_shape n rest → n ≠ EmptyString.
Proof. by intros (c & Hc & [[-> Hrest]|(a & Ha & ->)]). Qed.

Lemma capitalize_nonempty n : n ≠ EmptyString → capitalize n ≠ EmptyString.
Proof. by destruct n. Qed.

Lemma if_truthy_Some s : s ≠ EmptyString → if_truthy (Some s) = Some s.
Proof. by destruct s. Qed.

(** What a successful match of the chord pattern says about the token. *)
Lemma chord_greedy_inv t g rest :
  chord_greedy t = Some (g, rest) →
  ∃ P n X g4 S5,
    t = P +:+ n +:+ X
    ∧ (P = EmptyString ∨ P = "(")
    ∧ note_shape n X
    ∧ (((span (not_char "/") X).2 = EmptyString ∧ g4 = None ∧ S5 = EmptyString)
       ∨ ∃ S4, (span (not_char "/") X).2 = String "/" S4
               ∧ ((∃ b, S4 = b +:+ S5 ∧ note_shape b S5 ∧ g4 = Some b)
                  ∨ (take_note S4 = None ∧ g4 = None ∧ S5 = S4)))
    ∧ nl_ok S5 = true
    ∧ rest = (span dot S5).2
    ∧ g = [None; if_truthy (Some P); Some n; Some (span (not_char "/") X).1;
           g4; Some (span dot S5).1].
Proof.
  intros Hg.
  assert (∃ P s g1, t = P +:+ s ∧ (P = EmptyString ∨ P = "(")
            ∧ tail2 s (<[1%nat := g1]> (replicate 6 None)) = Some (g, rest)
            ∧ g1 = if_truthy (Some P)) as (P & s & g1 & -> & HP & Htail & ->).
  { unfold chord_greedy in Hg. destruct t as [|c t].
    - exists EmptyString, EmptyString, None. split; [done|]. split; [by left|done].
    - destruct (is_char "(" c) eqn:Hc.
      + apply is_char_eq in Hc as ->.
        exists "(", t, (Some "("). split; [done|]. split; [by right|done].
      + exists EmptyString, (String c t), None.
        split; [done|]. split; [by left|done]. }
  unfold tail2 in Htail.
  destruct (take_note s) as [[n X]|] eqn:Hn; [|done].
  apply take_note_shape in Hn as [-> Hshape].
  unfold tail3, tail_slash in Htail.
  exists P, n, X.
  destruct (span (not_char "/") X) as [M3 S] eqn:Hspan. cbn [fst snd] in *.
  assert (∃ g4 S5, (S = EmptyString ∧ g4 = None ∧ S5 = EmptyString
                   ∨ ∃ S4, S = String "/" S4
                     ∧ ((∃ b, S4 = b +:+ S5 ∧ note_shape b S5 ∧ g4 = Some b)
                        ∨ (take_note S4 = None ∧ g4 = None ∧ S5 = S4)))
            ∧ tail5 S5 (<[4%nat := g4]> (<[3%nat := Some M3]>
                 (<[2%nat := Some n]> (<[1%nat := if_truthy (Some P)]>
                    (replicate 6 None))))) = Some (g, rest))
    as (g4 & S5 & Hcases & Htail5).
  { destruct S as [|c S4].
    - exists None, EmptyString. split; [by left|exact Htail].
    - assert (c = "/"%char) as ->.
      { apply not_char_false. apply (span_stop _ X c S4). by rewrite Hspan. }
      change (is_char "/" "/") with true in Htail. cbn match in Htail.
      unfold tail4 in Htail.
      destruct (take_note S4) as [[b S5]|] eqn:Hb.
      + apply take_note_shape in Hb as [-> Hb].
        exists (Some b), S5. split; [|exact Htail].
        right. eexists. split; [done|]. left. by exists b.
      + exists None, S4. split; [|exact Htail].
        right. exists S4. split; [done|]. by right. }
  exists g4, S5. split; [done|]. split; [done|]. split; [done|].
  split; [done|]. unfold tail5 in Htail5.
  destruct (nl_ok S5); [|done]. injection Htail5 as <- <-.
  split; [done|]. split; [done|]. reflexivity.
Qed.

Lemma append_if_truthy ch m :
  (if str_truthy (if_truthy (Some m))
   then ch +:+ default EmptyString (if_truthy (Some m)) else ch) = ch +:+ m.
Proof.
  destruct m; [|reflexivity].
  change (ch = ch +:+ EmptyString). by rewrite str_app_nil_r.
Qed.

Lemma append_bass ch g4 :
  (if str_truthy (capitalize <$> if_truthy g4)
   then ch +:+ "/" +:+ default EmptyString (capitalize <$> if_truthy g4)
   else ch)
  = ch +:+ match if_truthy g4 with
           | Some b => "/" +:+ capitalize b
           | None => EmptyString
           end.
Proof.
  destruct (if_truthy g4) as [b|] eqn:Hg4.
  - assert (b ≠ EmptyString).
    { destruct g4 as [[|a s']|]; [done| |done]. by injection Hg4 as <-. }
    cbn [fmap option_fmap option_map].
    by rewrite (str_truthy_Some (capitalize b)) by by apply capitalize_nonempty.
  - cbn [fmap option_fmap option_map str_truthy]. by rewrite str_app_nil_r.
Qed.

(** The token text of a chord built from a match. *)
Lemma chord_text P n M3 g4 M5 :
  P = EmptyString ∨ P = "(" →
  Chord_chord (Chord_of_match
    [None; if_truthy (Some P); Some n; Some M3; g4; Some M5])
  = P +:+ capitalize n +:+ M3
      +:+ match if_truthy g4 with
          | Some b => "/" +:+ capitalize b
          | None => EmptyString
          end +:+ M5.
Proof.
  intros HP. unfold Chord_chord, Chord_of_match.
  cbn [opening_brace root triad bass bassrest].
  change (group ?l 1) with (if_truthy (Some P)).
  change (group ?l 2) with (Some n).
  change (group ?l 3) with (Some M3).
  change (group ?l 4) with g4.
  change (group ?l 5) with (Some M5).
  cbn [default from_option id].
  rewrite !append_if_truthy, append_bass.
  assert ((if str_truthy (if_truthy (Some P)) then "(" +:+ capitalize n
           else capitalize n) = P +:+ capitalize n) as ->.
  { by destruct HP as [-> | ->]. }
  by rewrite !str_app_assoc.
Qed.



Lemma span_self p s : span p (span p s).1 = ((span p s).1, EmptyString).
Proof.
  rewrite <- (str_app_nil_r (span p s).1) at 1. apply span_all; [|done].
  intros m1 c m2. apply span_class.
Qed.

Lemma span_before_slash s y :
  span (not_char "/") ((span (not_char "/") s).1 +:+ String "/" y)
  = ((span (not_char "/") s).1, String "/" y).
Proof. apply span_all; [|done]. intros m1 c m2. apply span_class. Qed.

(** Building a match: a token of the shape the pattern takes apart. *)
Lemma chord_greedy_intro P n M3 T g4 M5 :
  P = EmptyString ∨ P = "(" →
  note_shape n (M3 +:+ T) →
  span (not_char "/") (M3 +:+ T) = (M3, T) →
  (T = EmptyString ∧ g4 = None ∧ M5 = EmptyString)
  ∨ (∃ b, T = "/" +:+ b +:+ M5 ∧ note_shape b M5 ∧ g4 = Some b
          ∧ span dot M5 = (M5, EmptyString)) →
  chord_greedy (P +:+ n +:+ M3 +:+ T)
  = Some ([None; if_truthy (Some P); Some n; Some M3; g4; Some M5], EmptyString).
Proof.
  intros HP Hn Hspan HT.
  assert (chord_greedy (P +:+ n +:+ M3 +:+ T)
          = tail2 (n +:+ M3 +:+ T)
              (<[1%nat := if_truthy (Some P)]> (replicate 6 None))) as ->.
  { destruct HP as [-> | ->]; [|done]. rewrite str_app_nil_l.
    destruct Hn as (c & Hc & [[-> _]|(a & _ & ->)]);
      rewrite !str_app_cons; unfold chord_greedy;
      by rewrite (note_letter_not_paren c Hc). }
  unfold tail2.
  rewrite (proj2 (take_note_shape (n +:+ M3 +:+ T) n (M3 +:+ T))) by done.
  unfold tail3. rewrite Hspan. cbn [fst snd].
  destruct HT as [(-> & -> & ->)|(b & -> & Hb & -> & Hdot)].
  - reflexivity.
  - rewrite str_app_cons, str_app_nil_l. unfold tail_slash.
    change (is_char "/" "/") with true. cbn match.
    unfold tail4.
    rewrite (proj2 (take_note_shape (b +:+ M5) b M5)) by done.
    unfold tail5, nl_ok. rewrite Hdot. reflexivity.
Qed.


Lemma contains_app a x y : contains a (x +:+ y) = contains a x || contains a y.
Proof.
  induction x as [|c x IH]; [done|].
  rewrite str_app_cons. cbn [contains]. by rewrite IH, orb_assoc.
Qed.




Lemma Chord_init_greedy t :
  Chord_init t = match chord_greedy t with
                 | Some (g, _) => Ok (Chord_of_match g)
                 | None => Raise ChordError
                 end.
Proof.
  unfold Chord_init, re_match. rewrite re_match_chord_re.
  by destruct (chord_greedy t) as [[g rest]|].
Qed.

Lemma contains_slash_token P n X S4 :
  (span (not_char "/") X).2 = String "/" S4 →
  contains "/" (P +:+ n +:+ X) = true.
Proof.
  intros HS. rewrite <- (span_app (not_char "/") X), HS, !contains_app.
  cbn [contains]. change (Ascii.eqb "/" "/") with true.
  by rewrite !orb_true_r.
Qed.

Lemma chord_greedy_shape t g rest :
  chord_greedy t = Some (g, rest) →
  ∃ P n M3 S g4 S5 M5,
    t = P +:+ n +:+ M3 +:+ S
    ∧ (P = EmptyString ∨ P = "(")
    ∧ note_shape n (M3 +:+ S)
    ∧ span (not_char "/") (M3 +:+ S) = (M3, S)
    ∧ ((S = EmptyString ∧ g4 = None ∧ S5 = EmptyString)
       ∨ ∃ S4, S = String "/" S4
               ∧ ((∃ b, S4 = b +:+ S5 ∧ note_shape b S5 ∧ g4 = Some b)
                  ∨ (take_note S4 = None ∧ g4 = None ∧ S5 = S4)))
    ∧ span dot S5 = (M5, rest)
    ∧ at_end rest = true
    ∧ g = [None; if_truthy (Some P); Some n; Some M3; g4; Some M5].
Proof.
  intros (P & n & X & g4 & S5 & -> & HP & Hn & HS & Hnl & -> & ->)%chord_greedy_inv.
  pose proof (span_app (not_char "/") X) as HX.
  destruct (span (not_char "/") X) as [M3 S] eqn:Hspan. cbn [fst snd] in *.
  subst X. unfold nl_ok in Hnl.
  destruct (span dot S5) as [M5 rest] eqn:Hdot. cbn [fst snd] in *.
  by exists P, n, M3, S, g4, S5, M5.
Qed.

Lemma span_fst_class p s m r :
  span p s = (m, r) → ∀ m1 c m2, m = m1 +:+ String c m2 → p c = true.
Proof. intros Hspan m1 c m2 Hm. apply (span_class p s m1 c m2). by rewrite Hspan. Qed.



Example serialize_abm7sus4 : Chord_chord Ab_m7sus4_over_Gsharp = "Abm7sus4/G#".
Proof. vm_compute. reflexivity. Qed.


Example serialize_C_slash_xyz :
  Chord_init "C/xyz" = Ok C_slash_xyz
  ∧ Chord_chord C_slash_xyz = "Cxyz"
  ∧ Chord_init "Cxyz"
    = Ok {| opening_brace := None; root := "C"; triad := Some "xyz";
            bass := None; bassrest := None; minor := false |}.
Proof. repeat split; vm_compute; reflexivity. Qed.

(** ** The line splitter *)

Lemma run_bracket s :
  re_match_at 1 bracket_re s
  = (λ mr, ([None; Some mr.1], mr.2)) <$> bracket_at s.
Proof.
  unfold re_match_at, bracket_re, bracket_at. cbn [run].
  destruct s as [|c s']; [done|].
  destruct (is_char "[" c); [|done].
  rewrite star_cls_greedy.
  - destruct (span (not_char "]") s').2 as [|a rest] eqn:Hrest; [done|].
    apply span_stop in Hrest. apply not_char_false in Hrest as ->.
    reflexivity.
  - intros _ m a m' Hm. apply span_class in Hm.
    rewrite str_app_cons. unfold not_char in Hm. apply negb_true_iff in Hm.
    unfold is_char. by rewrite Hm.
Qed.

Lemma bracket_at_Some s m rest :
  bracket_at s = Some (m, rest) →
  s = "[" +:+ m +:+ "]" +:+ rest ∧ contains "]" m = false.
Proof.
  unfold bracket_at. destruct s as [|c s']; [done|].
  destruct (is_char "[" c) eqn:Hc; [|done]. apply is_char_eq in Hc as ->.
  pose proof (span_app (not_char "]") s') as Happ.
  destruct (span (not_char "]") s') as [m' r] eqn:Hspan. cbn [fst snd] in *.
  destruct r as [|a r]; [done|]. intros [= -> ->].
  assert (a = "]"%char) as ->.
  { apply not_char_false. apply (span_stop _ s' a rest). by rewrite Hspan. }
  split; [by rewrite <- Happ|].
  assert (∀ m1 c m2, m = m1 +:+ String c m2 → not_char "]" c = true) as Hclass
    by by eapply span_fst_class.
  clear -Hclass. induction m as [|c m IH]; [done|].
  cbn [contains]. rewrite IH.
  - specialize (Hclass EmptyString c m eq_refl).
    unfold not_char in Hclass. apply negb_true_iff in Hclass. by rewrite Hclass.
  - intros m1 a m2 ->. by apply (Hclass (String c m1) a m2).
Qed.

Lemma re_search_bracket s :
  re_search 1 bracket_re s =
    match bracket_at s with
    | Some (m, rest) => Some (EmptyString, [None; Some m], rest)
    | None =>
        match s with
        | String c s' =>
            (λ found, (String c found.1.1, found.1.2, found.2))
              <$> re_search 1 bracket_re s'
        | EmptyString => None
        end
    end.
Proof.
  destruct s as [|c s']; cbn [re_search]; rewrite run_bracket.
  - done.
  - destruct (bracket_at (String c s')) as [[m rest]|]; [done|].
    cbn [fmap option_fmap option_map].
    by destruct (re_search 1 bracket_re s') as [[[pre g] rest]|].
Qed.

(** What the leftmost match says about the line. *)
Lemma re_search_Some s pre g rest :
  re_search 1 bracket_re s = Some (pre, g, rest) →
  ∃ m, g = [None; Some m]
       ∧ s = pre +:+ "[" +:+ m +:+ "]" +:+ rest
       ∧ contains "]" m = false.
Proof.
  revert pre g rest. induction s as [|c s IH]; intros pre g rest;
    rewrite re_search_bracket.
  - done.
  - destruct (bracket_at (String c s)) as [[m r]|] eqn:Hat.
    + intros [= <- <- <-]. exists m. split; [done|].
      by apply bracket_at_Some in Hat.
    + destruct (re_search 1 bracket_re s) as [[[pre' g'] rest']|]; [|done].
      cbn [fmap option_fmap option_map fst snd]. intros [= <- <- <-].
      destruct (IH _ _ _ eq_refl) as (m & -> & Hs & Hm).
      exists m. split; [done|]. split; [|done]. by rewrite str_app_cons, <- Hs.
Qed.

Lemma re_split_fuel_S fuel s :
  re_split_fuel (S fuel) bracket_re s =
    match re_search 1 bracket_re s with
    | Some (pre, g, rest) =>
        pre :: default EmptyString (group g 1)
            :: re_split_fuel fuel bracket_re rest
    | None => [s]
    end.
Proof. reflexivity. Qed.

Lemma re_search_shorter s pre g rest :
  re_search 1 bracket_re s = Some (pre, g, rest) →
  (String.length rest < String.length s)%nat.
Proof.
  intros (m & -> & -> & _)%re_search_Some.
  rewrite !str_length_app. cbn [String.length]. lia.
Qed.

(** The fuel of [re_split] is enough: more fuel changes nothing. *)
Lemma re_split_fuel_enough fuel : ∀ s,
  (String.length s ≤ fuel)%nat →
  re_split_fuel fuel bracket_re s = re_split bracket_re s.
Proof.
  unfold re_split.
  induction fuel as [fuel IH] using lt_wf_ind. intros s Hlen.
  destruct fuel as [|fuel].
  - destruct s; [done|]. cbn [String.length] in Hlen. lia.
  - destruct (String.length s) as [|n] eqn:Hn.
    + destruct s; [done|discriminate].
    + rewrite !re_split_fuel_S.
      destruct (re_search 1 bracket_re s) as [[[pre g] rest]|] eqn:Hfound; [|done].
      apply re_search_shorter in Hfound.
      rewrite (IH fuel) by lia. rewrite (IH n) by lia. done.
Qed.

(** The equation of the splitter. *)
Lemma split_line_eq line :
  split_line line =
    match re_search 1 bracket_re line with
    | Some (pre, g, rest) =>
        pre :: default EmptyString (group g 1) :: split_line rest
    | None => [line]
    end.
Proof.
  unfold split_line.
  rewrite <- (re_split_fuel_enough (S (String.length line))) by lia.
  rewrite re_split_fuel_S.
  destruct (re_search 1 bracket_re line) as [[[pre g] rest]|] eqn:Hfound; [|done].
  apply re_search_shorter in Hfound.
  by rewrite re_split_fuel_enough by lia.
Qed.

(** Induction on a line along its matches. *)
Lemma split_line_ind (Q : string → list string → Prop) :
  (∀ line, re_search 1 bracket_re line = None → Q line [line]) →
  (∀ pre m rest,
     contains "]" m = false →
     re_search 1 bracket_re (pre +:+ "[" +:+ m +:+ "]" +:+ rest)
       = Some (pre, [None; Some m], rest) →
     Q rest (split_line rest) →
     Q (pre +:+ "[" +:+ m +:+ "]" +:+ rest) (pre :: m :: split_line rest)) →
  ∀ line, Q line (split_line line).
Proof.
  intros Hnone Hsome line.
  remember (String.length line) as n eqn:Hn. revert line Hn.
  induction n as [n IH] using lt_wf_ind. intros line ->.
  rewrite split_line_eq.
  destruct (re_search 1 bracket_re line) as [[[pre g] rest]|] eqn:Hfound.
  - pose proof (re_search_shorter _ _ _ _ Hfound) as Hshort.
    destruct (re_search_Some _ _ _ _ Hfound) as (m & -> & -> & Hm).
    apply Hsome; [done|done|]. by eapply IH.
  - by apply Hnone.
Qed.

Lemma span_app_stop p s y a r :
  (span p s).2 = String a r →
  span p (s +:+ y) = ((span p s).1, String a r +:+ y).
Proof.
  induction s as [|c s IH]; [done|]. rewrite str_app_cons. cbn [span].
  destruct (p c); cbn [fst snd].
  - intros H. by rewrite (IH H).
  - by intros <-.
Qed.

Lemma span_app_through p s y :
  (span p s).2 = EmptyString →
  span p (s +:+ y) = ((span p s).1 +:+ (span p y).1, (span p y).2).
Proof.
  induction s as [|c s IH].
  { intros _. change (span p y = ((span p y).1, (span p y).2)).
    by destruct (span p y). }
  rewrite str_app_cons. cbn [span]. destruct (p c); cbn [fst snd]; [|done].
  intros H. by rewrite (IH H).
Qed.

Lemma span_no_stop a y :
  contains a y = false → (span (not_char a) y).2 = EmptyString.
Proof.
  induction y as [|c y IH]; [done|]. cbn [contains span]. unfold not_char.
  intros [-> Hy]%orb_false_elim. cbn [negb snd]. by apply IH.
Qed.

Lemma bracket_at_no_close y : contains "]" y = false → bracket_at y = None.
Proof.
  unfold bracket_at. destruct y as [|c y]; [done|]. cbn [contains].
  intros [_ Hy]%orb_false_elim. rewrite (span_no_stop _ _ Hy).
  by destruct (is_char "[" c).
Qed.

Lemma bracket_at_app_Some s y m rest :
  bracket_at s = Some (m, rest) → bracket_at (s +:+ y) = Some (m, rest +:+ y).
Proof.
  unfold bracket_at. destruct s as [|c s]; [done|]. rewrite str_app_cons.
  destruct (is_char "[" c); [|done].
  destruct (span (not_char "]") s).2 as [|a r] eqn:Hstop; [done|].
  intros [= <- <-]. by rewrite (span_app_stop _ _ y _ _ Hstop).
Qed.

Lemma bracket_at_app_None s y :
  bracket_at s = None → contains "]" y = false → bracket_at (s +:+ y) = None.
Proof.
  intros Hs Hy. destruct s as [|c s]; [by apply bracket_at_no_close|].
  unfold bracket_at in *. rewrite str_app_cons.
  destruct (is_char "[" c); [|done].
  destruct (span (not_char "]") s).2 as [|a r] eqn:Hstop; [|done].
  by rewrite (span_app_through _ _ y Hstop), (span_no_stop _ _ Hy).
Qed.

Lemma re_search_no_close y :
  contains "]" y = false → re_search 1 bracket_re y = None.
Proof.
  induction y as [|c y IH]; [done|]. intros Hy.
  rewrite re_search_bracket, (bracket_at_no_close _ Hy).
  cbn [contains] in Hy. apply orb_false_elim in Hy as [_ Hy].
  by rewrite (IH Hy).
Qed.

Lemma re_search_app_Some s y pre g rest :
  re_search 1 bracket_re s = Some (pre, g, rest) →
  re_search 1 bracket_re (s +:+ y) = Some (pre, g, rest +:+ y).
Proof.
  revert pre g rest. induction s as [|c s IH]; intros pre g rest; [done|].
  rewrite (re_search_bracket (String c s)).
  rewrite (re_search_bracket (String c s +:+ y)).
  destruct (bracket_at (String c s)) as [[m r]|] eqn:Hat.
  - rewrite (bracket_at_app_Some _ y _ _ Hat). by intros [= <- <- <-].
  - destruct (re_search 1 bracket_re s) as [[[pre' g'] rest']|] eqn:Hs; [|done].
    cbn [fmap option_fmap option_map fst snd]. intros [= <- <- <-].
    assert (bracket_at (String c s +:+ y) = None) as ->.
    { unfold bracket_at in *. rewrite str_app_cons.
      destruct (is_char "[" c); [|done].
      destruct (span (not_char "]") s).2 as [|a r] eqn:Hstop; [|done].
      (* a match further on has a closing bracket in [s] *)
      apply re_search_Some in Hs as (m & _ & Heq & _).
      pose proof (span_app (not_char "]") s) as Happ.
      rewrite Hstop, str_app_nil_r in Happ.
      assert (contains "]" s = true) as Hin.
      { rewrite Heq, !contains_app. cbn [contains].
        change (Ascii.eqb "]" "]") with true. by rewrite !orb_true_r. }
      exfalso. rewrite <- Happ in Hin. clear -Hin.
      remember (span (not_char "]") s).1 as u eqn:Hu.
      assert (∀ m1 c m2, u = m1 +:+ String c m2 → not_char "]" c = true) as Hclass
        by (subst u; apply span_class).
      clear Hu. induction u as [|c u IH]; [done|].
      cbn [contains] in Hin.
      specialize (Hclass EmptyString c u eq_refl) as Hc.
      unfold not_char in Hc. apply negb_true_iff in Hc. rewrite Hc in Hin.
      apply IH; [done|]. intros m1 a m2 ->. by apply (Hclass (String c m1) a m2). }
    rewrite str_app_cons. by rewrite (IH _ _ _ eq_refl).
Qed.

Lemma re_search_app_None s y :
  re_search 1 bracket_re s = None → contains "]" y = false →
  re_search 1 bracket_re (s +:+ y) = None.
Proof.
  intros Hs Hy. induction s as [|c s IH]; [by apply re_search_no_close|].
  rewrite re_search_bracket in Hs. rewrite re_search_bracket.
  destruct (bracket_at (String c s)) as [[m r]|] eqn:Hat; [done|].
  rewrite (bracket_at_app_None _ _ Hat Hy), str_app_cons.
  destruct (re_search 1 bracket_re s) as [[[pre g] rest]|]; [done|].
  by rewrite IH.
Qed.

(** Text with no closing bracket, put after a line, adds no segment: it
    is carried at the end of the last text segment. *)
Lemma split_line_app_no_close y :
  contains "]" y = false →
  ∀ line, ∃ segments text,
    split_line line = segments ++ [text]
    ∧ split_line (line +:+ y) = segments ++ [text +:+ y].
Proof.
  intros Hy.
  apply (split_line_ind (λ line segs, ∃ segments text,
           segs = segments ++ [text]
           ∧ split_line (line +:+ y) = segments ++ [text +:+ y])).
  - intros line Hnone. exists [], line. split; [done|].
    by rewrite split_line_eq, (re_search_app_None _ _ Hnone Hy).
  - intros pre m rest Hm Hfound (segments & text & -> & Hrest).
    exists (pre :: m :: segments), text. split; [done|].
    rewrite split_line_eq, (re_search_app_Some _ y _ _ _ Hfound).
    by rewrite Hrest.
Qed.

(** C9 as stated fails on [abc[Em]: the opening bracket that is never
    closed starts no chord segment, and joining the segments gives the
    line with that bracket still in it. *)
Lemma unterminated_bracket_is_text :
  split_line "abc[Em" = ["abc[Em"]
  ∧ odd_items (split_line "abc[Em") = []
  ∧ join (split_line "abc[Em") ≠ remove_brackets "abc[Em".
Proof. repeat split; vm_compute; [reflexivity..|discriminate]. Qed.

(** ** Pass 1: counting *)

Lemma Chord_init_cases chord :
  (∃ c, Chord_init chord = Ok c) ∨ Chord_init chord = Raise ChordError.
Proof.
  unfold Chord_init. destruct (re_match 5 chord_re chord); [left|right]; eauto.
Qed.

Lemma chord_error_None chord : chord_error chord = None ↔ counted chord.
Proof.
  unfold chord_error, counted. split.
  - destruct (Chord_init_cases chord) as [[c Hc]|Hc]; rewrite Hc; [|done].
    destruct (chord_to_offset !! root c) as [o|] eqn:Ho; [|done]. eauto.
  - intros (c & o & -> & ->). done.
Qed.

Lemma first_error_app l1 l2 :
  first_error (l1 ++ l2) =
    match first_error l1 with
    | Some e => Some e
    | None => first_error l2
    end.
Proof.
  induction l1 as [|t l1 IH]; [done|]. cbn [app first_error].
  by destruct (chord_error t).
Qed.

Lemma first_error_Forall l : first_error l = None ↔ Forall counted l.
Proof.
  induction l as [|t l IH]; cbn [first_error]; [by split; [constructor|]|].
  rewrite Forall_cons, <- IH, <- chord_error_None.
  destruct (chord_error t) as [e|]; [|by split; [|intros [_ ?]]].
  split; [done|]. by intros [? _].
Qed.

(** Counting one more chord keeps the 24 counts and lowers none. *)
Lemma histogram_insert count i minor n :
  histogram count → 0 ≤ i < 12 →
  count !! count_key i minor = Some n →
  histogram (<[count_key i minor := n + 1]> count)
  ∧ has_chord (<[count_key i minor := n + 1]> count)
  ∧ ∀ j m, 0 ≤ j < 12 →
      count_at count j m ≤ count_at (<[count_key i minor := n + 1]> count) j m.
Proof.
  intros Hcount Hi Hn.
  assert (0 ≤ n) as Hpos.
  { destruct (Hcount i minor Hi) as (c & Hc & ?). congruence. }
  split; [|split].
  - intros j m Hj. rewrite lookup_insert. case_decide; [exists (n + 1); split; [done|lia]|].
    by apply Hcount.
  - exists i, minor. split; [done|]. unfold count_at.
    rewrite lookup_insert_eq. cbn. lia.
  - intros j m Hj. unfold count_at. rewrite lookup_insert. case_decide as Heq.
    + rewrite <- Heq, Hn. cbn. lia.
    + done.
Qed.

(** A counted token adds one to a count of the current paragraph. *)
Lemma count_chord_counted paragraphs para_index chord :
  counting (paragraphs, para_index) → counted chord →
  ∃ count count',
    paragraphs !! para_index = Some count
    ∧ count_chord (paragraphs, para_index) chord
      = Ok (<[para_index := count']> paragraphs, para_index)
    ∧ histogram count' ∧ has_chord count'
    ∧ ∀ j m, 0 ≤ j < 12 → count_at count j m ≤ count_at count' j m.
Proof.
  intros [Hlen Hall] (c & o & Hc & Ho). cbn [fst snd] in *.
  destruct (lookup_lt_is_Some_2 paragraphs para_index ltac:(lia)) as [count Hcount].
  pose proof (Forall_lookup_1 _ _ _ _ Hall Hcount) as Hhist.
  pose proof (offsets_in_range _ _ Ho) as Hrange.
  destruct (Hhist o (minor c) Hrange) as (n & Hn & _).
  destruct (histogram_insert count o (minor c) n Hhist Hrange Hn) as (H1 & H2 & H3).
  exists count, (<[count_key o (minor c) := n + 1]> count).
  split; [done|]. split; [|done].
  unfold count_chord, nth_or_raise. rewrite Hc, bind_Ok, Hcount, bind_Ok.
  rewrite (dict_get_Some _ _ _ Ho), bind_Ok.
  by rewrite (dict_get_Some _ _ _ Hn), bind_Ok.
Qed.

Lemma count_chord_error paragraphs para_index chord e :
  counting (paragraphs, para_index) → chord_error chord = Some e →
  count_chord (paragraphs, para_index) chord = Raise e.
Proof.
  intros [Hlen Hall] He. cbn [fst snd] in *. unfold chord_error in He.
  unfold count_chord.
  destruct (Chord_init_cases chord) as [[c Hc]|Hc]; rewrite Hc in *.
  - destruct (chord_to_offset !! root c) as [o|] eqn:Ho; [done|].
    injection He as <-. rewrite bind_Ok.
    destruct (lookup_lt_is_Some_2 paragraphs para_index ltac:(lia)) as [count Hcount].
    unfold nth_or_raise. rewrite Hcount, bind_Ok.
    by rewrite (dict_get_None _ _ Ho).
  - by injection He as <-.
Qed.

Lemma counting_insert paragraphs para_index count' :
  counting (paragraphs, para_index) → histogram count' →
  counting (<[para_index := count']> paragraphs, para_index).
Proof.
  intros [Hlen Hall] Hcount'. split; cbn [fst snd] in *.
  - by rewrite length_insert.
  - by apply Forall_insert.
Qed.

Lemma Exists_has_chord_insert (paragraphs : list (gmap string Z)) i count count' :
  paragraphs !! i = Some count →
  (∀ j m, 0 ≤ j < 12 → count_at count j m ≤ count_at count' j m) →
  Exists has_chord paragraphs →
  Exists has_chord (<[i := count']> paragraphs).
Proof.
  intros Hi Hgrow (p & [k Hk]%list_elem_of_lookup & Hp)%Exists_exists.
  rewrite Exists_exists. destruct (decide (k = i)) as [->|Hne].
  - exists count'. split.
    + apply list_elem_of_lookup. exists i.
      apply list_lookup_insert_eq. by eapply lookup_lt_Some.
    + assert (p = count) as -> by congruence.
      destruct Hp as (j & m & Hj & Hone). exists j, m. split; [done|].
      specialize (Hgrow j m Hj). lia.
  - exists p. split; [|done]. apply list_elem_of_lookup. exists k.
    by rewrite list_lookup_insert_ne.
Qed.

(** The chords of one line. *)
Lemma count_chords_of_line chords : ∀ paragraphs para_index,
  counting (paragraphs, para_index) →
  match first_error chords with
  | Some e => foldM count_chord (paragraphs, para_index) chords = Raise e
  | None =>
      ∃ paragraphs',
        foldM count_chord (paragraphs, para_index) chords
          = Ok (paragraphs', para_index)
        ∧ counting (paragraphs', para_index)
        ∧ (chords ≠ [] ∨ Exists has_chord paragraphs →
           Exists has_chord paragraphs')
  end.
Proof.
  induction chords as [|chord chords IH]; intros paragraphs para_index Hst.
  - cbn. exists paragraphs. split; [done|]. split; [done|]. by intros [|].
  - cbn [first_error foldM].
    destruct (chord_error chord) as [e|] eqn:Herr.
    + by rewrite (count_chord_error _ _ _ _ Hst Herr).
    + apply chord_error_None in Herr.
      destruct (count_chord_counted _ _ _ Hst Herr)
        as (count & count' & Hcount & -> & Hhist & Hone & Hgrow).
      rewrite bind_Ok.
      pose proof (counting_insert _ _ _ Hst Hhist) as Hst'.
      specialize (IH _ _ Hst').
      destruct (first_error chords) as [e|]; [done|].
      destruct IH as (paragraphs' & -> & Hst'' & Hex).
      exists paragraphs'. split; [done|]. split; [done|].
      intros _. apply Hex. right.
      rewrite Exists_exists. exists count'. split; [|done].
      apply list_elem_of_lookup. exists para_index.
      apply list_lookup_insert_eq. by eapply lookup_lt_Some.
Qed.

Lemma blank_lines_cons line text :
  blank_lines (line :: text)
  = ((if blank_line line then 1 else 0) + blank_lines text)%nat.
Proof.
  unfold blank_lines. rewrite filter_cons.
  destruct (blank_line line); by case_decide.
Qed.

Lemma document_chords_cons line text :
  document_chords (line :: text)
  = odd_items (split_line line) ++ document_chords text.
Proof. reflexivity. Qed.

Lemma count_line_eq paragraphs para_index line :
  count_line (paragraphs, para_index) line
  = foldM count_chord
      (if blank_line line then (paragraphs ++ [zero_counts], S para_index)
       else (paragraphs, para_index))
      (odd_items (split_line line)).
Proof. reflexivity. Qed.

(** Pass 1 on a whole document: it raises the error of the first token
    that has one; otherwise it returns one histogram per paragraph. *)
Lemma count_lines text : ∀ paragraphs para_index,
  counting (paragraphs, para_index) →
  match first_error (document_chords text) with
  | Some e => foldM count_line (paragraphs, para_index) text = Raise e
  | None =>
      ∃ paragraphs',
        foldM count_line (paragraphs, para_index) text
          = Ok (paragraphs', (para_index + blank_lines text)%nat)
        ∧ counting (paragraphs', (para_index + blank_lines text)%nat)
        ∧ (document_chords text ≠ [] ∨ Exists has_chord paragraphs →
           Exists has_chord paragraphs')
  end.
Proof.
  induction text as [|line text IH]; intros paragraphs para_index Hst.
  - cbn. rewrite Nat.add_0_r. exists paragraphs. split; [done|]. split; [done|].
    by intros [|].
  - rewrite document_chords_cons, first_error_app, blank_lines_cons.
    cbn [foldM]. rewrite count_line_eq.
    set (st' := if blank_line line
                then (paragraphs ++ [zero_counts], S para_index)
                else (paragraphs, para_index)).
    assert (counting st' ∧ st'.2 = ((if blank_line line then 1 else 0) + para_index)%nat
            ∧ (Exists has_chord paragraphs → Exists has_chord st'.1)) as (Hst' & Hix & Hex').
    { unfold st'. destruct (blank_line line); [|done].
      destruct Hst as [Hlen Hall]. cbn [fst snd] in *.
      split; [split|split]; cbn [fst snd].
      - rewrite length_app. cbn [length]. lia.
      - apply Forall_app. split; [done|]. constructor; [|done].
        apply zero_counts_histogram.
      - done.
      - intros H. apply Exists_app. by left. }
    destruct st' as [ps ix]. cbn [fst snd] in *. subst ix.
    pose proof (count_chords_of_line (odd_items (split_line line)) _ _ Hst') as Hline.
    destruct (first_error (odd_items (split_line line))) as [e|].
    + by rewrite Hline.
    + destruct Hline as (ps' & -> & Hst'' & Hex''). rewrite bind_Ok.
      specialize (IH _ _ Hst'').
      destruct (first_error (document_chords text)) as [e|]; [done|].
      destruct IH as (ps'' & Hrun & Hst''' & Hex''').
      replace (para_index + ((if blank_line line then 1 else 0) + blank_lines text))%nat
        with ((if blank_line line then 1 else 0) + para_index + blank_lines text)%nat
        by lia.
      exists ps''. split; [done|]. split; [done|].
      intros Hsome. apply Hex'''.
      destruct (odd_items (split_line line)) as [|c cs] eqn:Hcs.
      * destruct Hsome as [Hne|Hex]; [by left|]. right. apply Hex''. right. by apply Hex'.
      * right. apply Hex''. by left.
Qed.

Lemma counting_start : counting ([zero_counts], O).
Proof. split; [done|]. constructor; [apply zero_counts_histogram|done]. Qed.

Lemma count_chords_spec text :
  match first_error (document_chords text) with
  | Some e => count_chords text = Raise e
  | None =>
      ∃ counts,
        count_chords text = Ok counts
        ∧ length counts = S (blank_lines text)
        ∧ Forall histogram counts
        ∧ (document_chords text ≠ [] → Exists has_chord counts)
  end.
Proof.
  unfold count_chords.
  pose proof (count_lines text _ _ counting_start) as H.
  destruct (first_error (document_chords text)) as [e|]; [by rewrite H|].
  destruct H as (counts & -> & [Hlen Hall] & Hex). cbn [fst snd] in *.
  exists counts. split; [done|]. split; [done|]. split; [done|].
  intros Hne. apply Hex. by left.
Qed.

Lemma document_chords_nil text :
  document_chords text = [] ↔
  Forall (λ line, odd_items (split_line line) = []) text.
Proof.
  induction text as [|line text IH]; [by split; [constructor|]|].
  rewrite document_chords_cons, Forall_cons, <- IH. split.
  - by intros [-> ->]%app_eq_nil.
  - by intros [-> ->].
Qed.

(** Pass 1 on a document without chord tokens: one zeroed histogram per
    paragraph. *)
Lemma count_lines_no_chords text : ∀ paragraphs para_index,
  document_chords text = [] →
  foldM count_line (paragraphs, para_index) text
  = Ok (paragraphs ++ replicate (blank_lines text) zero_counts,
        (para_index + blank_lines text)%nat).
Proof.
  induction text as [|line text IH]; intros paragraphs para_index Hnone.
  - cbn. by rewrite app_nil_r, Nat.add_0_r.
  - rewrite document_chords_cons in Hnone.
    apply app_eq_nil in Hnone as [Hline Htext].
    cbn [foldM]. rewrite count_line_eq, Hline, blank_lines_cons. cbn [foldM].
    rewrite bind_Ok. destruct (blank_line line).
    + rewrite IH by done. cbn [replicate Nat.add].
      rewrite <- app_assoc. cbn [app]. do 2 f_equal. lia.
    + by rewrite IH.
Qed.

Lemma count_chords_no_chords text :
  document_chords text = [] →
  count_chords text = Ok (replicate (S (blank_lines text)) zero_counts).
Proof.
  intros Hnone. unfold count_chords.
  by rewrite count_lines_no_chords.
Qed.

(** ** The estimate of each paragraph *)

Lemma estimate_zero_counts : estimate_key zero_counts = Ok (0, 0).
Proof. vm_compute. reflexivity. Qed.

Lemma estimate_keys_empty n :
  estimate_keys (replicate n zero_counts) = Ok (replicate n empty_paragraph).
Proof.
  induction n as [|n IH]; [done|]. cbn [replicate estimate_keys].
  unfold estimate_paragraph. rewrite estimate_zero_counts, bind_Ok, bind_Ok.
  by rewrite IH.
Qed.

Lemma sumZ_nonneg_on (f : Z → Z) l :
  (∀ j, j ∈ l → 0 ≤ f j) → 0 ≤ sumZ f l.
Proof.
  induction l as [|a l IH]; intros Hpos; [done|].
  cbn [sumZ foldr]. fold (sumZ f l).
  assert (0 ≤ f a) by (apply Hpos, elem_of_cons; by left).
  assert (0 ≤ sumZ f l).
  { apply IH. intros j Hj. apply Hpos, elem_of_cons. by right. }
  lia.
Qed.

Lemma sumZ_term_le (f : Z → Z) l i :
  (∀ j, j ∈ l → 0 ≤ f j) → i ∈ l → f i ≤ sumZ f l.
Proof.
  induction l as [|a l IH]; intros Hpos Hin; [by apply elem_of_nil in Hin|].
  cbn [sumZ foldr]. fold (sumZ f l).
  assert (0 ≤ f a) by (apply Hpos, elem_of_cons; by left).
  assert (∀ j, j ∈ l → 0 ≤ f j) as Hpos'.
  { intros j Hj. apply Hpos, elem_of_cons. by right. }
  pose proof (sumZ_nonneg_on f l Hpos').
  apply elem_of_cons in Hin as [->|Hin]; [lia|].
  specialize (IH Hpos' Hin). lia.
Qed.

(** A counted chord gives some candidate a positive total. *)
Lemma has_chord_total count :
  histogram count → has_chord count →
  ∃ k, 0 ≤ k < 12 ∧ 0 < weighted_total count k.
Proof.
  intros Hcount (i & minor & Hi & Hone).
  exists (if minor then (i - 9) `mod` 12 else i).
  split; [destruct minor; [apply Z.mod_pos_bound|]; lia|].
  unfold weighted_total.
  eapply Z.lt_le_trans; [|apply (sumZ_term_le _ range12 i)].
  - unfold weighted_term.
    pose proof (count_nonneg count Hcount i true Hi).
    pose proof (count_nonneg count Hcount i false Hi).
    destruct minor.
    + assert (multiplier ((i - (i - 9) `mod` 12) `mod` 12) true = 2) as ->
        by (each_offset i Hi; by vm_compute).
      assert (0 ≤ multiplier ((i - (i - 9) `mod` 12) `mod` 12) false)
        by (apply multiplier_nonneg, Z.mod_pos_bound; lia).
      nia.
    + assert (multiplier ((i - i) `mod` 12) false = 2) as ->
        by (each_offset i Hi; by vm_compute).
      assert (0 ≤ multiplier ((i - i) `mod` 12) true)
        by (apply multiplier_nonneg, Z.mod_pos_bound; lia).
      nia.
  - intros j Hj. apply weighted_term_nonneg; [done|].
    unfold range12 in Hj. apply elem_of_seqZ in Hj. lia.
  - unfold range12. apply elem_of_seqZ. lia.
Qed.

(** The estimate of a histogram: the score is positive exactly when a
    chord was counted, and the offset is 0 when the score is 0. *)
Lemma estimate_paragraph_spec count :
  histogram count →
  ∃ p, estimate_paragraph count = Ok p
       ∧ chord_count p = count
       ∧ 0 ≤ val p ∧ 0 ≤ key p < 12
       ∧ (val p = 0 → key p = 0)
       ∧ (has_chord count → 0 < val p).
Proof.
  intros Hcount.
  destruct (estimate_key_best count Hcount)
    as (v & k & Hrun & Hk & Hv & Hmax & Hfirst).
  unfold estimate_paragraph. rewrite Hrun, bind_Ok. eexists. split; [done|].
  cbn [chord_count val key fst snd].
  pose proof (weighted_total_nonneg count Hcount 0) as H0.
  pose proof (weighted_total_nonneg count Hcount k) as Hk0.
  split; [done|]. split; [lia|]. split; [done|]. split.
  - intros Hzero. destruct (decide (k = 0)) as [|Hne]; [done|].
    specialize (Hfirst 0 ltac:(lia)). lia.
  - intros Hsome. destruct (has_chord_total count Hcount Hsome) as (k' & Hk' & Hpos).
    specialize (Hmax k' Hk'). lia.
Qed.

Lemma estimate_keys_spec counts :
  Forall histogram counts →
  ∃ ps, estimate_keys counts = Ok ps
        ∧ length ps = length counts
        ∧ Forall (λ p, 0 ≤ val p ∧ 0 ≤ key p < 12 ∧ (val p = 0 → key p = 0)) ps
        ∧ (Exists has_chord counts → Exists (λ p, 0 < val p) ps).
Proof.
  induction 1 as [|count counts Hcount _ (ps & Hps & Hlen & Hall & Hex)].
  - exists []. repeat split; [done|by intros ?%Exists_nil].
  - destruct (estimate_paragraph_spec count Hcount)
      as (p & Hp & _ & Hv & Hk & Hzero & Hsome).
    exists (p :: ps). cbn [estimate_keys]. rewrite Hp, bind_Ok, Hps, bind_Ok.
    split; [done|]. split; [cbn; by rewrite Hlen|]. split; [by constructor|].
    intros [?|?]%Exists_cons; [left|right]; auto.
Qed.

(** ** Pass 2 *)

Lemma find_shift_no_signal transpose ps shift first_key :
  Forall (λ p, val p = 0 ∧ key p = 0) ps →
  find_shift transpose ps shift first_key = Ok (shift, first_key).
Proof.
  induction 1 as [|p ps [Hv Hk] _ IH]; [done|].
  cbn [find_shift]. by rewrite Hv, Hk.
Qed.

Lemma find_shift_unknown transpose ps shift first_key :
  chord_to_offset !! transpose = None →
  Exists (λ p, 0 < val p) ps →
  find_shift transpose ps shift first_key = Raise KeyError.
Proof.
  intros Hunknown Hex. revert first_key.
  induction ps as [|p ps IH]; intros first_key; [by apply Exists_nil in Hex|].
  cbn [find_shift]. destruct (Z.ltb_spec 0 (val p)) as [Hpos|Hzero].
  - by rewrite (dict_get_None _ _ Hunknown).
  - apply Exists_cons in Hex as [?|Hex]; [lia|]. by apply IH.
Qed.

Lemma py_in_key_norm transpose :
  py_in (PyStr transpose) key_norm
  = String.eqb transpose "b" || String.eqb transpose "#".
Proof.
  unfold py_in, key_norm. cbn [existsb py_eq].
  destruct (String.eqb transpose "b"), (String.eqb transpose "#"); reflexivity.
Qed.

Lemma py_in_int_key_norm n : py_in (PyInt n) key_norm = false.
Proof. reflexivity. Qed.

Lemma known_target_not_accidental transpose o :
  chord_to_offset !! transpose = Some o →
  py_in (PyStr transpose) key_norm = false.
Proof.
  intros Ho. rewrite py_in_key_norm.
  destruct (String.eqb_spec transpose "b") as [->|_];
    [by vm_compute in Ho|].
  destruct (String.eqb_spec transpose "#") as [->|_];
    [by vm_compute in Ho|done].
Qed.

(** The first accidental preference, for each kind of target name. *)
Lemma initial_norm_known transpose o :
  chord_to_offset !! transpose = Some o →
  ∃ n, initial_norm transpose = Ok (Some n)
       ∧ key_norm !! Z.to_nat o = Some n.
Proof.
  intros Ho. unfold initial_norm.
  rewrite (known_target_not_accidental _ _ Ho), Ho.
  pose proof (offsets_in_range _ _ Ho) as Hrange.
  each_offset o Hrange; eexists; split; reflexivity.
Qed.

Lemma initial_norm_unknown transpose :
  chord_to_offset !! transpose = None →
  py_in (PyStr transpose) key_norm = false →
  initial_norm transpose = Ok None.
Proof. unfold initial_norm. by intros -> ->. Qed.

Lemma initial_norm_accidental transpose :
  py_in (PyStr transpose) key_norm = true →
  initial_norm transpose = Raise TypeError.
Proof. unfold initial_norm. by intros ->. Qed.

Lemma analyse_eq text transpose :
  analyse text transpose =
    (counts ← count_chords text;
     ps ← estimate_keys counts;
     sf ← find_shift transpose ps (-1) PyNone;
     n ← initial_norm transpose;
     Ok {| paragraphs := ps; shift := sf.1; first_key := sf.2; norm := n |}).
Proof. reflexivity. Qed.

Lemma parse_file_transpose_eq fuel text transpose :
  parse_file_transpose fuel text transpose =
    (a ← analyse text transpose;
     r ← rewrite fuel a text;
     Ok (transposed_text r)).
Proof. reflexivity. Qed.

(** Passes 1 and 2 on a document without chord tokens. *)
Lemma analyse_no_chords text transpose :
  document_chords text = [] →
  analyse text transpose =
    (n ← initial_norm transpose;
     Ok {| paragraphs := replicate (S (blank_lines text)) empty_paragraph;
           shift := -1; first_key := PyNone; norm := n |}).
Proof.
  intros Hnone. rewrite analyse_eq, (count_chords_no_chords _ Hnone), bind_Ok.
  rewrite estimate_keys_empty, bind_Ok.
  rewrite find_shift_no_signal, bind_Ok; [done|].
  by apply Forall_replicate.
Qed.

(** Passes 1 and 2 raise the error of the first chord token that has one. *)
Lemma analyse_first_error text transpose e :
  first_error (document_chords text) = Some e →
  analyse text transpose = Raise e.
Proof.
  intros He. pose proof (count_chords_spec text) as H. rewrite He in H.
  by rewrite analyse_eq, H.
Qed.

(** ** Pass 3 *)

Lemma split_line_no_chords line :
  odd_items (split_line line) = [] → split_line line = [line].
Proof.
  rewrite split_line_eq.
  by destruct (re_search 1 bracket_re line) as [[[pre g] rest]|].
Qed.

(** The key-change test never touches the accidental preference, and an
    estimated offset of 0 changes nothing at all. *)
Lemma key_change_norm pkey first_key norm :
  ∃ first_key', key_change pkey first_key norm = Ok (first_key', norm).
Proof.
  unfold key_change. rewrite py_in_int_key_norm.
  destruct (truthy (PyInt pkey) && negb (py_eq (PyInt pkey) first_key)); eauto.
Qed.

Lemma key_change_zero first_key norm :
  key_change 0 first_key norm = Ok (first_key, norm).
Proof. reflexivity. Qed.

Lemma rewrite_line_no_chords fuel n shift st line :
  odd_items (split_line line) = [] →
  (para_index st < n)%nat →
  rewrite_line fuel (replicate n empty_paragraph) shift st line
  = Ok {| para_index := if blank_line line then S (para_index st)
                        else para_index st;
          active_key := active_key st;
          active_norm := active_norm st;
          transposed_text := transposed_text st ++ [line] |}.
Proof.
  intros Hnone Hlt. unfold rewrite_line, nth_or_raise.
  rewrite lookup_replicate_2 by done. rewrite bind_Ok.
  change (key empty_paragraph) with 0. rewrite key_change_zero, bind_Ok.
  cbn [fst snd]. rewrite Hnone, (split_line_no_chords _ Hnone).
  cbn [foldM]. by rewrite bind_Ok.
Qed.

Lemma rewrite_lines_no_chords fuel n shift lines : ∀ st,
  Forall (λ line, odd_items (split_line line) = []) lines →
  (para_index st + blank_lines lines < n)%nat →
  foldM (rewrite_line fuel (replicate n empty_paragraph) shift) st lines
  = Ok {| para_index := (para_index st + blank_lines lines)%nat;
          active_key := active_key st;
          active_norm := active_norm st;
          transposed_text := transposed_text st ++ lines |}.
Proof.
  induction lines as [|line lines IH]; intros st Hnone Hlt.
  - cbn [foldM]. rewrite app_nil_r. unfold blank_lines. cbn.
    rewrite Nat.add_0_r. by destruct st.
  - apply Forall_cons in Hnone as [Hline Hnone].
    revert Hlt. rewrite blank_lines_cons. cbn [foldM].
    destruct (blank_line line) eqn:Hb; intros Hlt;
      (rewrite rewrite_line_no_chords by (done || lia));
      rewrite bind_Ok, Hb;
      (rewrite IH by (done || (cbn [para_index]; lia)));
      cbn [para_index active_key active_norm transposed_text];
      rewrite <- app_assoc; cbn [app];
      match goal with
      | |- Ok (mkRewriter ?x _ _ _) = Ok (mkRewriter ?y _ _ _) =>
          replace x with y by lia
      end; reflexivity.
Qed.

(** A document without chord tokens comes out of the transposer as it
    went in, whenever the target name passes the accidental lookup. *)
Lemma parse_file_no_chords fuel text transpose n :
  document_chords text = [] →
  initial_norm transpose = Ok n →
  parse_file_transpose fuel text transpose = Ok text.
Proof.
  intros Hnone Hnorm.
  rewrite parse_file_transpose_eq, (analyse_no_chords _ _ Hnone), Hnorm.
  rewrite !bind_Ok. unfold rewrite. cbn [paragraphs shift first_key norm].
  rewrite rewrite_lines_no_chords.
  - by rewrite bind_Ok.
  - by apply document_chords_nil.
  - cbn [para_index]. lia.
Qed.

(** ** The document transposer *)

(** C7.  When the document holds no chord token (and the target key is a
    name of the offset table), every paragraph gets offset 0 with score
    0, the shift keeps its initial value -1 and is never used, and the
    rewrite pass returns, for any fuel, the document as it was. *)
Theorem no_chords_no_transposition (fuel : nat) (text : list string)
    (transpose : string) (o : Z) :
  document_chords text = [] →
  chord_to_offset !! transpose = Some o →
  (∃ a, analyse text transpose = Ok a
        ∧ length (paragraphs a) = S (blank_lines text)
        ∧ Forall (λ p, key p = 0 ∧ val p = 0) (paragraphs a)
        ∧ shift a = -1 ∧ first_key a = PyNone)
  ∧ parse_file_transpose fuel text transpose = Ok text.
Proof.
  intros Hnone Ho. destruct (initial_norm_known _ _ Ho) as (n & Hn & _).
  split.
  - rewrite (analyse_no_chords _ _ Hnone), Hn, bind_Ok. eexists. split; [done|].
    cbn [paragraphs shift first_key]. split; [by rewrite length_replicate|].
    split; [|done]. by apply Forall_replicate.
  - by eapply parse_file_no_chords.
Qed.

Lemma no_chords_no_transposition_witness :
  (∃ a, analyse plain_text "D" = Ok a
        ∧ length (paragraphs a) = S (blank_lines plain_text)
        ∧ Forall (λ p, key p = 0 ∧ val p = 0) (paragraphs a)
        ∧ shift a = -1 ∧ first_key a = PyNone)
  ∧ parse_file_transpose 0 plain_text "D" = Ok plain_text.
Proof.
  apply (no_chords_no_transposition 0 plain_text "D" 2).
  - vm_compute. reflexivity.
  - vm_compute. reflexivity.
Defined.

Lemma chord_error_cases chord e :
  chord_error chord = Some e → e = ChordError ∨ e = KeyError.
Proof.
  unfold chord_error.
  destruct (Chord_init_cases chord) as [[c ->]| ->].
  - destruct (chord_to_offset !! root c); [done|]. intros [= <-]. by right.
  - intros [= <-]. by left.
Qed.

Lemma chord_error_unparsed chord :
  Chord_init chord = Raise ChordError → chord_error chord = Some ChordError.
Proof. unfold chord_error. by intros ->. Qed.

(** C3: what the code does.  The key-change test leaves the accidental
    preference as it is, whatever the offsets, because an integer is
    never an element of the list of accidentals; and an estimated offset
    of 0 is never adopted.  On [key_change_text] with target [F] the
    second paragraph has offset 2, whose preference is the sharp, and the
    chord [A#] still comes out as [Eb]; on [to_C_text] the second
    paragraph has offset 0 with score 2 and the active key stays 2. *)
Theorem key_change_keeps_norm :
  (∀ pkey first_key norm,
     ∃ first_key', key_change pkey first_key norm = Ok (first_key', norm))
  ∧ (∀ first_key norm, key_change 0 first_key norm = Ok (first_key, norm))
  ∧ analysis_summary <$> analyse key_change_text "F"
    = Ok ([(0, 2); (2, 4)], 5, PyNone, Some "b")
  ∧ key_norm !! 2%nat = Some "#"
  ∧ (a ← analyse key_change_text "F";
     rewriter_summary <$> rewrite 12 a key_change_text)
    = Ok (PyInt 2, Some "b",
          ["[F]a" +:+ newline; newline; "[G][G][Eb]" +:+ newline])
  ∧ analysis_summary <$> analyse to_C_text "D"
    = Ok ([(2, 2); (0, 2)], 0, PyInt 2, Some "#")
  ∧ (a ← analyse to_C_text "D";
     rewriter_summary <$> rewrite 12 a to_C_text)
    = Ok (PyInt 2, Some "#",
          ["[D]a" +:+ newline; newline; "[C]b" +:+ newline]).
Proof.
  split; [exact key_change_norm|]. split; [exact key_change_zero|].
  repeat split; vm_compute; reflexivity.
Qed.

(** * Further properties *)

(** ** [Chord.normalise] *)

(** Both accidental maps send a spelling to another spelling of the same
    pitch class, which is non-empty and is not itself a key of the map. *)
Lemma flat_map_entries :
  map_Forall (λ s v,
    bool_decide (map_accidental_flat !! v = None)
    && bool_decide (chord_to_offset !! v = chord_to_offset !! s)
    && bool_decide (is_Some (chord_to_offset !! s))
    && negb (String.eqb v EmptyString) = true) map_accidental_flat.
Proof. apply (bool_decide_unpack _). vm_compute. exact I. Qed.

Lemma sharp_map_entries :
  map_Forall (λ s v,
    bool_decide (map_accidental_sharp !! v = None)
    && bool_decide (chord_to_offset !! v = chord_to_offset !! s)
    && bool_decide (is_Some (chord_to_offset !! s))
    && negb (String.eqb v EmptyString) = true) map_accidental_sharp.
Proof. apply (bool_decide_unpack _). vm_compute. exact I. Qed.

(** The map [Chord.normalise] chooses. *)
Lemma accidental_map_entry accidental s v :
  (if String.eqb accidental "b" then map_accidental_flat
   else map_accidental_sharp) !! s = Some v →
  (if String.eqb accidental "b" then map_accidental_flat
   else map_accidental_sharp) !! v = None
  ∧ chord_to_offset !! v = chord_to_offset !! s
  ∧ is_Some (chord_to_offset !! s)
  ∧ v ≠ EmptyString.
Proof.
  intros Hs.
  assert (bool_decide ((if String.eqb accidental "b" then map_accidental_flat
                        else map_accidental_sharp) !! v = None)
          && bool_decide (chord_to_offset !! v = chord_to_offset !! s)
          && bool_decide (is_Some (chord_to_offset !! s))
          && negb (String.eqb v EmptyString) = true) as H.
  { destruct (String.eqb accidental "b").
    - exact (flat_map_entries s v Hs).
    - exact (sharp_map_entries s v Hs). }
  repeat (apply andb_prop in H as [H ?]).
  repeat match goal with
         | Hb : bool_decide _ = true |- _ => apply bool_decide_eq_true in Hb
         end.
  split; [done|]. split; [done|]. split; [done|].
  intros ->. done.
Qed.

Lemma empty_in_no_map accidental :
  (if String.eqb accidental "b" then map_accidental_flat
   else map_accidental_sharp) !! EmptyString = None.
Proof. destruct (String.eqb accidental "b"); vm_compute; reflexivity. Qed.

(** What [Chord.normalise] does to root and bass, the map being [m]. *)
Lemma Chord_normalise_fields accidental c :
  let m := if String.eqb accidental "b" then map_accidental_flat
           else map_accidental_sharp in
  root (Chord_normalise accidental c) = default (root c) (m !! root c)
  ∧ bass (Chord_normalise accidental c)
    = match bass c with
      | Some b => Some (default b (m !! b))
      | None => None
      end
  ∧ opening_brace (Chord_normalise accidental c) = opening_brace c
  ∧ triad (Chord_normalise accidental c) = triad c
  ∧ bassrest (Chord_normalise accidental c) = bassrest c
  ∧ minor (Chord_normalise accidental c) = minor c.
Proof.
  intros m. unfold Chord_normalise. fold m.
  cbn [root bass opening_brace triad bassrest minor].
  split; [by destruct (m !! root c)|]. split; [|done].
  destruct (bass c) as [[|ch b]|]; [| |done].
  - cbn [str_truthy String.eqb negb]. subst m.
    by rewrite empty_in_no_map.
  - change (str_truthy (Some (String ch b))) with true.
    cbn [default from_option id]. by destruct (m !! String ch b).
Qed.

Lemma Chord_eq c1 c2 :
  opening_brace c1 = opening_brace c2 → root c1 = root c2 →
  triad c1 = triad c2 → bass c1 = bass c2 →
  bassrest c1 = bassrest c2 → minor c1 = minor c2 → c1 = c2.
Proof. destruct c1, c2. cbn. by intros -> -> -> -> -> ->. Qed.

(** X1: [Chord.normalise] twice with the same argument is [Chord.normalise]
    once. *)
Theorem Chord_normalise_idempotent (accidental : string) (c : Chord) :
  Chord_normalise accidental (Chord_normalise accidental c)
  = Chord_normalise accidental c.
Proof.
  destruct (Chord_normalise_fields accidental c) as (Hr & Hb & H1 & H2 & H3 & H4).
  destruct (Chord_normalise_fields accidental (Chord_normalise accidental c))
    as (Hr' & Hb' & H1' & H2' & H3' & H4').
  cbv zeta in *.
  set (m := if String.eqb accidental "b" then map_accidental_flat
            else map_accidental_sharp) in *.
  assert (∀ s, m !! default s (m !! s) = None) as Hfix.
  { intros s. destruct (m !! s) as [v|] eqn:Hs; [|done].
    by destruct (accidental_map_entry accidental s v Hs) as (? & _). }
  apply Chord_eq; [done| |done| |done|done].
  - by rewrite Hr', Hr, Hfix.
  - rewrite Hb', Hb. destruct (bass c) as [b|]; [|done]. by rewrite Hfix.
Qed.

(** X2: [Chord.normalise] changes spellings only: the pitch classes of
    root and bass, and every other attribute, stay as they are. *)
Theorem Chord_normalise_keeps_classes (accidental : string) (c : Chord) :
  pitch_classes (Chord_normalise accidental c) = pitch_classes c
  ∧ opening_brace (Chord_normalise accidental c) = opening_brace c
  ∧ triad (Chord_normalise accidental c) = triad c
  ∧ bassrest (Chord_normalise accidental c) = bassrest c
  ∧ minor (Chord_normalise accidental c) = minor c.
Proof.
  destruct (Chord_normalise_fields accidental c) as (Hr & Hb & H1 & H2 & H3 & H4).
  cbv zeta in *.
  set (m := if String.eqb accidental "b" then map_accidental_flat
            else map_accidental_sharp) in *.
  split; [|done].
  assert (∀ s, chord_to_offset !! default s (m !! s) = chord_to_offset !! s) as Hsame.
  { intros s. destruct (m !! s) as [v|] eqn:Hs; [|done].
    by destruct (accidental_map_entry accidental s v Hs) as (_ & ? & _). }
  unfold pitch_classes. rewrite Hr, Hb, Hsame.
  destruct (bass c) as [b|]; [|done]. by rewrite Hsame.
Qed.

(** X3: after [Chord.normalise] with [b], neither root nor bass is a key
    of the flat map (C#, D#, F#, G#, A#); after it with any other
    argument, neither is a key of the sharp map (Db, Eb, Gb, Ab, Bb). *)
Theorem Chord_normalise_spelling (accidental : string) (c : Chord) :
  let m := if String.eqb accidental "b" then map_accidental_flat
           else map_accidental_sharp in
  m !! root (Chord_normalise accidental c) = None
  ∧ ∀ b, bass (Chord_normalise accidental c) = Some b → m !! b = None.
Proof.
  intros m.
  destruct (Chord_normalise_fields accidental c) as (Hr & Hb & _).
  cbv zeta in *. fold m in Hr, Hb.
  assert (∀ s, m !! default s (m !! s) = None) as Hfix.
  { intros s. destruct (m !! s) as [v|] eqn:Hs; [|done].
    by destruct (accidental_map_entry accidental s v Hs) as (? & _). }
  split; [by rewrite Hr|].
  intros b. rewrite Hb. destruct (bass c) as [b0|]; [|done].
  intros [= <-]. apply Hfix.
Qed.

(** ** [Chord.transpose] *)

Lemma transpose_step_fields c c' :
  transpose_step c = Ok c' →
  (∃ s, map_transpose_semitone !! s = Some (root c'))
  ∧ (∀ b, bass c' = Some b →
       b = EmptyString ∨ ∃ s, map_transpose_semitone !! s = Some b)
  ∧ opening_brace c' = opening_brace c ∧ triad c' = triad c
  ∧ bassrest c' = bassrest c ∧ minor c' = minor c.
Proof.
  unfold transpose_step. intros Hstep.
  destruct (dict_get map_transpose_semitone (root c)) as [r| |] eqn:Hr; [|done..].
  rewrite bind_Ok in Hstep. apply dict_get_Ok in Hr.
  destruct (bass c) as [[|ch b]|] eqn:Hb.
  - cbn in Hstep. injection Hstep as <-. cbn. split; [by eexists|].
    split; [|done]. intros b' [= <-]. by left.
  - change (str_truthy (Some (String ch b))) with true in Hstep.
    cbn [default from_option id] in Hstep.
    destruct (dict_get map_transpose_semitone (String ch b)) as [b'| |] eqn:Hb';
      [|done..].
    apply dict_get_Ok in Hb'. cbn in Hstep. injection Hstep as <-. cbn.
    split; [by eexists|]. split; [|done]. intros b'' [= <-]. right. by eexists.
  - cbn in Hstep. injection Hstep as <-. cbn. split; [by eexists|].
    split; [|done]. by intros b'.
Qed.

Lemma step_value_not_flat s t :
  map_transpose_semitone !! s = Some t → is_flat t = false.
Proof. intros H. by destruct (step_table_entry s t H) as (_ & _ & ?). Qed.

Lemma transpose_step_not_flat c c' :
  transpose_step c = Ok c' →
  is_flat (root c') = false ∧ ∀ b, bass c' = Some b → is_flat b = false.
Proof.
  intros Hstep. apply transpose_step_fields in Hstep as ([s Hs] & Hb & _).
  split; [by eapply step_value_not_flat|].
  intros b Hbass. destruct (Hb b Hbass) as [->|[s' Hs']]; [done|].
  by eapply step_value_not_flat.
Qed.

(** X4: a chord that [Chord.transpose] returns after at least one step has
    no flat spelling: root and bass are naturals or sharps. *)
Theorem transposed_has_no_flat (fuel : nat) (n : Z) (c c' : Chord) :
  n ≠ 0 → Chord_transpose fuel n c = Ok c' →
  is_flat (root c') = false ∧ ∀ b, bass c' = Some b → is_flat b = false.
Proof.
  revert n c c'. induction fuel as [|fuel IH]; intros n c c' Hn Hrun.
  - cbn in Hrun. by destruct (Z.eqb_spec n 0).
  - rewrite Chord_transpose_S in Hrun by done.
    destruct (transpose_step c) as [c1| |] eqn:Hstep; [|done..].
    rewrite bind_Ok in Hrun.
    destruct (decide (n - 1 = 0)) as [Hz|Hnz].
    + rewrite Hz, Chord_transpose_0 in Hrun. injection Hrun as <-.
      by apply transpose_step_not_flat in Hstep.
    + by eapply IH.
Qed.

Lemma transposed_has_no_flat_witness :
  is_flat (root (mkChord None "D" None (Some "F#") None false)) = false
  ∧ ∀ b, bass (mkChord None "D" None (Some "F#") None false) = Some b →
         is_flat b = false.
Proof.
  apply (transposed_has_no_flat 1 1 D_flat_over_F).
  - lia.
  - vm_compute. reflexivity.
Defined.

(** With a negative shift the loop of [Chord.transpose] never ends in a
    return: whatever the fuel, the call raises or is still running, and on
    a chord with table spellings it is still running. *)
Lemma Chord_transpose_diverges (fuel : nat) : ∀ n c pc,
  n < 0 → pitch_classes c = Some pc → Chord_transpose fuel n c = OutOfFuel.
Proof.
  induction fuel as [|fuel IH]; intros n c pc Hn Hpc.
  - cbn. by destruct (Z.eqb_spec n 0); [lia|].
  - rewrite Chord_transpose_S by lia.
    destruct (transpose_step_classes c pc Hpc) as (c1 & -> & Hpc1 & _).
    rewrite bind_Ok. eapply IH; [lia|done].
Qed.

(** X5: [Chord.transpose] with a negative shift never returns. *)
Theorem negative_shift_never_returns (fuel : nat) (n : Z) (c : Chord) :
  n < 0 →
  (∀ c', Chord_transpose fuel n c ≠ Ok c')
  ∧ (is_Some (pitch_classes c) → Chord_transpose fuel n c = OutOfFuel).
Proof.
  intros Hn. split; [by apply Chord_transpose_negative|].
  intros [pc Hpc]. by eapply Chord_transpose_diverges.
Qed.

Lemma negative_shift_never_returns_witness :
  (∀ c', Chord_transpose 100 (-1) D_flat_over_F ≠ Ok c')
  ∧ Chord_transpose 100 (-1) D_flat_over_F = OutOfFuel.
Proof.
  destruct (negative_shift_never_returns 100 (-1) D_flat_over_F ltac:(lia))
    as [Hnever Hrunning].
  split; [exact Hnever|]. apply Hrunning. vm_compute. eexists. reflexivity.
Defined.

(** ** Transposing and normalising *)

(** Normalising is canonical: it sends two spellings of one pitch class
    to the same spelling. *)
Lemma flat_map_canonical :
  map_Forall (λ s1 o1, map_Forall (λ s2 o2,
    negb (o1 =? o2)
    || bool_decide (default s1 (map_accidental_flat !! s1)
                    = default s2 (map_accidental_flat !! s2)) = true)
    chord_to_offset) chord_to_offset.
Proof. apply (bool_decide_unpack _). vm_compute. exact I. Qed.

Lemma sharp_map_canonical :
  map_Forall (λ s1 o1, map_Forall (λ s2 o2,
    negb (o1 =? o2)
    || bool_decide (default s1 (map_accidental_sharp !! s1)
                    = default s2 (map_accidental_sharp !! s2)) = true)
    chord_to_offset) chord_to_offset.
Proof. apply (bool_decide_unpack _). vm_compute. exact I. Qed.

Lemma accidental_map_canonical accidental s1 s2 o :
  chord_to_offset !! s1 = Some o → chord_to_offset !! s2 = Some o →
  let m := if String.eqb accidental "b" then map_accidental_flat
           else map_accidental_sharp in
  default s1 (m !! s1) = default s2 (m !! s2).
Proof.
  intros H1 H2 m. subst m. destruct (String.eqb accidental "b").
  - pose proof (flat_map_canonical s1 o H1 s2 o H2) as H. cbv beta in H.
    rewrite Z.eqb_refl in H. by apply bool_decide_eq_true in H.
  - pose proof (sharp_map_canonical s1 o H1 s2 o H2) as H. cbv beta in H.
    rewrite Z.eqb_refl in H. by apply bool_decide_eq_true in H.
Qed.

(** Two chords with the same pitch classes and the same other attributes
    normalise to the same chord. *)
Lemma Chord_normalise_canonical accidental c1 c2 pc :
  pitch_classes c1 = Some pc → pitch_classes c2 = Some pc →
  opening_brace c1 = opening_brace c2 → triad c1 = triad c2 →
  bassrest c1 = bassrest c2 → minor c1 = minor c2 →
  Chord_normalise accidental c1 = Chord_normalise accidental c2.
Proof.
  intros [Hr1 Hb1]%pitch_classes_inv [Hr2 Hb2]%pitch_classes_inv Ho Ht Hbr Hm.
  destruct (Chord_normalise_fields accidental c1) as (Hr & Hb & H1 & H2 & H3 & H4).
  destruct (Chord_normalise_fields accidental c2)
    as (Hr' & Hb' & H1' & H2' & H3' & H4').
  cbv zeta in *.
  apply Chord_eq; [congruence| |congruence| |congruence|congruence].
  - rewrite Hr, Hr'. by eapply accidental_map_canonical.
  - rewrite Hb, Hb'. destruct (bass c1) as [b1|], (bass c2) as [b2|].
    + destruct Hb1 as (o1 & Ho1 & Hpc1), Hb2 as (o2 & Ho2 & Hpc2).
      f_equal. eapply accidental_map_canonical; [done|]. congruence.
    + destruct Hb1 as (o1 & _ & Hpc1). congruence.
    + destruct Hb2 as (o2 & _ & Hpc2). congruence.
    + done.
Qed.

(** X6: on a chord with table spellings, transposing by [a], then by [b],
    then normalising gives the same chord, hence the same token text, as
    transposing once by [(a + b) mod 12] and normalising.  In particular a
    shift of 12 followed by normalising is normalising alone. *)
Theorem transpose_normalise_compose (fuel : nat) (accidental : string)
    (a b : Z) (c : Chord) :
  is_Some (pitch_classes c) →
  0 ≤ a ≤ Z.of_nat fuel → 0 ≤ b ≤ Z.of_nat fuel → 12 ≤ Z.of_nat fuel →
  ∃ c1 c2 c3,
    Chord_transpose fuel a c = Ok c1
    ∧ Chord_transpose fuel b c1 = Ok c2
    ∧ Chord_transpose fuel ((a + b) `mod` 12) c = Ok c3
    ∧ Chord_normalise accidental c2 = Chord_normalise accidental c3
    ∧ Chord_chord (Chord_normalise accidental c2)
      = Chord_chord (Chord_normalise accidental c3).
Proof.
  intros [pc Hpc] Ha Hb Hfuel.
  assert (0 ≤ (a + b) `mod` 12 < 12) as Hab by (apply Z.mod_pos_bound; lia).
  destruct (Chord_transpose_classes fuel a c pc Hpc Ha)
    as (c1 & Hc1 & Hpc1 & Ho1 & Ht1 & Hr1 & Hm1).
  destruct (Chord_transpose_classes fuel b c1 _ Hpc1 Hb)
    as (c2 & Hc2 & Hpc2 & Ho2 & Ht2 & Hr2 & Hm2).
  destruct (Chord_transpose_classes fuel ((a + b) `mod` 12) c pc Hpc ltac:(lia))
    as (c3 & Hc3 & Hpc3 & Ho3 & Ht3 & Hr3 & Hm3).
  exists c1, c2, c3. split; [done|]. split; [done|]. split; [done|].
  rewrite advance_advance in Hpc2. rewrite advance_mod in Hpc3.
  assert (Chord_normalise accidental c2 = Chord_normalise accidental c3) as Heq
    by (eapply Chord_normalise_canonical; [done|done|congruence..]).
  split; [done|]. by rewrite Heq.
Qed.

Lemma transpose_normalise_compose_witness :
  ∃ c1 c2 c3,
    Chord_transpose 12 12 D_flat_over_F = Ok c1
    ∧ Chord_transpose 12 0 c1 = Ok c2
    ∧ Chord_transpose 12 ((12 + 0) `mod` 12) D_flat_over_F = Ok c3
    ∧ Chord_normalise "b" c2 = Chord_normalise "b" c3
    ∧ Chord_chord (Chord_normalise "b" c2)
      = Chord_chord (Chord_normalise "b" c3).
Proof.
  apply (transpose_normalise_compose 12 "b" 12 0 D_flat_over_F); try lia.
  vm_compute. eexists. reflexivity.
Defined.

(** ** [Chord.__init__] *)

Lemma nl_ok_no_newline s : contains "010" s = false → nl_ok s = true.
Proof.
  induction s as [|c s IH]; [done|]. cbn [contains].
  intros [Hc Hs]%orb_false_elim. rewrite nl_ok_cons_dot; [by apply IH|].
  unfold dot, not_char. by rewrite Hc.
Qed.

Lemma contains_span_snd a p s :
  contains a s = false → contains a (span p s).2 = false.
Proof.
  intros Hs. rewrite <- (span_app p s), contains_app in Hs.
  by apply orb_false_elim in Hs as [_ ?].
Qed.

Lemma take_note_starts s : is_Some (take_note s) ↔ starts_with_note s = true.
Proof.
  destruct s as [|c s]; cbn [take_note starts_with_note].
  - split; [by intros [? ?]|done].
  - destruct (note_letter c); [|split; [by intros [? ?]|done]].
    split; [done|]. intros _. destruct s as [|a s]; [by eexists|].
    destruct (accidental a); by eexists.
Qed.

Lemma chord_greedy_strip t : chord_greedy t = None ↔ tail2 (strip_paren t)
  (match t with
   | String c _ => if is_char "(" c
                   then <[1%nat := Some (String c EmptyString)]> (replicate 6 None)
                   else replicate 6 None
   | EmptyString => replicate 6 None
   end) = None.
Proof.
  unfold chord_greedy, strip_paren. destruct t as [|c t]; [done|].
  by destruct (is_char "(" c).
Qed.

Lemma tail2_None' s g :
  tail2 s g = None ↔
  match take_note s with
  | Some (_, x) => nl_ok (span (not_char "/") x).2 = false
  | None => True
  end.
Proof.
  unfold tail2. destruct (take_note s) as [[n x]|]; [|done]. apply tail3_None.
Qed.

(** X7: a token whose text, after an optional opening parenthesis, does not
    start with a letter A-G or a-g is rejected with [ChordError]; a token
    without line break is accepted exactly when it starts so, whatever
    follows the letter. *)
Theorem Chord_init_accepts (t : string) :
  (starts_with_note (strip_paren t) = false → Chord_init t = Raise ChordError)
  ∧ (contains "010" t = false →
     starts_with_note (strip_paren t) = true → ∃ c, Chord_init t = Ok c).
Proof.
  rewrite Chord_init_greedy. split.
  - intros Hstart. assert (chord_greedy t = None) as ->; [|done].
    apply chord_greedy_strip, tail2_None'.
    destruct (take_note (strip_paren t)) as [[n x]|] eqn:Hn; [|done].
    assert (is_Some (take_note (strip_paren t))) as Hsome by (by eexists).
    apply take_note_starts in Hsome. congruence.
  - intros Hnl Hstart.
    destruct (chord_greedy t) as [[g rest]|] eqn:Hg; [by eexists|].
    apply chord_greedy_strip, tail2_None' in Hg.
    apply take_note_starts in Hstart as [[n x] Hn]. rewrite Hn in Hg.
    assert (contains "010" (strip_paren t) = false) as Hnl'.
    { unfold strip_paren. destruct t as [|c t]; [done|].
      destruct (is_char "(" c); [|done]. cbn [contains] in Hnl.
      by apply orb_false_elim in Hnl as [_ ?]. }
    apply take_note_shape in Hn as [Heq _].
    rewrite Heq, contains_app in Hnl'. apply orb_false_elim in Hnl' as [_ Hx].
    rewrite nl_ok_no_newline in Hg; [done|]. by apply contains_span_snd.
Qed.

Lemma Chord_init_accepts_witness :
  Chord_init "H7" = Raise ChordError ∧ ∃ c, Chord_init "(am7/G#)" = Ok c.
Proof.
  split.
  - apply (Chord_init_accepts "H7"). reflexivity.
  - apply (Chord_init_accepts "(am7/G#)"); reflexivity.
Defined.

(** *** What a parsed chord looks like *)

Lemma upper_case_letter c :
  note_letter c = true → in_range "A" "G" (upper c) = true.
Proof.
  destruct c as [[] [] [] [] [] [] [] []]; vm_compute; intros H;
    first [reflexivity | discriminate H].
Qed.

Lemma capitalize_spelling n rest : note_shape n rest → spelling (capitalize n).
Proof.
  intros (c & Hc & [[-> _]|(a & Ha & ->)]); exists (upper c);
    (split; [by apply upper_case_letter|]).
  - by left.
  - cbn [capitalize map_string]. rewrite (lower_accidental a Ha).
    unfold accidental in Ha. apply orb_prop in Ha as [->%Ascii.eqb_eq | ->%Ascii.eqb_eq].
    + right. by left.
    + right. by right.
Qed.

Lemma letters_A_to_G l :
  in_range "A" "G" l = true →
  l = "A"%char ∨ l = "B"%char ∨ l = "C"%char ∨ l = "D"%char ∨ l = "E"%char
  ∨ l = "F"%char ∨ l = "G"%char.
Proof.
  destruct l as [[] [] [] [] [] [] [] []]; vm_compute; intros H;
    first [discriminate H | tauto].
Qed.

Lemma spelling_listed s :
  spelling s → (is_Some (chord_to_offset !! s) ∧ s ∉ unlisted_spellings)
               ∨ (chord_to_offset !! s = None ∧ s ∈ unlisted_spellings).
Proof.
  intros (l & Hl & Hs). apply letters_A_to_G in Hl.
  assert (∀ x : string, bool_decide
    ((is_Some (chord_to_offset !! x) ∧ x ∉ unlisted_spellings)
     ∨ (chord_to_offset !! x = None ∧ x ∈ unlisted_spellings)) = true →
    (is_Some (chord_to_offset !! x) ∧ x ∉ unlisted_spellings)
     ∨ (chord_to_offset !! x = None ∧ x ∈ unlisted_spellings)) as Hdec
    by (intros x; apply bool_decide_eq_true).
  destruct Hl as [->|[->|[->|[->|[->|[->| ->]]]]]];
    destruct Hs as [->|[->| ->]]; apply Hdec; vm_compute; reflexivity.
Qed.

Lemma contains_span_fst a s : contains a (span (not_char a) s).1 = false.
Proof.
  induction s as [|c s IH]; [done|]. cbn [span]. unfold not_char at 1.
  destruct (Ascii.eqb c a) eqn:Hc; cbn [negb fst contains]; [done|].
  by rewrite Hc, IH.
Qed.

Lemma if_truthy_inv s x : if_truthy (Some s) = Some x → x = s ∧ s ≠ EmptyString.
Proof.
  unfold if_truthy, str_truthy. destruct s as [|a s]; [done|].
  cbn. by intros [= <-].
Qed.

Lemma Chord_init_shape t c :
  Chord_init t = Ok c →
  (opening_brace c = None ∨ opening_brace c = Some "(")
  ∧ spelling (root c)
  ∧ (∀ b, bass c = Some b → spelling b)
  ∧ (∀ x, triad c = Some x → x ≠ EmptyString ∧ contains "/" x = false)
  ∧ (∀ y, bassrest c = Some y → y ≠ EmptyString ∧ contains "010" y = false).
Proof.
  rewrite Chord_init_greedy.
  destruct (chord_greedy t) as [[g rest]|] eqn:Hg; [|done]. intros [= <-].
  apply chord_greedy_shape in Hg
    as (P & n & M3 & S & g4 & S5 & M5 & _ & HP & Hn & H3 & H4 & H5 & _ & ->).
  unfold Chord_of_match, group. cbn [lookup list_lookup mjoin option_join
    opening_brace root triad bass bassrest default from_option id].
  split; [|split; [|split; [|split]]].
  - destruct HP as [-> | ->]; [by left|by right].
  - by eapply capitalize_spelling.
  - intros b Hb. destruct H4 as [(_ & -> & _)|(S4 & _ & [(b' & _ & Hb' & ->)|(_ & -> & _)])];
      [done| |done].
    rewrite if_truthy_Some in Hb by by eapply note_shape_nonempty.
    cbn in Hb. injection Hb as <-. by eapply capitalize_spelling.
  - intros x [-> Hx]%if_truthy_inv. split; [done|].
    replace M3 with (span (not_char "/") (M3 +:+ S)).1 by by rewrite H3.
    apply contains_span_fst.
  - intros y [-> Hy]%if_truthy_inv. split; [done|].
    replace M5 with (span dot S5).1 by by rewrite H5.
    apply (contains_span_fst "010").
Qed.

(** X8: the attributes of every chord that [Chord.__init__] returns: the
    opening parenthesis is absent or [(]; root and bass are a capital
    letter A-G with an optional [b] or [#]; triad and bassrest are never
    the empty string; the triad holds no slash and the bassrest no line
    break; and root and bass are keys of the offset table unless they are
    one of Cb, Fb, E#, B#. *)
Theorem parsed_chord_shape (t : string) (c : Chord) :
  Chord_init t = Ok c →
  (opening_brace c = None ∨ opening_brace c = Some "(")
  ∧ spelling (root c)
  ∧ (∀ b, bass c = Some b → spelling b)
  ∧ (∀ x, triad c = Some x → x ≠ EmptyString ∧ contains "/" x = false)
  ∧ (∀ y, bassrest c = Some y → y ≠ EmptyString ∧ contains "010" y = false)
  ∧ (chord_to_offset !! root c = None ↔ root c ∈ unlisted_spellings)
  ∧ (∀ b, bass c = Some b →
       chord_to_offset !! b = None ↔ b ∈ unlisted_spellings).
Proof.
  intros (Ho & Hr & Hb & Ht & Hbr)%Chord_init_shape.
  do 5 (split; [done|]).
  assert (∀ s, spelling s →
               chord_to_offset !! s = None ↔ s ∈ unlisted_spellings) as Hlisted.
  { intros s [[[o Hs] Hn]|[Hs Hin]]%spelling_listed; [|done].
    split; [congruence|done]. }
  split; [by apply Hlisted|]. intros b Hbass. by apply Hlisted, Hb.
Qed.

Lemma parsed_chord_shape_witness :
  let c := mkChord (Some "(") "E#" (Some "m7") (Some "Ab") (Some ")") true in
  (opening_brace c = None ∨ opening_brace c = Some "(")
  ∧ spelling (root c)
  ∧ (∀ b, bass c = Some b → spelling b)
  ∧ (∀ x, triad c = Some x → x ≠ EmptyString ∧ contains "/" x = false)
  ∧ (∀ y, bassrest c = Some y → y ≠ EmptyString ∧ contains "010" y = false)
  ∧ (chord_to_offset !! root c = None ↔ root c ∈ unlisted_spellings)
  ∧ (∀ b, bass c = Some b →
       chord_to_offset !! b = None ↔ b ∈ unlisted_spellings).
Proof.
  apply (parsed_chord_shape "(e#m7/ab)"). vm_compute. reflexivity.
Defined.

Lemma step_table_domain s :
  chord_to_offset !! s = None → map_transpose_semitone !! s = None.
Proof.
  intros Hs. destruct (map_transpose_semitone !! s) as [t|] eqn:Ht; [|done].
  apply step_key_has_offset in Ht as [o Ho]. congruence.
Qed.

Lemma transpose_step_unlisted c :
  chord_to_offset !! root c = None
  ∨ (∃ b, bass c = Some b ∧ b ≠ EmptyString ∧ chord_to_offset !! b = None) →
  transpose_step c = Raise KeyError.
Proof.
  unfold transpose_step.
  destruct (chord_to_offset !! root c) as [o|] eqn:Hr.
  - intros [?|(b & Hb & Hne & Hnone)]; [done|].
    destruct (step_of_offset _ _ Hr) as (r' & Hstep & _).
    rewrite (dict_get_Some _ _ _ Hstep), bind_Ok, Hb.
    rewrite (str_truthy_Some b Hne). cbn [default from_option id].
    by rewrite (dict_get_None _ _ (step_table_domain b Hnone)).
  - intros _. by rewrite (dict_get_None _ _ (step_table_domain _ Hr)).
Qed.

(** X9: transposing a parsed chord by a shift other than 0 raises
    [KeyError] in the first pass of the loop when its root or bass is one
    of Cb, Fb, E#, B#; every other parsed chord has pitch classes, and
    every shift from 0 up to the fuel returns a chord. *)
Theorem parsed_chord_transposes (t : string) (c : Chord) :
  Chord_init t = Ok c →
  let unlisted := root c ∈ unlisted_spellings
                  ∨ ∃ b, bass c = Some b ∧ b ∈ unlisted_spellings in
  (unlisted → ∀ fuel n, n ≠ 0 → Chord_transpose (S fuel) n c = Raise KeyError)
  ∧ (¬ unlisted →
     is_Some (pitch_classes c)
     ∧ ∀ fuel n, 0 ≤ n ≤ Z.of_nat fuel → ∃ c', Chord_transpose fuel n c = Ok c').
Proof.
  intros Hinit unlisted.
  pose proof (Chord_init_shape t c Hinit) as (_ & Hr & Hb & _).
  assert (∀ s, spelling s →
               chord_to_offset !! s = None ↔ s ∈ unlisted_spellings) as Hlisted.
  { intros s [[[o Hs] Hn]|[Hs Hin]]%spelling_listed; [|done].
    split; [congruence|done]. }
  split.
  - intros Hun fuel n Hn. rewrite Chord_transpose_S by done.
    rewrite transpose_step_unlisted; [done|].
    destruct Hun as [Hroot|(b & Hbass & Hin)].
    + left. by apply Hlisted.
    + right. exists b. split; [done|]. split.
      * destruct (Hb b Hbass) as (l & _ & [->|[->| ->]]); done.
      * apply Hlisted; [by apply Hb|done].
  - intros Hlist.
    assert (is_Some (pitch_classes c)) as [pc Hpc].
    { destruct (chord_to_offset !! root c) as [r|] eqn:Hroot.
      - destruct (bass c) as [b|] eqn:Hbass.
        + destruct (chord_to_offset !! b) as [o|] eqn:Ho.
          * exists (r, Some o). apply pitch_classes_intro; [done|].
            rewrite Hbass. by exists o.
          * exfalso. apply Hlist. right. exists b. split; [done|].
            apply Hlisted; [by apply Hb|done].
        + exists (r, None). apply pitch_classes_intro; [done|]. by rewrite Hbass.
      - exfalso. apply Hlist. left. by apply Hlisted. }
    split; [by exists pc|]. intros fuel n Hn.
    destruct (Chord_transpose_classes fuel n c pc Hpc Hn) as (c' & Hc' & _).
    by exists c'.
Qed.

Lemma parsed_chord_transposes_witness :
  let c := mkChord None "E#" None None None false in
  let unlisted := root c ∈ unlisted_spellings
                  ∨ ∃ b, bass c = Some b ∧ b ∈ unlisted_spellings in
  (unlisted → ∀ fuel n, n ≠ 0 → Chord_transpose (S fuel) n c = Raise KeyError)
  ∧ (¬ unlisted →
     is_Some (pitch_classes c)
     ∧ ∀ fuel n, 0 ≤ n ≤ Z.of_nat fuel → ∃ c', Chord_transpose fuel n c = Ok c').
Proof.
  apply (parsed_chord_transposes "E#"). vm_compute. reflexivity.
Defined.

(** ** The rewrite pass, line by line *)

Lemma pairs_ind {A : Type} (P : list A → Prop) :
  P [] → (∀ x, P [x]) → (∀ x y l, P l → P (x :: y :: l)) → ∀ l, P l.
Proof.
  intros Hnil Hone Hstep l.
  assert (P l ∧ ∀ x, P (x :: l)) as [H _]; [|done].
  induction l as [|y l [IH1 IH2]]; [by split|].
  split; [apply IH2|]. intros x. by apply Hstep.
Qed.

Lemma foldl_append acc l : foldl String.append acc l = acc +:+ join l.
Proof.
  unfold join. revert acc. induction l as [|x l IH]; intros acc; cbn [foldl].
  - by rewrite str_app_nil_r.
  - rewrite IH, (IH (EmptyString +:+ x)), str_app_nil_l. by rewrite str_app_assoc.
Qed.

Lemma join_cons x l : join (x :: l) = x +:+ join l.
Proof. unfold join at 1. cbn [foldl]. by rewrite foldl_append, str_app_nil_l. Qed.

Lemma join_app l1 l2 : join (l1 ++ l2) = join l1 +:+ join l2.
Proof.
  induction l1 as [|x l1 IH]; [by rewrite str_app_nil_l|].
  cbn [app]. by rewrite !join_cons, IH, str_app_assoc.
Qed.

Lemma rewrite_chord_eq fuel shift norm line line_index chord :
  line !! line_index = Some chord →
  rewrite_chord fuel shift norm (line, line_index) chord
  = (new ← rewritten_chord fuel shift norm chord;
     Ok (<[line_index := new]> line, (line_index + 2)%nat)).
Proof.
  intros Hat. unfold rewrite_chord, rewritten_chord.
  destruct (negb (String.eqb chord EmptyString)).
  - destruct (Chord_init chord) as [c| |]; [|done..]. rewrite !bind_Ok.
    destruct (Chord_transpose fuel shift c) as [c'| |]; [|done..].
    rewrite !bind_Ok. destruct norm as [n|]; [|done]. rewrite !bind_Ok.
    unfold list_set.
    by rewrite bool_decide_eq_true_2 by by eapply lookup_lt_Some.
  - rewrite !bind_Ok. by rewrite list_insert_id.
Qed.

Lemma rewrite_chords_eq fuel shift norm segments : ∀ pre,
  (λ d : list string * nat, join d.1)
    <$> foldM (rewrite_chord fuel shift norm)
              (pre ++ segments, S (length pre)) (odd_items segments)
  = (r ← rewritten_segments (rewritten_chord fuel shift norm) segments;
     Ok (join pre +:+ r)).
Proof.
  induction segments as [|text|text chord segments IH] using pairs_ind;
    intros pre.
  - cbn [odd_items foldM rewritten_segments]. rewrite bind_Ok.
    cbn [fmap result_fmap fst]. rewrite join_app. reflexivity.
  - cbn [odd_items foldM rewritten_segments]. rewrite bind_Ok.
    cbn [fmap result_fmap fst]. rewrite join_app, join_cons.
    by rewrite str_app_nil_r.
  - cbn [odd_items foldM rewritten_segments].
    rewrite rewrite_chord_eq.
    2:{ rewrite lookup_app_r by (cbn; lia).
        by replace (S (length pre) - length pre)%nat with 1%nat by lia. }
    destruct (rewritten_chord fuel shift norm chord) as [new| |]; [|done..].
    rewrite !bind_Ok.
    replace (<[S (length pre) := new]> (pre ++ text :: chord :: segments))
      with ((pre ++ [text; new]) ++ segments).
    2:{ rewrite insert_app_r_alt by lia.
        replace (S (length pre) - length pre)%nat with 1%nat by lia.
        cbn. by rewrite <- app_assoc. }
    replace (S (length pre) + 2)%nat with (S (length (pre ++ [text; new])))
      by (rewrite length_app; cbn; lia).
    rewrite IH.
    destruct (rewritten_segments _ segments) as [r| |]; [|done..].
    rewrite !bind_Ok. rewrite join_app, !join_cons.
    cbn [join foldl]. by rewrite ?str_app_nil_r, !str_app_assoc.
Qed.

Lemma rewrite_line_eq fuel ps shift st line p :
  ps !! para_index st = Some p →
  ∃ first_key',
    rewrite_line fuel ps shift st line
    = (new ← rewritten_line fuel shift (active_norm st) line;
       Ok {| para_index := if blank_line line then S (para_index st)
                           else para_index st;
             active_key := first_key';
             active_norm := active_norm st;
             transposed_text := transposed_text st ++ [new] |}).
Proof.
  intros Hp. unfold rewrite_line, nth_or_raise. rewrite Hp, bind_Ok.
  destruct (key_change_norm (key p) (active_key st) (active_norm st))
    as [first_key' ->].
  exists first_key'. rewrite bind_Ok. cbn [fst snd]. unfold rewritten_line.
  pose proof (rewrite_chords_eq fuel shift (active_norm st) (split_line line) [])
    as Heq.
  cbn [app length] in Heq.
  destruct (foldM _ _ _) as [d|e|];
    destruct (rewritten_segments _ _) as [r|e'|];
    cbn [fmap result_fmap mbind result_bind] in Heq; try discriminate Heq.
  - rewrite !bind_Ok. injection Heq as ->.
    change (join []) with EmptyString. by rewrite str_app_nil_l.
  - injection Heq as ->. reflexivity.
  - reflexivity.
Qed.

Lemma rewrite_lines_eq fuel ps shift lines : ∀ st,
  (para_index st + blank_lines lines < length ps)%nat →
  transposed_text <$> foldM (rewrite_line fuel ps shift) st lines
  = (out ← mapM (rewritten_line fuel shift (active_norm st)) lines;
     Ok (transposed_text st ++ out)).
Proof.
  induction lines as [|line lines IH]; intros st Hlen.
  - cbn. by rewrite app_nil_r.
  - rewrite blank_lines_cons in Hlen. cbn [foldM mapM].
    destruct (lookup_lt_is_Some_2 ps (para_index st) ltac:(lia)) as [p Hp].
    destruct (rewrite_line_eq fuel ps shift st line p Hp) as [first_key' ->].
    destruct (rewritten_line fuel shift (active_norm st) line) as [new| |];
      [|done..].
    rewrite !bind_Ok, IH.
    + cbn [active_norm transposed_text].
      destruct (mapM _ lines) as [out| |]; [|done..].
      rewrite !bind_Ok. by rewrite <- app_assoc.
    + cbn [para_index]. destruct (blank_line line); lia.
Qed.

(** ** What passes 1 and 2 hand over *)

Lemma find_shift_spec transpose ps : ∀ shift first_key,
  (Forall (λ p, val p ≤ 0) ps
   ∧ ∃ first_key', find_shift transpose ps shift first_key
                   = Ok (shift, first_key'))
  ∨ (∃ i p,
       ps !! i = Some p ∧ 0 < val p
       ∧ (∀ j q, (j < i)%nat → ps !! j = Some q → val q ≤ 0)
       ∧ match chord_to_offset !! transpose with
         | Some o => ∃ first_key', find_shift transpose ps shift first_key
                                   = Ok ((o - key p) `mod` 12, first_key')
         | None => find_shift transpose ps shift first_key = Raise KeyError
         end).
Proof.
  induction ps as [|p ps IH]; intros shift first_key; cbn [find_shift].
  - left. split; [done|]. by eexists.
  - destruct (Z.ltb_spec 0 (val p)) as [Hpos|Hle].
    + right. exists O, p. split; [done|]. split; [done|]. split; [lia|].
      unfold dict_get. destruct (chord_to_offset !! transpose) as [o|]; [|done].
      rewrite bind_Ok. by eexists.
    + destruct (IH shift
        (if truthy (PyInt (key p)) && negb (truthy first_key)
         then PyInt (key p) else first_key))
        as [[Hall Hret]|(i & q & Hq & Hpos & Hbefore & Hret)].
      * left. split; [by constructor|done].
      * right. exists (S i), q. split; [done|]. split; [done|].
        split; [|done]. intros [|j] q' Hj Hq'.
        -- by injection Hq' as <-.
        -- apply (Hbefore j q'); [lia|done].
Qed.

Lemma analyse_inv text transpose a :
  analyse text transpose = Ok a →
  ∃ counts,
    count_chords text = Ok counts
    ∧ estimate_keys counts = Ok (paragraphs a)
    ∧ find_shift transpose (paragraphs a) (-1) PyNone = Ok (shift a, first_key a)
    ∧ initial_norm transpose = Ok (norm a).
Proof.
  rewrite analyse_eq.
  destruct (count_chords text) as [counts| |]; [|done..]. rewrite bind_Ok.
  destruct (estimate_keys counts) as [ps| |] eqn:Hest; [|done..].
  rewrite bind_Ok.
  destruct (find_shift transpose ps (-1) PyNone) as [[s fk]| |] eqn:Hshift;
    [|done..].
  rewrite bind_Ok.
  destruct (initial_norm transpose) as [n| |]; [|done..]. rewrite bind_Ok.
  intros [= <-]. exists counts. cbn [paragraphs shift first_key norm fst snd].
  by rewrite Hest, Hshift.
Qed.

Lemma mod12_range x : 0 ≤ x `mod` 12 < 12.
Proof. apply Z.mod_pos_bound. lia. Qed.

Lemma analyse_shape text transpose a :
  analyse text transpose = Ok a →
  first_error (document_chords text) = None
  ∧ length (paragraphs a) = S (blank_lines text)
  ∧ Forall (λ p, 0 ≤ val p ∧ 0 ≤ key p < 12 ∧ (val p = 0 → key p = 0))
           (paragraphs a)
  ∧ (document_chords text = [] →
     shift a = -1 ∧ Forall (λ p, val p = 0) (paragraphs a))
  ∧ (document_chords text ≠ [] →
     ∃ o i p,
       chord_to_offset !! transpose = Some o
       ∧ paragraphs a !! i = Some p ∧ 0 < val p
       ∧ (∀ j q, (j < i)%nat → paragraphs a !! j = Some q → val q = 0)
       ∧ shift a = (o - key p) `mod` 12
       ∧ 0 ≤ shift a < 12
       ∧ ∃ n, norm a = Some n ∧ key_norm !! Z.to_nat o = Some n).
Proof.
  intros Ha. pose proof Ha as (counts & Hcount & Hest & Hshift & Hnorm)%analyse_inv.
  pose proof (count_chords_spec text) as Hspec.
  destruct (first_error (document_chords text)) as [e|]; [congruence|].
  destruct Hspec as (counts' & Hcount' & Hlen & Hhist & Hsome).
  assert (counts' = counts) as -> by congruence.
  destruct (estimate_keys_spec counts Hhist) as (ps & Hest' & Hlen' & Hps & Hex).
  assert (ps = paragraphs a) as -> by congruence.
  split; [done|]. split; [congruence|]. split; [done|]. split.
  - intros Hnone. rewrite (analyse_no_chords _ _ Hnone), Hnorm, bind_Ok in Ha.
    injection Ha as <-. cbn [shift paragraphs]. split; [done|].
    change (Forall (λ p, val p = 0)
              (replicate (S (blank_lines text)) empty_paragraph)).
    by apply Forall_replicate.
  - intros Hsome'. specialize (Hex (Hsome Hsome')).
    destruct (find_shift_spec transpose (paragraphs a) (-1) PyNone)
      as [[Hall _]|(i & p & Hp & Hpos & Hbefore & Hret)].
    + exfalso. apply Exists_exists in Hex as (p & Hin & Hpos).
      rewrite Forall_forall in Hall. specialize (Hall p Hin). cbv beta in Hall. lia.
    + destruct (chord_to_offset !! transpose) as [o|] eqn:Ho; [|congruence].
      destruct Hret as [first_key' Hret]. rewrite Hret in Hshift.
      injection Hshift as Hs Hf. exists o, i, p.
      split; [done|]. split; [done|]. split; [done|]. split.
      { intros j q Hj Hq. specialize (Hbefore j q Hj Hq).
        rewrite Forall_forall in Hps.
        destruct (Hps q) as [? _]; [by eapply list_elem_of_lookup_2|]. lia. }
      split; [done|]. split; [rewrite <- Hs; apply mod12_range|].
      destruct (initial_norm_known transpose o Ho) as (n & Hn & Hkey).
      exists n. split; [congruence|done].
Qed.

(** X10: what a document hands to the rewrite pass when passes 1 and 2 end
    without error: one paragraph more than the document has blank lines,
    each with a score of at least 0 and an offset in 0..11 that is 0 when
    the score is 0; without chord tokens the shift keeps its initial -1;
    with chord tokens the target is a key of the offset table, the shift
    is its offset minus the offset of the first paragraph with a positive
    score, modulo 12, so in 0..11, and the accidental preference is the
    entry of [key_norm] at the offset of the target. *)
Theorem analysis_shape (text : list string) (transpose : string) (a : analysis) :
  analyse text transpose = Ok a →
  length (paragraphs a) = S (blank_lines text)
  ∧ Forall (λ p, 0 ≤ val p ∧ 0 ≤ key p < 12 ∧ (val p = 0 → key p = 0))
           (paragraphs a)
  ∧ (document_chords text = [] →
     shift a = -1 ∧ Forall (λ p, val p = 0) (paragraphs a))
  ∧ (document_chords text ≠ [] →
     ∃ o i p,
       chord_to_offset !! transpose = Some o
       ∧ paragraphs a !! i = Some p ∧ 0 < val p
       ∧ (∀ j q, (j < i)%nat → paragraphs a !! j = Some q → val q = 0)
       ∧ shift a = (o - key p) `mod` 12
       ∧ 0 ≤ shift a < 12
       ∧ ∃ n, norm a = Some n ∧ key_norm !! Z.to_nat o = Some n).
Proof. intros Ha. by apply analyse_shape in Ha as (_ & ?). Qed.

Lemma analyse_key_change_text :
  analysis_summary <$> analyse key_change_text "F"
  = Ok ([(0, 2); (2, 4)], 5, PyNone, Some "b").
Proof. vm_compute. reflexivity. Qed.

Lemma analysis_shape_witness :
  ∃ a, analyse key_change_text "F" = Ok a
       ∧ length (paragraphs a) = S (blank_lines key_change_text)
       ∧ Forall (λ p, 0 ≤ val p ∧ 0 ≤ key p < 12 ∧ (val p = 0 → key p = 0))
                (paragraphs a)
       ∧ (document_chords key_change_text = [] →
          shift a = -1 ∧ Forall (λ p, val p = 0) (paragraphs a))
       ∧ (document_chords key_change_text ≠ [] →
          ∃ o i p,
            chord_to_offset !! "F" = Some o
            ∧ paragraphs a !! i = Some p ∧ 0 < val p
            ∧ (∀ j q, (j < i)%nat → paragraphs a !! j = Some q → val q = 0)
            ∧ shift a = (o - key p) `mod` 12
            ∧ 0 ≤ shift a < 12
            ∧ ∃ n, norm a = Some n ∧ key_norm !! Z.to_nat o = Some n).
Proof.
  pose proof analyse_key_change_text as Hrun.
  destruct (analyse key_change_text "F") as [a| |] eqn:Ha;
    [|discriminate Hrun..].
  exists a. split; [reflexivity|].
  apply (analysis_shape key_change_text "F" a Ha).
Defined.

(** ** The transposing branch as a whole *)

Lemma fmap_bind_Ok {A B : Type} (f : A → B) (m : result A) :
  (x ← m; Ok (f x)) = f <$> m.
Proof. by destruct m. Qed.

Lemma parse_file_transpose_mapM fuel text transpose a :
  analyse text transpose = Ok a →
  parse_file_transpose fuel text transpose
  = mapM (rewritten_line fuel (shift a) (norm a)) text.
Proof.
  intros Ha. rewrite parse_file_transpose_eq, Ha, bind_Ok.
  rewrite (fmap_bind_Ok transposed_text). unfold rewrite.
  apply analyse_shape in Ha as (_ & Hlen & _).
  rewrite rewrite_lines_eq by (cbn [para_index]; lia).
  cbn [active_norm transposed_text].
  by destruct (mapM _ text).
Qed.

Lemma mapM_ext_in {A B : Type} (f g : A → result B) l :
  (∀ x, x ∈ l → f x = g x) → mapM f l = mapM g l.
Proof.
  induction l as [|x l IH]; intros Hfg; [done|]. cbn [mapM].
  rewrite (Hfg x) by (apply elem_of_cons; by left).
  rewrite IH; [done|]. intros y Hy. apply Hfg, elem_of_cons. by right.
Qed.

Lemma rewritten_segments_ext_in f g segments :
  (∀ chord, chord ∈ odd_items segments → f chord = g chord) →
  rewritten_segments f segments = rewritten_segments g segments.
Proof.
  induction segments as [|text|text chord segments IH] using pairs_ind;
    intros Hfg; [done..|].
  cbn [rewritten_segments odd_items] in *.
  rewrite (Hfg chord) by (apply elem_of_cons; by left).
  rewrite IH; [done|]. intros y Hy. apply Hfg, elem_of_cons. by right.
Qed.

Lemma mapM_length {A B : Type} (f : A → result B) l out :
  mapM f l = Ok out → length out = length l.
Proof.
  revert out. induction l as [|x l IH]; intros out; cbn [mapM].
  - by intros [= <-].
  - destruct (f x) as [y| |]; [|done..]. rewrite bind_Ok.
    destruct (mapM f l) as [ys| |]; [|done..]. rewrite bind_Ok.
    intros [= <-]. cbn. by rewrite (IH ys).
Qed.

Lemma mapM_lookup {A B : Type} (f : A → result B) l out i x :
  mapM f l = Ok out → l !! i = Some x → ∃ y, f x = Ok y ∧ out !! i = Some y.
Proof.
  revert out i. induction l as [|x' l IH]; intros out i; cbn [mapM]; [done|].
  destruct (f x') as [y| |] eqn:Hy; [|done..]. rewrite bind_Ok.
  destruct (mapM f l) as [ys| |]; [|done..]. rewrite bind_Ok.
  intros [= <-]. destruct i as [|i]; cbn.
  - intros [= <-]. by exists y.
  - by apply IH.
Qed.

Lemma mapM_Ok {A B : Type} (f : A → result B) l :
  (∀ x, x ∈ l → ∃ y, f x = Ok y) → ∃ out, mapM f l = Ok out.
Proof.
  induction l as [|x l IH]; intros Hf; [by eexists|]. cbn [mapM].
  destruct (Hf x) as [y ->]; [apply elem_of_cons; by left|].
  destruct IH as [ys ->]; [|by eexists].
  intros z Hz. apply Hf, elem_of_cons. by right.
Qed.

Lemma mapM_Raise {A B : Type} (f : A → result B) l e :
  mapM f l = Raise e → ∃ x, x ∈ l ∧ f x = Raise e.
Proof.
  induction l as [|x l IH]; cbn [mapM]; [done|].
  destruct (f x) as [y| |] eqn:Hy.
  - rewrite bind_Ok. destruct (mapM f l) as [ys| |]; [done| |done].
    intros [= ->]. destruct IH as (z & Hz & Hfz); [done|].
    exists z. split; [|done]. apply elem_of_cons. by right.
  - intros [= ->]. exists x. split; [|done]. apply elem_of_cons. by left.
  - done.
Qed.

Lemma mapM_OutOfFuel {A B : Type} (f : A → result B) l :
  mapM f l = OutOfFuel → ∃ x, x ∈ l ∧ f x = OutOfFuel.
Proof.
  induction l as [|x l IH]; cbn [mapM]; [done|].
  destruct (f x) as [y| |] eqn:Hy.
  - rewrite bind_Ok. destruct (mapM f l) as [ys| |]; [done|done|].
    intros _. destruct IH as (z & Hz & Hfz); [done|].
    exists z. split; [|done]. apply elem_of_cons. by right.
  - done.
  - intros _. exists x. split; [|done]. apply elem_of_cons. by left.
Qed.

Lemma rewritten_segments_Ok f segments :
  (∀ chord, chord ∈ odd_items segments → ∃ y, f chord = Ok y) →
  ∃ out, rewritten_segments f segments = Ok out.
Proof.
  induction segments as [|text|text chord segments IH] using pairs_ind;
    intros Hf; [by eexists..|].
  cbn [rewritten_segments odd_items] in *.
  destruct (Hf chord) as [y ->]; [apply elem_of_cons; by left|].
  destruct IH as [r ->]; [|by eexists].
  intros z Hz. apply Hf, elem_of_cons. by right.
Qed.

Lemma rewritten_segments_fails f segments :
  (∀ out, rewritten_segments f segments ≠ Ok out) →
  ∃ chord, chord ∈ odd_items segments
           ∧ rewritten_segments f segments = f chord
           ∧ ∀ y, f chord ≠ Ok y.
Proof.
  induction segments as [|text|text chord segments IH] using pairs_ind;
    intros Hfail.
  - by destruct (Hfail EmptyString).
  - by destruct (Hfail text).
  - cbn [rewritten_segments odd_items] in *.
    destruct (f chord) as [y| |] eqn:Hy.
    + rewrite bind_Ok in *. destruct IH as (z & Hz & Heq & Hfz).
      { intros out Hout. rewrite Hout, bind_Ok in Hfail. by eapply Hfail. }
      exists z. split; [apply elem_of_cons; by right|]. split; [|done].
      rewrite <- Heq.
      destruct (rewritten_segments f segments) as [r| |]; [|done..].
      exfalso. by eapply Hfail.
    + exists chord. split; [apply elem_of_cons; by left|]. by rewrite Hy.
    + exists chord. split; [apply elem_of_cons; by left|]. by rewrite Hy.
Qed.

Lemma document_chords_elem text line chord :
  line ∈ text → chord ∈ odd_items (split_line line) →
  chord ∈ document_chords text.
Proof.
  intros Hline Hchord. induction text as [|l text IH].
  - by apply elem_of_nil in Hline.
  - rewrite document_chords_cons. apply elem_of_app.
    apply elem_of_cons in Hline as [<-|Hline]; [by left|]. right. by apply IH.
Qed.

(** *** Fuel *)

Lemma transpose_step_returns c : transpose_step c ≠ OutOfFuel.
Proof.
  unfold transpose_step, dict_get.
  destruct (map_transpose_semitone !! root c) as [r|]; [|done].
  rewrite bind_Ok. destruct (str_truthy (bass c)); [|done].
  by destruct (map_transpose_semitone !! _).
Qed.

Lemma Chord_transpose_fuel (fuel : nat) : ∀ fuel' n c,
  0 ≤ n ≤ Z.of_nat fuel → n ≤ Z.of_nat fuel' →
  Chord_transpose fuel n c = Chord_transpose fuel' n c
  ∧ Chord_transpose fuel n c ≠ OutOfFuel.
Proof.
  induction fuel as [|fuel IH]; intros fuel' n c Hn Hn'.
  - assert (n = 0) as -> by lia. by rewrite !Chord_transpose_0.
  - destruct (decide (n = 0)) as [->|Hnz]; [by rewrite !Chord_transpose_0|].
    destruct fuel' as [|fuel']; [lia|].
    rewrite !Chord_transpose_S by done.
    destruct (transpose_step c) as [c'| |] eqn:Hstep; [|done|].
    + rewrite !bind_Ok. apply IH; lia.
    + by apply transpose_step_returns in Hstep.
Qed.

Lemma rewritten_chord_fuel fuel fuel' shift norm chord :
  0 ≤ shift ≤ Z.of_nat fuel → shift ≤ Z.of_nat fuel' →
  rewritten_chord fuel shift norm chord = rewritten_chord fuel' shift norm chord
  ∧ rewritten_chord fuel shift norm chord ≠ OutOfFuel.
Proof.
  intros Hs Hs'. unfold rewritten_chord.
  destruct (negb (String.eqb chord EmptyString)); [|done].
  destruct (Chord_init_cases chord) as [[c ->]| ->]; [|done].
  rewrite !bind_Ok.
  destruct (Chord_transpose_fuel fuel fuel' shift c Hs Hs') as [<- Hret].
  destruct (Chord_transpose fuel shift c) as [c'| |]; [|done..].
  rewrite !bind_Ok. by destruct norm.
Qed.

Lemma rewritten_segments_returns f segments :
  (∀ chord, chord ∈ odd_items segments → f chord ≠ OutOfFuel) →
  rewritten_segments f segments ≠ OutOfFuel.
Proof.
  induction segments as [|text|text chord segments IH] using pairs_ind;
    intros Hf; [done..|].
  cbn [rewritten_segments odd_items] in *.
  destruct (f chord) as [y| |] eqn:Hy; [|done|].
  - rewrite bind_Ok.
    destruct (rewritten_segments f segments) eqn:Hr; [done..|].
    exfalso. apply IH; [|done]. intros z Hz. apply Hf, elem_of_cons. by right.
  - exfalso. apply (Hf chord); [apply elem_of_cons; by left|done].
Qed.

Lemma analyse_returns text transpose : analyse text transpose ≠ OutOfFuel.
Proof.
  rewrite analyse_eq. pose proof (count_chords_spec text) as Hspec.
  destruct (first_error (document_chords text)) as [e|]; [by rewrite Hspec|].
  destruct Hspec as (counts & -> & _ & Hhist & _). rewrite bind_Ok.
  destruct (estimate_keys_spec counts Hhist) as (ps & -> & _). rewrite bind_Ok.
  destruct (find_shift_spec transpose ps (-1) PyNone)
    as [[_ [fk ->]]|(i & p & _ & _ & _ & Hret)].
  - rewrite bind_Ok. unfold initial_norm.
    destruct (py_in (PyStr transpose) key_norm); [done|].
    destruct (chord_to_offset !! transpose) as [o|] eqn:Ho; [|done].
    destruct (initial_norm_known transpose o Ho) as (n & Hn & _).
    unfold initial_norm in Hn.
    rewrite (known_target_not_accidental _ _ Ho), Ho in Hn.
    destruct (list_get key_norm (PyInt o)); done.
  - destruct (chord_to_offset !! transpose) as [o|] eqn:Ho.
    + destruct Hret as [fk ->]. rewrite bind_Ok.
      destruct (initial_norm_known transpose o Ho) as (n & -> & _). done.
    + by rewrite Hret.
Qed.

(** X11: the rewrite pass is a map over the lines: with the analysis [a] of
    passes 1 and 2, the list that pass 3 builds holds, line for line, the
    text segments of the line as they are with every chord token parsed,
    transposed by the one shift of [a] and normalised with the one
    accidental preference of [a]; the paragraph offsets read in pass 3
    change no line, and an error is the error of the first line and
    token that has one. *)
Theorem rewrite_pass_is_line_map (fuel : nat) (text : list string)
    (transpose : string) (a : analysis) :
  analyse text transpose = Ok a →
  parse_file_transpose fuel text transpose
  = mapM (rewritten_line fuel (shift a) (norm a)) text.
Proof. apply parse_file_transpose_mapM. Qed.

Lemma rewrite_pass_is_line_map_witness :
  ∃ a, analyse key_change_text "F" = Ok a
       ∧ parse_file_transpose 12 key_change_text "F"
         = mapM (rewritten_line 12 (shift a) (norm a)) key_change_text.
Proof.
  pose proof analyse_key_change_text as Hrun.
  destruct (analyse key_change_text "F") as [a| |] eqn:Ha;
    [|discriminate Hrun..].
  exists a. split; [reflexivity|].
  apply (rewrite_pass_is_line_map 12 key_change_text "F" a Ha).
Defined.

(** X12: the loops of [Chord.transpose] in the transposing branch always
    end: with fuel for 11 steps or more passes 1 to 3 complete or raise,
    and what they give does not depend on the fuel. *)
Theorem transposing_terminates (fuel fuel' : nat) (text : list string)
    (transpose : string) :
  (11 ≤ fuel)%nat → (11 ≤ fuel')%nat →
  parse_file_transpose fuel text transpose
  = parse_file_transpose fuel' text transpose
  ∧ parse_file_transpose fuel text transpose ≠ OutOfFuel.
Proof.
  intros Hfuel Hfuel'.
  destruct (analyse text transpose) as [a|e|] eqn:Ha.
  - rewrite !(parse_file_transpose_mapM _ _ _ a Ha).
    pose proof (analyse_shape _ _ _ Ha) as (_ & _ & _ & _ & Hsome).
    assert (∀ line chord, line ∈ text → chord ∈ odd_items (split_line line) →
            rewritten_chord fuel (shift a) (norm a) chord
            = rewritten_chord fuel' (shift a) (norm a) chord
            ∧ rewritten_chord fuel (shift a) (norm a) chord ≠ OutOfFuel)
      as Hchord.
    { intros line chord Hline Hin. apply rewritten_chord_fuel.
      - destruct Hsome as (o & i & p & _ & _ & _ & _ & _ & Hrange & _); [|lia].
        intros Hnil. pose proof (document_chords_elem _ _ _ Hline Hin) as H.
        rewrite Hnil in H. by apply elem_of_nil in H.
      - destruct Hsome as (o & i & p & _ & _ & _ & _ & _ & Hrange & _); [|lia].
        intros Hnil. pose proof (document_chords_elem _ _ _ Hline Hin) as H.
        rewrite Hnil in H. by apply elem_of_nil in H. }
    split.
    + apply mapM_ext_in. intros line Hline. unfold rewritten_line.
      apply rewritten_segments_ext_in. intros chord Hin.
      by apply (Hchord line chord).
    + intros (line & Hline & Hout)%mapM_OutOfFuel. revert Hout.
      apply rewritten_segments_returns. intros chord Hin.
      by apply (Hchord line chord).
  - rewrite !parse_file_transpose_eq, Ha. done.
  - by apply analyse_returns in Ha.
Qed.

Lemma transposing_terminates_witness :
  parse_file_transpose 40 key_change_text "F"
  = parse_file_transpose 11 key_change_text "F"
  ∧ parse_file_transpose 40 key_change_text "F" ≠ OutOfFuel.
Proof. apply (transposing_terminates 40 11 key_change_text "F"); lia. Defined.

(** *** Errors *)

Lemma first_error_cases chords e :
  first_error chords = Some e → e = ChordError ∨ e = KeyError.
Proof.
  induction chords as [|chord chords IH]; [done|]. cbn [first_error].
  destruct (chord_error chord) as [e'|] eqn:He; [|done].
  intros [= <-]. by eapply chord_error_cases.
Qed.

Lemma transpose_step_raises c e : transpose_step c = Raise e → e = KeyError.
Proof.
  unfold transpose_step, dict_get.
  destruct (map_transpose_semitone !! root c) as [r|]; [|by intros [= <-]].
  rewrite bind_Ok. destruct (str_truthy (bass c)); [|done].
  destruct (map_transpose_semitone !! _); [done|]. by intros [= <-].
Qed.

Lemma Chord_transpose_raises (fuel : nat) : ∀ n c e,
  Chord_transpose fuel n c = Raise e → e = KeyError.
Proof.
  induction fuel as [|fuel IH]; intros n c e.
  - cbn. by destruct (n =? 0).
  - destruct (decide (n = 0)) as [->|Hn]; [by rewrite Chord_transpose_0|].
    rewrite Chord_transpose_S by done.
    destruct (transpose_step c) as [c'| |] eqn:Hstep; [|..|done].
    + rewrite bind_Ok. apply IH.
    + intros [= <-]. by eapply transpose_step_raises.
Qed.

Lemma rewritten_chord_raises fuel shift n chord e :
  rewritten_chord fuel shift (Some n) chord = Raise e →
  e = ChordError ∨ e = KeyError.
Proof.
  unfold rewritten_chord.
  destruct (negb (String.eqb chord EmptyString)); [|done].
  destruct (Chord_init_cases chord) as [[c ->]| ->]; [|intros [= <-]; by left].
  rewrite bind_Ok.
  destruct (Chord_transpose fuel shift c) as [c'| |] eqn:Hc; [done| |done].
  intros [= <-]. right. by eapply Chord_transpose_raises.
Qed.

Lemma rewritten_segments_Raise f segments e :
  rewritten_segments f segments = Raise e →
  ∃ chord, chord ∈ odd_items segments ∧ f chord = Raise e.
Proof.
  intros Hr. destruct (rewritten_segments_fails f segments)
    as (chord & Hin & Heq & _); [congruence|].
  exists chord. split; [done|]. congruence.
Qed.

Lemma initial_norm_raises transpose e :
  initial_norm transpose = Raise e →
  e = TypeError ∧ (transpose = "b" ∨ transpose = "#").
Proof.
  destruct (py_in (PyStr transpose) key_norm) eqn:Hin.
  - rewrite (initial_norm_accidental _ Hin). intros [= <-]. split; [done|].
    rewrite py_in_key_norm in Hin.
    apply orb_prop in Hin as [->%String.eqb_eq | ->%String.eqb_eq]; tauto.
  - destruct (chord_to_offset !! transpose) as [o|] eqn:Ho.
    + by destruct (initial_norm_known _ _ Ho) as (n & -> & _).
    + by rewrite (initial_norm_unknown _ Ho Hin).
Qed.

Lemma analyse_raises text transpose e :
  analyse text transpose = Raise e →
  e = ChordError ∨ e = KeyError
  ∨ (e = TypeError ∧ document_chords text = []
     ∧ (transpose = "b" ∨ transpose = "#")).
Proof.
  destruct (decide (document_chords text = [])) as [Hnil|Hsome].
  - rewrite (analyse_no_chords _ _ Hnil).
    destruct (initial_norm transpose) as [n|e'|] eqn:Hn; [done| |done].
    intros [= <-]. apply initial_norm_raises in Hn as [-> ?]. tauto.
  - rewrite analyse_eq. pose proof (count_chords_spec text) as Hspec.
    destruct (first_error (document_chords text)) as [e'|] eqn:Herr.
    + rewrite Hspec. intros [= <-].
      apply first_error_cases in Herr as [->| ->]; tauto.
    + destruct Hspec as (counts & -> & _ & Hhist & Hex). rewrite bind_Ok.
      destruct (estimate_keys_spec counts Hhist) as (ps & -> & _ & _ & Hpos).
      rewrite bind_Ok. specialize (Hpos (Hex Hsome)).
      destruct (find_shift_spec transpose ps (-1) PyNone)
        as [[Hall _]|(i & p & _ & _ & _ & Hret)].
      * exfalso. apply Exists_exists in Hpos as (p & Hin & Hp).
        rewrite Forall_forall in Hall. specialize (Hall p Hin).
        cbv beta in Hall. lia.
      * destruct (chord_to_offset !! transpose) as [o|] eqn:Ho.
        -- destruct Hret as [fk ->]. rewrite bind_Ok.
           by destruct (initial_norm_known _ _ Ho) as (n & -> & _).
        -- rewrite Hret. intros [= <-]. tauto.
Qed.

(** *** Success *)

Lemma transposable_counted chord : transposable chord → counted chord.
Proof.
  intros (c & pc & Hc & [Hr _]%pitch_classes_inv). by exists c, pc.1.
Qed.

Lemma transposable_nonempty chord : transposable chord → chord ≠ EmptyString.
Proof. intros (c & pc & Hc & _) ->. vm_compute in Hc. discriminate Hc. Qed.

Lemma analyse_Ok text transpose o :
  chord_to_offset !! transpose = Some o →
  first_error (document_chords text) = None →
  ∃ a, analyse text transpose = Ok a.
Proof.
  intros Ho Herr. destruct (analyse text transpose) as [a|e|] eqn:Ha.
  - by exists a.
  - exfalso. rewrite analyse_eq in Ha.
    pose proof (count_chords_spec text) as Hspec. rewrite Herr in Hspec.
    destruct Hspec as (counts & Hc & _ & Hhist & _).
    rewrite Hc, bind_Ok in Ha.
    destruct (estimate_keys_spec counts Hhist) as (ps & Hps & _).
    rewrite Hps, bind_Ok in Ha.
    destruct (find_shift_spec transpose ps (-1) PyNone)
      as [[_ [fk Hret]]|(i & p & _ & _ & _ & Hret)].
    + rewrite Hret, bind_Ok in Ha.
      destruct (initial_norm_known _ _ Ho) as (n & Hn & _).
      by rewrite Hn in Ha.
    + rewrite Ho in Hret. destruct Hret as [fk Hret].
      rewrite Hret, bind_Ok in Ha.
      destruct (initial_norm_known _ _ Ho) as (n & Hn & _).
      by rewrite Hn in Ha.
  - by apply analyse_returns in Ha.
Qed.

Lemma rewritten_chord_Ok fuel shift n chord :
  transposable chord → 0 ≤ shift ≤ Z.of_nat fuel →
  ∃ new, rewritten_chord fuel shift (Some n) chord = Ok new.
Proof.
  intros Ht Hshift. pose proof (transposable_nonempty _ Ht) as Hne.
  destruct Ht as (c & pc & Hc & Hpc). unfold rewritten_chord.
  apply String.eqb_neq in Hne. rewrite Hne. cbn [negb].
  rewrite Hc, bind_Ok.
  destruct (Chord_transpose_classes fuel shift c pc Hpc Hshift) as (c' & -> & _).
  rewrite !bind_Ok. by eexists.
Qed.

(** ** The transposing branch as a whole *)

Lemma transposing_branch_Some fuel text transpose :
  transpose ≠ EmptyString →
  transposing_branch fuel text (Some transpose)
  = Some (transposed_text ← parse_file_transpose fuel text transpose;
          Raise NameError).
Proof. intros Hne. unfold transposing_branch. by rewrite str_truthy_Some. Qed.

Lemma transposing_branch_Raise fuel text transpose e :
  transpose ≠ EmptyString →
  parse_file_transpose fuel text transpose = Raise e →
  transposing_branch fuel text (Some transpose) = Some (Raise e).
Proof. intros Hne Hr. by rewrite transposing_branch_Some, Hr. Qed.

Lemma transposing_branch_Ok fuel text transpose out :
  transpose ≠ EmptyString →
  parse_file_transpose fuel text transpose = Ok out →
  transposing_branch fuel text (Some transpose) = Some (Raise NameError).
Proof. intros Hne Hr. by rewrite transposing_branch_Some, Hr. Qed.

Lemma accidental_nonempty transpose :
  py_in (PyStr transpose) key_norm = true → transpose ≠ EmptyString.
Proof. intros Hin ->. vm_compute in Hin. discriminate Hin. Qed.

(** With fuel for 11 steps, passes 1 to 3 complete or raise. *)
Lemma parse_file_transpose_returns fuel text transpose :
  (11 ≤ fuel)%nat → parse_file_transpose fuel text transpose ≠ OutOfFuel.
Proof.
  intros Hfuel. destruct (analyse text transpose) as [a|e|] eqn:Ha.
  - rewrite (parse_file_transpose_mapM _ _ _ a Ha).
    pose proof (analyse_shape _ _ _ Ha) as (_ & _ & _ & _ & Hsome).
    intros (line & Hline & Hout)%mapM_OutOfFuel. revert Hout.
    apply rewritten_segments_returns. intros chord Hin.
    assert (document_chords text ≠ []) as Hne.
    { intros Hnil. pose proof (document_chords_elem _ _ _ Hline Hin) as H.
      rewrite Hnil in H. by apply elem_of_nil in H. }
    destruct Hsome as (o & i & p & _ & _ & _ & _ & _ & Hrange & _); [done|].
    apply (rewritten_chord_fuel fuel fuel); lia.
  - rewrite parse_file_transpose_eq, Ha. done.
  - by apply analyse_returns in Ha.
Qed.

(** What passes 1 to 3 can raise. *)
Lemma parse_file_transpose_raises fuel text transpose e :
  parse_file_transpose fuel text transpose = Raise e →
  e = ChordError ∨ e = KeyError
  ∨ (e = TypeError ∧ document_chords text = []
     ∧ (transpose = "b" ∨ transpose = "#")).
Proof.
  destruct (analyse text transpose) as [a|e'|] eqn:Ha.
  - rewrite (parse_file_transpose_mapM _ _ _ a Ha).
    intros (line & Hline & Hr)%mapM_Raise.
    apply rewritten_segments_Raise in Hr as (chord & Hin & Hr).
    pose proof (analyse_shape _ _ _ Ha) as (_ & _ & _ & _ & Hsome).
    destruct Hsome as (o & i & p & _ & _ & _ & _ & _ & _ & n & Hn & _).
    { intros Hnil. pose proof (document_chords_elem _ _ _ Hline Hin) as H.
      rewrite Hnil in H. by apply elem_of_nil in H. }
    rewrite Hn in Hr. apply rewritten_chord_raises in Hr. tauto.
  - rewrite parse_file_transpose_eq, Ha. intros [= <-].
    by apply analyse_raises in Ha.
  - by apply analyse_returns in Ha.
Qed.

(** The error of the first token that has one ends pass 1, and with it
    the branch. *)
Lemma first_error_aborts fuel text transpose e :
  first_error (document_chords text) = Some e →
  count_chords text = Raise e
  ∧ analyse text transpose = Raise e
  ∧ parse_file_transpose fuel text transpose = Raise e.
Proof.
  intros He. pose proof (count_chords_spec text) as Hcount.
  rewrite He in Hcount. split; [done|].
  pose proof (analyse_first_error text transpose e He) as Ha.
  split; [done|]. by rewrite parse_file_transpose_eq, Ha.
Qed.

(** With a target that is in no table, a document with a chord token
    never gets past pass 2. *)
Lemma unknown_target_with_chords text transpose :
  chord_to_offset !! transpose = None →
  document_chords text ≠ [] →
  ∃ e, (e = ChordError ∨ e = KeyError)
       ∧ analyse text transpose = Raise e
       ∧ ∀ fuel, parse_file_transpose fuel text transpose = Raise e.
Proof.
  intros Hunknown Hsome.
  assert (∃ e, (e = ChordError ∨ e = KeyError)
               ∧ analyse text transpose = Raise e) as (e & Hkind & He).
  { pose proof (count_chords_spec text) as Hcount.
    destruct (first_error (document_chords text)) as [e|] eqn:Herr.
    - exists e. split; [by eapply first_error_cases|].
      by apply analyse_first_error.
    - destruct Hcount as (counts & Hrun & _ & Hall & Hex).
      destruct (estimate_keys_spec counts Hall) as (ps & Hps & _ & _ & Hpos).
      exists KeyError. split; [by right|].
      rewrite analyse_eq, Hrun, bind_Ok, Hps, bind_Ok.
      rewrite find_shift_unknown; [done|done|]. by apply Hpos, Hex. }
  exists e. split; [done|]. split; [done|]. intros fuel.
  by rewrite parse_file_transpose_eq, He.
Qed.

(** C6.  A chord token is encountered when every chord token before it in
    the document has been counted, that is, has parsed with a root of the
    offset table.  When an encountered token does not parse, the counting
    pass raises [ChordError]; passes 1 and 2 and the passes as a whole
    raise it with it, for any target and any fuel: nothing is estimated,
    nothing is printed, no line is rewritten, and the branch, entered
    with any target that is not empty, ends in that [ChordError]. *)
Theorem unparsed_chord_aborts (fuel : nat) (text : list string)
    (transpose chord : string) (before after : list string) :
  document_chords text = before ++ chord :: after →
  Forall counted before →
  Chord_init chord = Raise ChordError →
  count_chords text = Raise ChordError
  ∧ analyse text transpose = Raise ChordError
  ∧ parse_file_transpose fuel text transpose = Raise ChordError
  ∧ (transpose ≠ EmptyString →
     transposing_branch fuel text (Some transpose) = Some (Raise ChordError)).
Proof.
  intros Hsplit Hbefore Hbad. apply chord_error_unparsed in Hbad.
  assert (first_error (document_chords text) = Some ChordError) as Herr.
  { rewrite Hsplit, first_error_app.
    apply first_error_Forall in Hbefore as ->.
    cbn [first_error]. by rewrite Hbad. }
  destruct (first_error_aborts fuel text transpose _ Herr) as (H1 & H2 & H3).
  split; [done|]. split; [done|]. split; [done|].
  intros Hne. by apply transposing_branch_Raise.
Qed.

Lemma unparsed_chord_aborts_witness :
  count_chords ["[C]a[9xyz]"] = Raise ChordError
  ∧ analyse ["[C]a[9xyz]"] "D" = Raise ChordError
  ∧ parse_file_transpose 12 ["[C]a[9xyz]"] "D" = Raise ChordError
  ∧ ("D" ≠ EmptyString →
     transposing_branch 12 ["[C]a[9xyz]"] (Some "D")
     = Some (Raise ChordError)).
Proof.
  apply (unparsed_chord_aborts 12 ["[C]a[9xyz]"] "D" "9xyz" ["C"] []).
  - vm_compute. reflexivity.
  - constructor; [|constructor].
    exists {| opening_brace := None; root := "C"; triad := None;
              bass := None; bassrest := None; minor := false |}, 0.
    split; vm_compute; reflexivity.
  - vm_compute. reflexivity.
Defined.

(** A token that comes after one whose counting raises is never passed to
    [Chord]: in [E_sharp_then_bad] the token [E#] parses, its root is in
    no table, and the [KeyError] of the lookup ends pass 1 before [9xyz]
    is reached. *)
Example later_token_not_reached :
  document_chords E_sharp_then_bad = ["E#"; "9xyz"]
  ∧ chord_error "E#" = Some KeyError
  ∧ count_chords E_sharp_then_bad = Raise KeyError.
Proof. repeat split; vm_compute; reflexivity. Qed.

(** C8: what the code does.  The target name is never checked.  Pass 2
    looks it up in the offset table only when some paragraph has a
    positive score, and the test [transpose in chord_to_offset] that
    follows has no other branch: with a name that is in no table and a
    document without chord tokens, passes 1 and 2 return with the shift
    -1 and [norm] unbound, and pass 3 runs over every line and builds its
    list, the document as it was; the branch then ends in the
    [NameError] of its last statement, as it does after every completed
    pass 3.  The names [b] and [#] raise [TypeError] where
    [key_norm[transpose]] indexes a list with a string.  Only a document
    with a chord token stops the branch before pass 3, by the [KeyError]
    of the lookup or the error of a token.  On [plain_text] with the
    target [X]: pass 3 starts from the analysis with no shift and no
    preference and returns the three lines.  With the empty string as
    target the branch is not entered at all. *)
Theorem unknown_target_not_validated :
  (∀ fuel text transpose,
     transpose ≠ EmptyString →
     chord_to_offset !! transpose = None →
     py_in (PyStr transpose) key_norm = false →
     document_chords text = [] →
     (∃ a, analyse text transpose = Ok a ∧ norm a = None ∧ shift a = -1
           ∧ ∃ r, rewrite fuel a text = Ok r ∧ transposed_text r = text)
     ∧ parse_file_transpose fuel text transpose = Ok text
     ∧ transposing_branch fuel text (Some transpose)
       = Some (Raise NameError))
  ∧ (∀ fuel text transpose,
       py_in (PyStr transpose) key_norm = true →
       document_chords text = [] →
       chord_to_offset !! transpose = None
       ∧ analyse text transpose = Raise TypeError
       ∧ transposing_branch fuel text (Some transpose)
         = Some (Raise TypeError))
  ∧ (∀ fuel text transpose,
       transpose ≠ EmptyString →
       chord_to_offset !! transpose = None →
       document_chords text ≠ [] →
       ∃ e, (e = ChordError ∨ e = KeyError)
            ∧ analyse text transpose = Raise e
            ∧ transposing_branch fuel text (Some transpose)
              = Some (Raise e))
  ∧ chord_to_offset !! "X" = None
  ∧ document_chords plain_text = []
  ∧ analysis_summary <$> analyse plain_text "X"
    = Ok ([(0, 0); (0, 0)], -1, PyNone, None)
  ∧ (a ← analyse plain_text "X"; rewriter_summary <$> rewrite 0 a plain_text)
    = Ok (PyNone, None, plain_text)
  ∧ parse_file_transpose 0 plain_text "X" = Ok plain_text
  ∧ transposing_branch 0 plain_text (Some "X") = Some (Raise NameError)
  ∧ transposing_branch 0 plain_text (Some EmptyString) = None.
Proof.
  split; [|split; [|split]].
  - intros fuel text transpose Hne Hunknown Hacc Hnone.
    pose proof (initial_norm_unknown _ Hunknown Hacc) as Hn.
    pose proof (parse_file_no_chords fuel text transpose None Hnone Hn) as Hrun.
    split; [|split; [done|by eapply transposing_branch_Ok]].
    pose proof Hrun as Hrun'. unfold parse_file_transpose in Hrun'.
    rewrite (analyse_no_chords _ _ Hnone), Hn, bind_Ok in Hrun' |- *.
    rewrite bind_Ok in Hrun'. eexists. split; [done|].
    cbn [norm shift]. split; [done|]. split; [done|].
    match type of Hrun' with
    | context [rewrite ?f ?a ?t] => destruct (rewrite f a t) as [r| |]
    end; [|done..].
    rewrite bind_Ok in Hrun'. injection Hrun' as Hr. by exists r.
  - intros fuel text transpose Hacc Hnone.
    assert (analyse text transpose = Raise TypeError) as He.
    { by rewrite (analyse_no_chords _ _ Hnone), (initial_norm_accidental _ Hacc). }
    split; [|split; [done|]].
    + destruct (chord_to_offset !! transpose) as [o|] eqn:Ho; [|done].
      by rewrite (known_target_not_accidental _ _ Ho) in Hacc.
    + apply transposing_branch_Raise; [by apply accidental_nonempty|].
      by rewrite parse_file_transpose_eq, He.
  - intros fuel text transpose Hne Hunknown Hsome.
    destruct (unknown_target_with_chords text transpose Hunknown Hsome)
      as (e & Hkind & Ha & Hrun).
    exists e. split; [done|]. split; [done|].
    by apply transposing_branch_Raise.
  - repeat split; vm_compute; reflexivity.
Qed.

(** X13: entered with a target that is not empty, the transposing branch
    always ends in an exception, and never returns.  The exception is the
    [ChordError] or [KeyError] that passes 1 to 3 raise, or the
    [TypeError] of the targets [b] and [#] on a document without chord
    tokens, or else, passes 1 to 3 having completed, the [NameError] of
    the call of the undefined [parse].  No index is ever out of range and
    the accidental preference is never read unbound.  Without a target,
    or with the empty string, the branch is not entered. *)
Theorem transposing_errors (fuel : nat) (text : list string)
    (transpose : string) :
  transpose ≠ EmptyString →
  (11 ≤ fuel)%nat →
  (∃ e, transposing_branch fuel text (Some transpose) = Some (Raise e)
        ∧ match e with
          | NameError =>
              ∃ out, parse_file_transpose fuel text transpose = Ok out
          | ChordError | KeyError =>
              parse_file_transpose fuel text transpose = Raise e
          | TypeError =>
              parse_file_transpose fuel text transpose = Raise TypeError
              ∧ document_chords text = []
              ∧ (transpose = "b" ∨ transpose = "#")
          | IndexError | UnboundLocalError => False
          end)
  ∧ transposing_branch fuel text None = None
  ∧ transposing_branch fuel text (Some EmptyString) = None.
Proof.
  intros Hne Hfuel. split; [|done].
  destruct (parse_file_transpose fuel text transpose) as [out|e|] eqn:Hrun.
  - exists NameError. split; [by eapply transposing_branch_Ok|]. by exists out.
  - exists e. split; [by apply transposing_branch_Raise|].
    destruct (parse_file_transpose_raises _ _ _ _ Hrun)
      as [->|[->|(-> & Hnil & Ht)]]; done.
  - by apply parse_file_transpose_returns in Hrun.
Qed.

Lemma transposing_errors_witness :
  (∃ e, transposing_branch 12 D_over_E_sharp (Some "C") = Some (Raise e)
        ∧ match e with
          | NameError =>
              ∃ out, parse_file_transpose 12 D_over_E_sharp "C" = Ok out
          | ChordError | KeyError =>
              parse_file_transpose 12 D_over_E_sharp "C" = Raise e
          | TypeError =>
              parse_file_transpose 12 D_over_E_sharp "C" = Raise TypeError
              ∧ document_chords D_over_E_sharp = []
              ∧ ("C" = "b" ∨ "C" = "#")
          | IndexError | UnboundLocalError => False
          end)
  ∧ transposing_branch 12 D_over_E_sharp None = None
  ∧ transposing_branch 12 D_over_E_sharp (Some EmptyString) = None.
Proof.
  apply (transposing_errors 12 D_over_E_sharp "C").
  - discriminate.
  - lia.
Defined.

(** The four ways the branch ends, each on a document of the examples. *)
Example transposing_branch_ends :
  transposing_branch 12 hello_world (Some "D") = Some (Raise NameError)
  ∧ transposing_branch 12 D_over_E_sharp (Some "C") = Some (Raise KeyError)
  ∧ transposing_branch 12 E_sharp_then_bad (Some "D") = Some (Raise KeyError)
  ∧ transposing_branch 12 ["[9xyz]"] (Some "D") = Some (Raise ChordError)
  ∧ transposing_branch 12 plain_text (Some "b") = Some (Raise TypeError).
Proof. repeat split; vm_compute; reflexivity. Qed.

(** X14: with a target that is a key of the offset table, and a document
    all of whose chord tokens parse with root and bass in the offset
    table, passes 1 to 3 raise nothing and pass 3 builds a list of as
    many lines as the document has; the branch then ends in the
    [NameError] of its last statement, so that nothing is returned and
    nothing is laid out. *)
Theorem transposing_succeeds (fuel : nat) (text : list string)
    (transpose : string) :
  is_Some (chord_to_offset !! transpose) →
  Forall transposable (document_chords text) →
  (11 ≤ fuel)%nat →
  (∃ out, parse_file_transpose fuel text transpose = Ok out
          ∧ length out = length text)
  ∧ transposing_branch fuel text (Some transpose) = Some (Raise NameError).
Proof.
  intros [o Ho] Hall Hfuel.
  destruct (analyse_Ok text transpose o Ho) as [a Ha].
  { apply first_error_Forall. eapply Forall_impl; [done|].
    apply transposable_counted. }
  pose proof (analyse_shape _ _ _ Ha) as (_ & _ & _ & _ & Hsome).
  destruct (mapM_Ok (rewritten_line fuel (shift a) (norm a)) text) as [out Hout].
  { intros line Hline. apply rewritten_segments_Ok. intros chord Hin.
    pose proof (document_chords_elem _ _ _ Hline Hin) as Hdoc.
    destruct Hsome as (_ & _ & _ & _ & _ & _ & _ & _ & Hrange & n & -> & _).
    { intros Hnil. rewrite Hnil in Hdoc. by apply elem_of_nil in Hdoc. }
    apply rewritten_chord_Ok; [|lia].
    rewrite Forall_forall in Hall. by apply Hall. }
  rewrite <- (parse_file_transpose_mapM _ _ _ a Ha) in Hout.
  split.
  - exists out. split; [done|].
    rewrite (parse_file_transpose_mapM _ _ _ a Ha) in Hout.
    by eapply mapM_length.
  - eapply transposing_branch_Ok; [|done]. by eapply offset_nonempty.
Qed.

Lemma transposing_succeeds_witness :
  (∃ out, parse_file_transpose 12 hello_world "D" = Ok out
          ∧ length out = length hello_world)
  ∧ transposing_branch 12 hello_world (Some "D") = Some (Raise NameError).
Proof.
  apply (transposing_succeeds 12 hello_world "D").
  - vm_compute. eexists. reflexivity.
  - repeat constructor.
    + exists (mkChord None "C" None None None false), (0, None).
      split; vm_compute; reflexivity.
    + exists (mkChord None "G" None None None false), (7, None).
      split; vm_compute; reflexivity.
  - lia.
Defined.

(** ** The shift and the first key *)






(** On [hello_world] with target [D] the first paragraph has the score 3
    and the offset 0: the shift is [(2 - 0) mod 12], [first_key] is [None],
    and the line comes out two semitones up. *)
Example first_key_at_offset_zero :
  analysis_summary <$> analyse hello_world "D"
  = Ok ([(0, 3)], (2 - 0) `mod` 12, PyNone, Some "#")
  ∧ firstKey <$> (paragraphs <$> analyse hello_world "D") = Ok (Some 0)
  ∧ parse_file_transpose 12 hello_world "D"
    = Ok ["[D]Hello [A]world" +:+ newline].
Proof. repeat split; vm_compute; reflexivity. Qed.

(** X15: when passes 1 to 3 complete, the list that pass 3 has built has
    as many lines as the document, and every line without chord token is
    in it as it was. *)
Theorem transposing_keeps_plain_lines (fuel : nat) (text out : list string)
    (transpose : string) :
  parse_file_transpose fuel text transpose = Ok out →
  length out = length text
  ∧ ∀ i line, text !! i = Some line → odd_items (split_line line) = [] →
              out !! i = Some line.
Proof.
  intros Hrun. destruct (analyse text transpose) as [a|e|] eqn:Ha.
  - rewrite (parse_file_transpose_mapM _ _ _ a Ha) in Hrun.
    split; [by eapply mapM_length|]. intros i line Hline Hplain.
    destruct (mapM_lookup _ _ _ _ _ Hrun Hline) as (new & Hnew & ->).
    unfold rewritten_line in Hnew.
    rewrite (split_line_no_chords _ Hplain) in Hnew. cbn in Hnew. congruence.
  - by rewrite parse_file_transpose_eq, Ha in Hrun.
  - by apply analyse_returns in Ha.
Qed.

Lemma transposing_keeps_plain_lines_witness :
  length ["[F]a" +:+ newline; newline; "[G][G][Eb]" +:+ newline]
  = length key_change_text
  ∧ ∀ i line, key_change_text !! i = Some line →
              odd_items (split_line line) = [] →
              ["[F]a" +:+ newline; newline; "[G][G][Eb]" +:+ newline] !! i
              = Some line.
Proof.
  apply (transposing_keeps_plain_lines 12 key_change_text _ "F").
  vm_compute. reflexivity.
Defined.

(** ** The line splitter, the other way round *)

Lemma span_snd_nil_contains a s :
  (span (not_char a) s).2 = EmptyString → contains a s = false.
Proof.
  induction s as [|c s IH]; [done|]. cbn [span contains]. unfold not_char at 1 2.
  destruct (Ascii.eqb c a); cbn [negb snd orb]; [done|]. apply IH.
Qed.

Lemma span_not_char a m r :
  contains a m = false →
  span (not_char a) (m +:+ String a r) = (m, String a r).
Proof.
  intros Hm. induction m as [|c m IH].
  - rewrite str_app_nil_l. apply span_cons_false. unfold not_char.
    by rewrite Ascii.eqb_refl.
  - cbn [contains] in Hm. apply orb_false_elim in Hm as [Hc Hm].
    rewrite str_app_cons, span_cons_true by (unfold not_char; by rewrite Hc).
    by rewrite (IH Hm).
Qed.

Lemma bracket_at_intro m rest :
  contains "]" m = false →
  bracket_at ("[" +:+ m +:+ "]" +:+ rest) = Some (m, rest).
Proof.
  intros Hm. rewrite str_app_cons, str_app_nil_l. cbn [bracket_at].
  change (is_char "[" "[") with true. cbv iota.
  change ("]" +:+ rest) with (String "]" rest).
  by rewrite (span_not_char "]" m rest Hm).
Qed.

Lemma re_search_first pre m rest :
  contains "[" pre = false → contains "]" m = false →
  re_search 1 bracket_re (pre +:+ "[" +:+ m +:+ "]" +:+ rest)
  = Some (pre, [None; Some m], rest).
Proof.
  intros Hpre Hm. induction pre as [|c pre IH].
  - rewrite str_app_nil_l, re_search_bracket. by rewrite bracket_at_intro.
  - cbn [contains] in Hpre. apply orb_false_elim in Hpre as [Hc Hpre].
    rewrite str_app_cons, re_search_bracket. cbn [bracket_at].
    unfold is_char. rewrite Hc. by rewrite (IH Hpre).
Qed.

Lemma re_search_pre s pre g rest :
  re_search 1 bracket_re s = Some (pre, g, rest) → contains "[" pre = false.
Proof.
  revert pre g rest. induction s as [|c s IH]; intros pre g rest.
  - rewrite re_search_bracket. done.
  - rewrite re_search_bracket.
    destruct (bracket_at (String c s)) as [[m r]|] eqn:Hat; [by intros [= <- _ _]|].
    destruct (re_search 1 bracket_re s) as [[[pre' g'] rest']|] eqn:Hs; [|done].
    cbn. intros [= <- _ _]. cbn [contains]. rewrite (IH _ _ _ eq_refl).
    rewrite orb_false_r. destruct (Ascii.eqb c "[") eqn:Hc; [|done].
    exfalso. apply Ascii.eqb_eq in Hc as ->.
    apply re_search_Some in Hs as (m & _ & -> & _).
    cbn [bracket_at] in Hat. change (is_char "[" "[") with true in Hat.
    cbv iota in Hat.
    destruct (span (not_char "]") (pre' +:+ "[" +:+ m +:+ "]" +:+ rest')).2
      eqn:Hspan; [|done].
    apply span_snd_nil_contains in Hspan.
    rewrite !contains_app in Hspan. cbn [contains] in Hspan.
    rewrite Ascii.eqb_refl in Hspan. cbn in Hspan.
    by rewrite !orb_true_r in Hspan.
Qed.

Lemma split_line_well_split line : well_split (split_line line).
Proof.
  apply (split_line_ind (λ _ segments, well_split segments)).
  - intros l Hnone. cbn [well_split]. by rewrite split_line_eq, Hnone.
  - intros pre m rest Hm Hfound Hrest. cbn [well_split].
    split; [by eapply re_search_pre|]. done.
Qed.

Lemma split_line_unsplit segments :
  well_split segments → split_line (unsplit segments) = segments.
Proof.
  induction segments as [|text|text chord segments IH] using pairs_ind;
    cbn [well_split unsplit]; [done..|].
  intros (Htext & Hchord & Hrest).
  rewrite split_line_eq, (re_search_first _ _ _ Htext Hchord).
  cbn [group lookup list_lookup mjoin option_join default from_option id].
  by rewrite (IH Hrest).
Qed.

Lemma re_search_closed pre post :
  contains "]" post = true →
  is_Some (re_search 1 bracket_re (pre +:+ "[" +:+ post)).
Proof.
  intros Hpost. induction pre as [|c pre IH].
  - rewrite str_app_nil_l, str_app_cons, str_app_nil_l, re_search_bracket.
    cbn [bracket_at]. change (is_char "[" "[") with true. cbv iota.
    destruct (span (not_char "]") post).2 as [|a r] eqn:Hspan; [|by eexists].
    apply span_snd_nil_contains in Hspan. congruence.
  - rewrite str_app_cons, re_search_bracket.
    destruct (bracket_at (String c (pre +:+ "[" +:+ post))) as [[m r]|];
      [by eexists|].
    destruct IH as [[[p g] r] ->]. by eexists.
Qed.

Lemma re_search_None_open line :
  re_search 1 bracket_re line = None →
  ∀ pre post, line = pre +:+ "[" +:+ post → contains "]" post = false.
Proof.
  intros Hnone pre post ->.
  destruct (contains "]" post) eqn:Hpost; [|done].
  destruct (re_search_closed pre post Hpost) as [x Hx]. congruence.
Qed.

(** C9, as amended.  For every line the splitter returns an odd number of
    segments, text and chord alternating from left to right, and they are
    these: when some opening bracket of the line has a closing bracket
    after it, the line is a text without opening bracket, a chord without
    closing bracket in its brackets, and a rest; the text and the chord
    are the first two segments and the segments of the rest follow; when
    no opening bracket has a closing bracket after it, the line is the
    one segment.  So every matched pair of brackets gives a chord segment,
    the segments are well split, and putting them together again with
    each chord back in its brackets gives the line.  An opening bracket
    after which no closing bracket comes opens no chord segment: it
    stays, with all that follows it, at the end of the last text segment.
    The splitter is total, so nothing is raised for unmatched brackets. *)
Theorem split_line_segments (line : string) :
  (∃ n, length (split_line line) = (2 * n + 1)%nat)
  ∧ unsplit (split_line line) = line
  ∧ well_split (split_line line)
  ∧ ((∃ pre chord rest,
        line = pre +:+ "[" +:+ chord +:+ "]" +:+ rest
        ∧ contains "[" pre = false ∧ contains "]" chord = false)
     ∨ (∀ pre post, line = pre +:+ "[" +:+ post → contains "]" post = false))
  ∧ (∀ pre chord rest,
       line = pre +:+ "[" +:+ chord +:+ "]" +:+ rest →
       contains "[" pre = false → contains "]" chord = false →
       split_line line = pre :: chord :: split_line rest)
  ∧ ((∀ pre post, line = pre +:+ "[" +:+ post → contains "]" post = false) →
     split_line line = [line])
  ∧ ∀ pre post,
      line = pre +:+ "[" +:+ post → contains "]" post = false →
      ∃ segments text,
        split_line pre = segments ++ [text]
        ∧ split_line line = segments ++ [text +:+ "[" +:+ post].
Proof.
  split; [|split; [|split; [|split; [|split; [|split]]]]].
  - apply (split_line_ind (λ _ segments, ∃ n, length segments = (2 * n + 1)%nat)).
    + intros. by exists O.
    + intros pre m rest _ _ [n Hn]. exists (S n). cbn [length]. lia.
  - apply (split_line_ind (λ line segments, unsplit segments = line)).
    + done.
    + intros pre m rest _ _ Hrest. cbn [unsplit]. by rewrite Hrest.
  - apply split_line_well_split.
  - destruct (re_search 1 bracket_re line) as [[[pre g] rest]|] eqn:Hfound.
    + left. pose proof (re_search_pre _ _ _ _ Hfound) as Hpre.
      apply re_search_Some in Hfound as (m & _ & -> & Hm).
      by exists pre, m, rest.
    + right. by apply re_search_None_open.
  - intros pre chord rest -> Hpre Hchord.
    rewrite split_line_eq, (re_search_first _ _ _ Hpre Hchord). done.
  - intros Hopen. rewrite split_line_eq.
    destruct (re_search 1 bracket_re line) as [[[pre g] rest]|] eqn:Hfound;
      [|done].
    apply re_search_Some in Hfound as (m & _ & -> & Hm).
    specialize (Hopen pre (m +:+ "]" +:+ rest) eq_refl).
    rewrite contains_app in Hopen. cbn [contains] in Hopen.
    rewrite str_app_cons in Hopen. cbn [contains] in Hopen.
    rewrite Ascii.eqb_refl in Hopen. cbn in Hopen.
    by rewrite orb_true_r in Hopen.
  - intros pre post -> Hpost.
    apply split_line_app_no_close. cbn [contains].
    by rewrite str_app_cons, str_app_nil_l.
Qed.

(** X16: the line splitter and putting the segments back in brackets are
    inverse to each other: what the splitter returns is well split (no
    opening bracket in a text segment before a chord, no closing bracket
    in a chord, no chord left in the last text segment), and every well
    split list of segments is what the splitter returns on its line. *)
Theorem split_line_inverse :
  (∀ line, well_split (split_line line)
           ∧ unsplit (split_line line) = line)
  ∧ (∀ segments, well_split segments →
                 split_line (unsplit segments) = segments).
Proof.
  split.
  - intros line. split; [apply split_line_well_split|].
    apply (split_line_ind (λ line segments, unsplit segments = line)).
    + done.
    + intros pre m rest _ _ Hrest. cbn [unsplit]. by rewrite Hrest.
  - apply split_line_unsplit.
Qed.

(** ** The character loop of the text layout *)

Lemma len_app a b : len (a +:+ b) = len a + len b.
Proof. unfold len. rewrite str_length_app. lia. Qed.

Lemma len_nonneg s : 0 ≤ len s.
Proof. unfold len. lia. Qed.

Lemma len_repeat_space n : len (repeat_string " " n) = Z.of_nat n.
Proof.
  induction n as [|n IH]; [done|]. cbn [repeat_string].
  rewrite len_app, IH. unfold len. cbn. lia.
Qed.

Lemma len_str_mul n : len (str_mul " " n) = Z.max 0 n.
Proof. unfold str_mul. rewrite len_repeat_space. lia. Qed.

Lemma str_mul_pos n : 0 < n → ∃ r, str_mul " " n = String " " r.
Proof.
  intros Hn. unfold str_mul. destruct (Z.to_nat n) as [|k] eqn:Hk; [lia|].
  cbn [repeat_string]. rewrite str_app_cons, str_app_nil_l. by eexists.
Qed.

Lemma layout_chars_app st s1 s2 :
  layout_chars st (s1 +:+ s2)
  = (st' ← layout_chars st s1; layout_chars st' s2).
Proof.
  revert st. induction s1 as [|c s1 IH]; intros st.
  - by rewrite str_app_nil_l.
  - rewrite str_app_cons. cbn [layout_chars].
    destruct (layout_char st c) as [st'| |]; [|done..].
    rewrite !bind_Ok. apply IH.
Qed.

Lemma layout_chars_cons st c s :
  layout_chars st (String c s) = (st' ← layout_char st c; layout_chars st' s).
Proof. reflexivity. Qed.

Lemma bracket_free_cons c s :
  bracket_free (String c s) →
  Ascii.eqb c "[" = false ∧ Ascii.eqb c "]" = false ∧ bracket_free s.
Proof.
  unfold bracket_free. cbn [contains].
  intros [[? ?]%orb_false_elim [? ?]%orb_false_elim]. done.
Qed.

(** A run of text outside a chord goes to the text line. *)
Lemma layout_text st t :
  inside_chord st = CHORD_OUT → bracket_free t →
  layout_chars st t
  = Ok {| inside_chord := inside_chord st; chord := chord st;
          chord_pad := chord_pad st + len t;
          prev_chord_len := prev_chord_len st;
          chord_line := chord_line st;
          text_line := text_line st +:+ t |}.
Proof.
  revert st. induction t as [|c t IH]; intros st Hout Hfree.
  - cbn [layout_chars]. rewrite str_app_nil_r. unfold len. cbn.
    rewrite Z.add_0_r. by destruct st.
  - apply bracket_free_cons in Hfree as (Ho & Hc & Hfree).
    rewrite layout_chars_cons. unfold layout_char. rewrite Ho, Hc.
    unfold other_char. rewrite Hout. change (CHORD_OUT =? CHORD_IN) with false.
    cbv iota. rewrite bind_Ok, IH by done.
    cbn [inside_chord chord chord_pad prev_chord_len chord_line text_line].
    rewrite str_app_assoc, str_app_cons, str_app_nil_l.
    replace (chord_pad st + 1 + len t) with (chord_pad st + len (String c t))
      by (unfold len; cbn [String.length]; lia).
    reflexivity.
Qed.

(** A run of characters inside a chord goes to [chord]. *)
Lemma layout_chord st ch m :
  inside_chord st = CHORD_IN → chord st = Some ch → bracket_free m →
  layout_chars st m
  = Ok {| inside_chord := inside_chord st; chord := Some (ch +:+ m);
          chord_pad := chord_pad st; prev_chord_len := prev_chord_len st;
          chord_line := chord_line st; text_line := text_line st |}.
Proof.
  revert st ch. induction m as [|c m IH]; intros st ch Hin Hch Hfree.
  - cbn [layout_chars]. rewrite str_app_nil_r, <- Hch. by destruct st.
  - apply bracket_free_cons in Hfree as (Ho & Hc & Hfree).
    rewrite layout_chars_cons. unfold layout_char. rewrite Ho, Hc.
    unfold other_char. rewrite Hin, Hch. change (CHORD_IN =? CHORD_IN) with true.
    cbv iota. rewrite bind_Ok, (IH _ (ch +:+ String c EmptyString)) by done.
    cbn [inside_chord chord chord_pad prev_chord_len chord_line text_line].
    by rewrite str_app_assoc, str_app_cons, str_app_nil_l.
Qed.

(** X17: a line without brackets is laid out as itself: one line of output,
    no chord line, and [chord] is left as it was. *)
Theorem layout_plain_line (chord0 : option string) (line : string) :
  bracket_free line →
  layout_line chord0 line = Ok (line +:+ newline, chord0).
Proof.
  intros Hfree. unfold layout_line.
  rewrite layout_text by done. rewrite bind_Ok. unfold layout_out.
  cbn [line_start inside_chord chord chord_pad prev_chord_len chord_line
       text_line]. by rewrite str_app_nil_l.
Qed.

Lemma layout_plain_line_witness :
  layout_line None "Hello world" = Ok ("Hello world" +:+ newline, None).
Proof. apply (layout_plain_line None "Hello world"). split; reflexivity. Defined.

(** X18: a closing bracket that no opening bracket of the file came before
    reads [chord] unbound: the line raises [UnboundLocalError], whatever
    follows the bracket. *)
Theorem stray_close_raises (text rest : string) :
  bracket_free text →
  layout_line None (text +:+ "]" +:+ rest) = Raise UnboundLocalError.
Proof.
  intros Hfree. unfold layout_line.
  rewrite layout_chars_app, layout_text by done. rewrite bind_Ok.
  rewrite str_app_cons, str_app_nil_l, layout_chars_cons.
  unfold layout_char. change (Ascii.eqb "]" "[") with false.
  change (Ascii.eqb "]" "]") with true. cbv iota.
  unfold close_chord. cbn [chord line_start]. done.
Qed.

Lemma stray_close_raises_witness :
  layout_line None ("a" +:+ "]" +:+ "b[C]") = Raise UnboundLocalError.
Proof. apply (stray_close_raises "a" "b[C]"). split; reflexivity. Defined.

(** *** Chords over their text *)

Lemma open_chord_grows st :
  ∃ padC padT,
    open_chord st
    = {| inside_chord := CHORD_IN; chord := Some EmptyString;
         chord_pad := chord_pad st; prev_chord_len := prev_chord_len st;
         chord_line := chord_line st +:+ padC;
         text_line := text_line st +:+ padT |}
    ∧ (aligned st →
       len (chord_line st +:+ padC) = len (text_line st +:+ padT)
       ∧ (0 < prev_chord_len st → ∃ r, padC = String " " r)).
Proof.
  unfold open_chord.
  destruct (negb (prev_chord_len st =? 0) && (chord_pad st <=? prev_chord_len st))
    eqn:HA.
  - apply andb_prop in HA as [Hprev Hpad].
    apply negb_true_iff, Z.eqb_neq in Hprev. apply Z.leb_le in Hpad.
    destruct (Z.ltb_spec (prev_chord_len st) (chord_pad st)) as [?|_]; [lia|].
    set (l := prev_chord_len st - chord_pad st + 1).
    assert (1 ≤ l) as Hl by (unfold l; lia).
    destruct (String.eqb (text_line st) EmptyString || ends_with_space (text_line st)).
    + exists " ", (str_mul " " l). split; [done|]. intros (_ & Hp & Hq & Heq).
      split; [|by eexists]. rewrite !len_app, len_str_mul.
      change (len " ") with 1. unfold l. lia.
    + destruct (negb (l `mod` 2 =? 0)) eqn:Hodd.
      * exists " ", (str_mul " " (l `div` 2) +:+ "-" +:+ str_mul " " (l `div` 2)).
        split; [by rewrite !str_app_assoc|]. intros (_ & Hp & Hq & Heq).
        split; [|by eexists]. rewrite !len_app, !len_str_mul.
        change (len " ") with 1. change (len "-") with 1.
        apply negb_true_iff, Z.eqb_neq in Hodd.
        pose proof (Z.div_mod l 2 ltac:(lia)) as Hdm.
        pose proof (Z.mod_pos_bound l 2 ltac:(lia)) as Hm.
        unfold l in *. lia.
      * exists " ",
          (str_mul " " (l `div` 2 - 1) +:+ "-" +:+ str_mul " " (l `div` 2)).
        split; [by rewrite !str_app_assoc|]. intros (_ & Hp & Hq & Heq).
        split; [|by eexists]. rewrite !len_app, !len_str_mul.
        change (len " ") with 1. change (len "-") with 1.
        apply negb_false_iff, Z.eqb_eq in Hodd.
        pose proof (Z.div_mod l 2 ltac:(lia)) as Hdm.
        unfold l in *. lia.
  - destruct (Z.ltb_spec (prev_chord_len st) (chord_pad st)) as [Hlt|Hge].
    + exists (str_mul " " (chord_pad st - prev_chord_len st)), EmptyString.
      split; [by rewrite str_app_nil_r|]. intros (_ & Hp & Hq & Heq).
      split; [|intros _; apply str_mul_pos; lia].
      rewrite !len_app, len_str_mul. change (len EmptyString) with 0. lia.
    + exists EmptyString, EmptyString. split; [by rewrite !str_app_nil_r|].
      intros (_ & Hp & Hq & Heq).
      apply andb_false_iff in HA as [HA|HA].
      * apply negb_false_iff, Z.eqb_eq in HA. split; [|lia].
        rewrite !len_app. change (len EmptyString) with 0. lia.
      * apply Z.leb_gt in HA. lia.
Qed.

Lemma layout_open st s :
  layout_chars st ("[" +:+ s) = layout_chars (open_chord st) s.
Proof. by rewrite str_app_cons, str_app_nil_l. Qed.

Lemma layout_close st ch s :
  chord st = Some ch →
  layout_chars st ("]" +:+ s)
  = layout_chars
      {| inside_chord := CHORD_OUT; chord := Some EmptyString;
         chord_pad := 0; prev_chord_len := len ch;
         chord_line := chord_line st +:+ ch; text_line := text_line st |} s.
Proof.
  intros Hch. rewrite str_app_cons, str_app_nil_l, layout_chars_cons.
  unfold layout_char. change (Ascii.eqb "]" "[") with false.
  change (Ascii.eqb "]" "]") with true. cbv iota.
  unfold close_chord. by rewrite Hch.
Qed.

(** One chord in its brackets, from an aligned state. *)
Lemma layout_bracket st m s :
  aligned st → bracket_free m →
  ∃ C T st',
    layout_chars st ("[" +:+ m +:+ "]" +:+ s) = layout_chars st' s
    ∧ aligned st'
    ∧ chord_line st' = C +:+ m ∧ text_line st' = T
    ∧ len C = len T
    ∧ (∃ padC, C = chord_line st +:+ padC
               ∧ (0 < prev_chord_len st → ∃ r, padC = String " " r))
    ∧ (∃ padT, T = text_line st +:+ padT)
    ∧ prev_chord_len st' = len m ∧ chord_pad st' = 0
    ∧ chord st' = Some EmptyString.
Proof.
  intros Hal Hm.
  destruct (open_chord_grows st) as (padC & padT & Hopen & Hlen).
  destruct (Hlen Hal) as [Heq Hspace].
  exists (chord_line st +:+ padC), (text_line st +:+ padT).
  eexists. split.
  - rewrite layout_open, layout_chars_app, Hopen.
    rewrite (layout_chord _ EmptyString) by done.
    rewrite bind_Ok, str_app_nil_l.
    by rewrite (layout_close _ m).
  - cbn [inside_chord chord chord_pad prev_chord_len chord_line text_line].
    split.
    { unfold aligned.
      cbn [inside_chord chord chord_pad prev_chord_len chord_line text_line].
      split; [done|]. split; [done|]. split; [apply len_nonneg|].
      rewrite (len_app _ m). lia. }
    split; [done|]. split; [done|]. split; [done|].
    split; [by exists padC|]. split; [by exists padT|]. done.
Qed.

Lemma aligned_text st t :
  aligned st →
  aligned {| inside_chord := inside_chord st; chord := chord st;
             chord_pad := chord_pad st + len t;
             prev_chord_len := prev_chord_len st;
             chord_line := chord_line st;
             text_line := text_line st +:+ t |}.
Proof.
  intros (Hout & Hp & Hq & Heq). unfold aligned.
  cbn [inside_chord chord chord_pad prev_chord_len chord_line text_line].
  pose proof (len_nonneg t). rewrite len_app. repeat split; [done|lia..].
Qed.

(** A well-bracketed prefix keeps the state aligned. *)
Lemma layout_segments segments : ∀ st s,
  Forall bracket_free segments → aligned st →
  ∃ st', layout_chars st (unsplit segments +:+ s) = layout_chars st' s
         ∧ aligned st'.
Proof.
  induction segments as [|text|text m segments IH] using pairs_ind;
    intros st s Hfree Hal.
  - exists st. by rewrite str_app_nil_l.
  - apply Forall_cons in Hfree as [Ht _]. eexists. split.
    + cbn [unsplit]. rewrite layout_chars_app.
      rewrite layout_text by (done || apply Hal). by rewrite bind_Ok.
    + by apply aligned_text.
  - apply Forall_cons in Hfree as [Ht [Hm Hrest]%Forall_cons].
    cbn [unsplit]. rewrite !str_app_assoc, layout_chars_app.
    rewrite layout_text by (done || apply Hal). rewrite bind_Ok.
    destruct (layout_bracket _ m (unsplit segments +:+ s)
                (aligned_text st text Hal) Hm)
      as (C & T & st1 & Hrun & Hal1 & _).
    change ("[" +:+ m +:+ "]" +:+ unsplit segments +:+ s)
      with ("[" +:+ m +:+ "]" +:+ (unsplit segments +:+ s)).
    rewrite Hrun. by apply IH.
Qed.

(** Once [chord] is bound the loop raises nothing, and it only ever adds
    to the two lines. *)
Lemma layout_chars_grows s : ∀ st,
  is_Some (chord st) →
  ∃ st' C' T',
    layout_chars st s = Ok st'
    ∧ chord_line st' = chord_line st +:+ C'
    ∧ text_line st' = text_line st +:+ T'.
Proof.
  induction s as [|c s IH]; intros st [ch Hch].
  - exists st, EmptyString, EmptyString. by rewrite !str_app_nil_r.
  - rewrite layout_chars_cons. unfold layout_char.
    destruct (Ascii.eqb c "[").
    + rewrite bind_Ok.
      destruct (open_chord_grows st) as (padC & padT & Hopen & _).
      destruct (IH (open_chord st)) as (st' & C' & T' & -> & HC & HT);
        [by rewrite Hopen|].
      rewrite Hopen in HC, HT. cbn [chord_line text_line] in HC, HT.
      exists st', (padC +:+ C'), (padT +:+ T').
      by rewrite HC, HT, !str_app_assoc.
    + destruct (Ascii.eqb c "]").
      * unfold close_chord. rewrite Hch, bind_Ok.
        edestruct IH as (st' & C' & T' & -> & HC & HT); [by eexists|].
        cbn [chord_line text_line] in HC, HT.
        exists st', (ch +:+ C'), T'. by rewrite HC, HT, !str_app_assoc.
      * unfold other_char. rewrite Hch.
        destruct (inside_chord st =? CHORD_IN); rewrite bind_Ok.
        -- edestruct IH as (st' & C' & T' & -> & HC & HT); [by eexists|].
           cbn [chord_line text_line] in HC, HT. by exists st', C', T'.
        -- edestruct IH as (st' & C' & T' & -> & HC & HT); [by eexists|].
           cbn [chord_line text_line] in HC, HT.
           exists st', C', (String c EmptyString +:+ T').
           by rewrite HC, HT, !str_app_assoc.
Qed.

Lemma bracket_head_dec rest :
  (∃ rest', rest = "[" +:+ rest') ∨ (∀ rest', rest ≠ "[" +:+ rest').
Proof.
  destruct rest as [|c rest]; [by right|].
  destruct (Ascii.eqb_spec c "[") as [->|Hc].
  - left. by exists rest.
  - right. intros rest'. rewrite str_app_cons, str_app_nil_l. congruence.
Qed.

Lemma aligned_start chord0 : aligned (line_start chord0).
Proof. unfold aligned, line_start. cbn. done. Qed.

Lemma len_eq a b : len a = len b → String.length a = String.length b.
Proof. unfold len. lia. Qed.

(** X19: in a line whose brackets are matched up to a chord, the chord
    stands in the chord line at the column at which the text that follows
    it stands in the text line; nothing is raised, whatever comes after;
    and when the next chord follows, a space separates it from a chord
    that is not empty. *)
Theorem chord_over_text (chord0 : option string) (segments : list string)
    (m t rest : string) :
  Forall bracket_free segments → bracket_free m → bracket_free t →
  ∃ st C C' T T',
    layout_chars (line_start chord0)
                 (unsplit segments +:+ "[" +:+ m +:+ "]" +:+ t +:+ rest)
      = Ok st
    ∧ chord_line st = C +:+ m +:+ C'
    ∧ text_line st = T +:+ t +:+ T'
    ∧ String.length C = String.length T
    ∧ (m ≠ EmptyString → ∀ rest', rest = "[" +:+ rest' →
       ∃ C'', C' = String " " C'').
Proof.
  intros Hsegs Hm Ht.
  destruct (layout_segments segments (line_start chord0)
              ("[" +:+ m +:+ "]" +:+ t +:+ rest) Hsegs (aligned_start chord0))
    as (st0 & -> & Hal0).
  destruct (layout_bracket st0 m (t +:+ rest) Hal0 Hm)
    as (C & T & st1 & -> & Hal1 & HC & HT & Hlen & _ & _ & Hprev & Hpad & Hch).
  rewrite layout_chars_app, layout_text by (done || apply Hal1).
  rewrite bind_Ok.
  set (st2 := {| inside_chord := inside_chord st1; chord := chord st1;
                 chord_pad := chord_pad st1 + len t;
                 prev_chord_len := prev_chord_len st1;
                 chord_line := chord_line st1;
                 text_line := text_line st1 +:+ t |}).
  assert (aligned st2) as Hal2 by by apply aligned_text.
  assert (is_Some (chord (open_chord st2))) as Hbound.
  { destruct (open_chord_grows st2) as (? & ? & -> & _). by eexists. }
  destruct (bracket_head_dec rest) as [[rest' ->]|Hother].
  - rewrite layout_open.
    destruct (open_chord_grows st2) as (padC & padT & Hopen & Hgrow).
    destruct (Hgrow Hal2) as [_ Hspace].
    destruct (layout_chars_grows rest' (open_chord st2) Hbound)
      as (st & C' & T' & -> & HC' & HT').
    rewrite Hopen in HC', HT'. cbn [chord_line text_line st2] in HC', HT'.
    exists st, C, (padC +:+ C'), T, (padT +:+ T').
    split; [done|]. rewrite HC', HT', HC, HT, !str_app_assoc.
    split; [done|]. split; [done|]. split; [by apply len_eq|].
    intros Hne rest'' _. destruct Hspace as [r ->].
    + cbn [prev_chord_len st2]. rewrite Hprev. unfold len.
      destruct m; [done|]. cbn [String.length]. lia.
    + rewrite str_app_cons. by eexists.
  - destruct (layout_chars_grows rest st2) as (st & C' & T' & -> & HC' & HT').
    { cbn [chord st2]. by rewrite Hch. }
    cbn [chord_line text_line st2] in HC', HT'.
    exists st, C, C', T, T'.
    split; [done|]. rewrite HC', HT', HC, HT, !str_app_assoc.
    split; [done|]. split; [done|]. split; [by apply len_eq|].
    intros _ rest' Hrest. by destruct (Hother rest').
Qed.

Lemma chord_over_text_witness :
  ∃ st C C' T T',
    layout_chars (line_start None)
                 (unsplit ["Hello, "] +:+ "[" +:+ "Dsus4" +:+ "]" +:+ "why"
                  +:+ "[Em]not")
      = Ok st
    ∧ chord_line st = C +:+ "Dsus4" +:+ C'
    ∧ text_line st = T +:+ "why" +:+ T'
    ∧ String.length C = String.length T
    ∧ ("Dsus4" ≠ EmptyString → ∀ rest', "[Em]not" = "[" +:+ rest' →
       ∃ C'', C' = String " " C'').
Proof.
  apply (chord_over_text None ["Hello, "] "Dsus4" "why" "[Em]not").
  - repeat constructor.
  - split; reflexivity.
  - split; reflexivity.
Defined.

(** *** Brackets that are not matched *)

(** X20: an opening bracket that nothing closes takes the rest of the line
    out of the output: the rest is kept in [chord], the text before the
    bracket is printed, under a line of as many spaces when it is not
    empty; and a closing bracket at the head of the next line puts what
    was kept over that line. *)
Theorem unterminated_bracket_carried (chord0 : option string)
    (text post text' : string) :
  bracket_free text → bracket_free post → bracket_free text' →
  layout_line chord0 (text +:+ "[" +:+ post)
  = Ok ((if String.eqb text EmptyString then EmptyString
         else str_mul " " (len text) +:+ newline) +:+ text +:+ newline,
        Some post)
  ∧ layout_line (Some post) ("]" +:+ text')
    = Ok ((if String.eqb post EmptyString then EmptyString
           else post +:+ newline) +:+ text' +:+ newline,
          Some EmptyString).
Proof.
  intros Htext Hpost Htext'. split.
  - unfold layout_line. rewrite layout_chars_app, layout_text by done.
    rewrite bind_Ok, layout_open. unfold open_chord.
    cbn [line_start inside_chord chord chord_pad prev_chord_len chord_line
         text_line].
    change (negb (0 =? 0) && (0 + len text <=? 0)) with (false && (0 + len text <=? 0)).
    cbn [andb]. rewrite !str_app_nil_l.
    rewrite (layout_chord _ EmptyString) by done.
    rewrite bind_Ok, !str_app_nil_l. unfold layout_out.
    cbn [inside_chord chord chord_pad prev_chord_len chord_line text_line].
    destruct text as [|c text].
    + change (0 <? 0 + len EmptyString) with false. cbv iota. done.
    + destruct (Z.ltb_spec 0 (0 + len (String c text))) as [_|Hle].
      2:{ unfold len in Hle. cbn [String.length] in Hle. lia. }
      rewrite Z.add_0_l, Z.sub_0_r.
      destruct (str_mul_pos (len (String c text))) as [r Hr].
      { unfold len. cbn [String.length]. lia. }
      rewrite Hr. cbn [String.eqb negb]. by rewrite !str_app_assoc.
  - unfold layout_line. rewrite (layout_close _ post) by done.
    rewrite layout_text by done. rewrite bind_Ok. unfold layout_out.
    cbn [line_start inside_chord chord chord_pad prev_chord_len chord_line
         text_line]. rewrite !str_app_nil_l.
    destruct post; [done|]. cbn [String.eqb negb]. by rewrite !str_app_assoc.
Qed.

Lemma unterminated_bracket_carried_witness :
  layout_line None ("abc" +:+ "[" +:+ "Em")
  = Ok ((if String.eqb "abc" EmptyString then EmptyString
         else str_mul " " (len "abc") +:+ newline) +:+ "abc" +:+ newline,
        Some "Em")
  ∧ layout_line (Some "Em") ("]" +:+ "xy")
    = Ok ((if String.eqb "Em" EmptyString then EmptyString
           else "Em" +:+ newline) +:+ "xy" +:+ newline,
          Some EmptyString).
Proof.
  apply (unterminated_bracket_carried None "abc" "Em" "xy"); split; reflexivity.
Defined.

(** ** The rows of the table *)

Lemma imap_insert_step {A : Type} (f g : nat → A → A) (l : list A) k x v :
  l !! k = Some x → g k x = v →
  (∀ i y, i ≠ k → l !! i = Some y → g i y = f i y) →
  <[k := v]> (imap f l) = imap g l.
Proof.
  intros Hx <- Hfg. apply list_eq. intros i.
  destruct (decide (i = k)) as [->|Hi].
  - rewrite list_lookup_insert_eq
      by (rewrite length_imap; by eapply lookup_lt_Some).
    by rewrite list_lookup_imap, Hx.
  - rewrite list_lookup_insert_ne by done. rewrite !list_lookup_imap.
    destruct (l !! i) as [y|] eqn:Hy; [|done]. cbn. f_equal.
    symmetry. by apply Hfg.
Qed.

Lemma pad_cells_steps (chords text : list string) (m : nat) : ∀ k,
  (k + m = length (zip chords text))%nat →
  let n := length (zip chords text) in
  let rows (b : nat) :=
    (imap (λ i c, if (i <? b)%nat then c +:+ " " else c) chords,
     imap (λ i t, if (i <? b)%nat
                     && (len t <? len (default EmptyString (chords !! i)))
                  then t +:+ " -" else t) text,
     b) in
  foldM (pad_cells (Z.of_nat n)) (rows (k `min` (n - 1))%nat)
        (drop k (zip chords text))
  = Ok (rows (n - 1)%nat).
Proof.
  cbv zeta. remember (length (zip chords text)) as n eqn:Hn.
  set (rows := λ b : nat,
    (imap (λ i c, if (i <? b)%nat then c +:+ " " else c) chords,
     imap (λ i t, if (i <? b)%nat
                     && (len t <? len (default EmptyString (chords !! i)))
                  then t +:+ " -" else t) text,
     b)).
  induction m as [|m IH]; intros k Hk.
  - replace k with n by lia. rewrite drop_ge by (rewrite <- Hn; lia).
    cbn [foldM].
    by replace (n `min` (n - 1))%nat with (n - 1)%nat by lia.
  - assert (k < n)%nat as Hlt by lia.
    destruct (lookup_lt_is_Some_2 (zip chords text) k) as [[c t] Hct];
      [by rewrite <- Hn|].
    pose proof Hct as Hct'.
    apply lookup_zip_with_Some in Hct' as (c' & t' & [= <- <-] & Hc & Ht).
    rewrite (drop_S _ _ _ Hct). cbn [foldM].
    replace (k `min` (n - 1))%nat with k by lia.
    specialize (IH (S k) ltac:(lia)).
    unfold rows at 1. cbn [pad_cells].
    destruct (Z.ltb_spec (Z.of_nat k) (Z.of_nat n - 1)) as [Hin|Hlast].
    + replace (S k `min` (n - 1))%nat with (S k) in IH by lia.
      rewrite <- IH. unfold rows, nth_or_raise.
      rewrite !list_lookup_imap, Hc, Ht.
      cbn [fmap option_fmap option_map].
      rewrite Nat.ltb_irrefl. cbn [andb].
      assert ((k <? S k)%nat = true) as Hk' by (apply Nat.ltb_lt; lia).
      assert (∀ i, i ≠ k → (i <? S k)%nat = (i <? k)%nat) as Hne.
      { intros i Hi.
        destruct (Nat.ltb_spec i k), (Nat.ltb_spec i (S k)); (done || lia). }
      destruct (len t <? len c) eqn:Hshort; rewrite !bind_Ok; do 2 f_equal.
      * f_equal.
        -- apply (imap_insert_step _ (λ i c, if (i <? S k)%nat then c +:+ " " else c)
                       _ _ c);
             [done|by rewrite Hk'|]. intros i y Hi _. by rewrite (Hne i Hi).
        -- apply (imap_insert_step _
             (λ i t, if (i <? S k)%nat
                        && (len t <? len (default EmptyString (chords !! i)))
                     then t +:+ " -" else t) _ _ t); [done| |].
           ++ rewrite Hk', Hc. cbn [default from_option id andb]. by rewrite Hshort.
           ++ intros i y Hi _. by rewrite (Hne i Hi).
      * f_equal.
        -- apply (imap_insert_step _ (λ i c, if (i <? S k)%nat then c +:+ " " else c)
                       _ _ c);
             [done|by rewrite Hk'|]. intros i y Hi _. by rewrite (Hne i Hi).
        -- apply imap_ext. intros i y Hy. destruct (decide (i = k)) as [->|Hi].
           ++ rewrite Hk', Nat.ltb_irrefl, Hc. cbn [default from_option id andb].
              assert (y = t) as -> by congruence. by rewrite Hshort.
           ++ by rewrite (Hne i Hi).
    + replace (S k `min` (n - 1))%nat with k in IH by lia.
      rewrite bind_Ok. apply IH.
Qed.

Lemma make_pdf_table_eq chords text :
  make_pdf_table chords text = Ok (padded_rows chords text).
Proof.
  unfold make_pdf_table.
  pose proof (pad_cells_steps chords text (length (zip chords text)) O eq_refl)
    as Hrun. cbv zeta beta in Hrun. rewrite drop_0 in Hrun.
  replace (0 `min` (length (zip chords text) - 1))%nat with O in Hrun by lia.
  assert (imap (λ (i : nat) (c : string), if (i <? 0)%nat then c +:+ " " else c)
               chords = chords) as Hc.
  { apply list_eq. intros i. rewrite list_lookup_imap.
    by destruct (chords !! i). }
  assert (imap (λ (i : nat) (t : string),
                  if (i <? 0)%nat
                     && (len t <? len (default EmptyString (chords !! i)))
                  then t +:+ " -" else t) text = text) as Ht.
  { apply list_eq. intros i. rewrite list_lookup_imap.
    by destruct (text !! i). }
  rewrite Hc, Ht in Hrun. rewrite Hrun, bind_Ok. cbn [fst snd].
  unfold padded_rows. f_equal. f_equal.
  - apply imap_ext. intros i c _.
    destruct (Nat.ltb_spec i (length (zip chords text) - 1)),
             (Z.ltb_spec (Z.of_nat i) (Z.of_nat (length (zip chords text)) - 1));
      (done || lia).
  - apply imap_ext. intros i t _.
    destruct (Nat.ltb_spec i (length (zip chords text) - 1)),
             (Z.ltb_spec (Z.of_nat i) (Z.of_nat (length (zip chords text)) - 1));
      (done || lia).
Qed.

(** X21: [make_pdf_table] raises nothing and leaves the two rows cell by
    cell as follows: every chord of a pair but the last pair gets a space
    after it, the text under it gets [ -] after it when it is shorter
    than the chord as it was, and the last pair and the cells that have
    no partner are left as they are. *)
Theorem make_pdf_table_rows (chords text : list string) :
  make_pdf_table chords text = Ok (padded_rows chords text)
  ∧ length (padded_rows chords text).1 = length chords
  ∧ length (padded_rows chords text).2 = length text.
Proof.
  split; [apply make_pdf_table_eq|]. unfold padded_rows. cbn [fst snd].
  by rewrite !length_imap.
Qed.

Lemma startswith_bracket line :
  startswith "[" line = true ↔ ∃ s, line = String "[" s.
Proof.
  unfold startswith. destruct line as [|c s]; cbn [String.prefix].
  - split; [done|]. by intros [? ?].
  - destruct (ascii_dec "[" c) as [<-|Hc].
    + split; [by eexists|]. intros _. by destruct s.
    + split; [done|]. intros [s' [= ? ?]]. congruence.
Qed.

Lemma split_line_items line :
  length (even_items (split_line line)) = S (length (odd_items (split_line line)))
  ∧ length (even_items (drop 2 (split_line line)))
    = length (odd_items (split_line line)).
Proof.
  apply (split_line_ind (λ _ segments,
    length (even_items segments) = S (length (odd_items segments))
    ∧ length (even_items (drop 2 segments)) = length (odd_items segments))).
  - done.
  - intros pre m rest _ _ [Heven _]. cbn [even_items odd_items drop length].
    by rewrite Heven.
Qed.

Lemma split_line_no_close line :
  contains "]" line = false → split_line line = [line].
Proof.
  intros Hline.
  destruct (split_line_app_no_close line Hline EmptyString)
    as (segments & text & Hempty & Hsplit).
  rewrite str_app_nil_l in Hsplit. rewrite Hsplit.
  rewrite split_line_eq in Hempty. cbn in Hempty.
  destruct segments as [|? [|? ?]]; [|done..].
  cbn in Hempty. injection Hempty as <-. by rewrite str_app_nil_l.
Qed.

Lemma split_line_open_head s :
  contains "]" s = true → head (split_line (String "[" s)) = Some EmptyString.
Proof.
  intros Hs. rewrite split_line_eq, re_search_bracket. cbn [bracket_at].
  change (is_char "[" "[") with true. cbv iota.
  destruct (span (not_char "]") s).2 as [|c r] eqn:Hspan; [|done].
  apply span_snd_nil_contains in Hspan. congruence.
Qed.

Lemma even_items_drop_2 {A : Type} (l : list A) :
  even_items (drop 2 l) = tail (even_items l).
Proof. by destruct l as [|? [|? ?]]. Qed.

Lemma padded_rows_lookup chords text i c t :
  length chords = length text →
  chords !! i = Some c → text !! i = Some t →
  (padded_rows chords text).1 !! i
  = Some (if bool_decide (S i < length chords)%nat then c +:+ " " else c)
  ∧ (padded_rows chords text).2 !! i
    = Some (if bool_decide (S i < length chords)%nat && (len t <? len c)
            then t +:+ " -" else t).
Proof.
  intros Hlen Hc Ht. unfold padded_rows. cbn [fst snd].
  rewrite !list_lookup_imap, Hc, Ht. cbn [fmap option_fmap option_map default
    from_option id].
  rewrite length_zip_with, <- Hlen, Nat.min_id.
  assert ((Z.of_nat i <? Z.of_nat (length chords) - 1)
          = bool_decide (S i < length chords)%nat) as ->.
  { destruct (Z.ltb_spec (Z.of_nat i) (Z.of_nat (length chords) - 1));
      [rewrite bool_decide_eq_true_2|rewrite bool_decide_eq_false_2];
      (done || lia). }
  done.
Qed.

(** X22: the two rows built for a line are the segments of the splitter,
    cell by cell.  The chord row is the chord segments, after one empty
    cell when the line does not start with an opening bracket; the text
    row is the text segments, the first one, which is empty, left out
    when the line starts with a chord.  Both rows have the same number of
    cells; every chord cell but the last is its segment with a space
    after it, and the last is its segment; every text cell is its
    segment, with [ -] after it when the cell is not the last and the
    segment is shorter than the chord segment above it.  A line that
    starts with an opening bracket which nothing closes gives two empty
    rows, so its text is in no cell. *)
Theorem table_rows_shape (line : string) :
  let parts := split_line line in
  let chords0 :=
    if startswith "[" line then odd_items parts
    else EmptyString :: odd_items parts in
  let text0 :=
    if startswith "[" line then tail (even_items parts)
    else even_items parts in
  ∃ chords text,
    table_rows line = Ok (chords, text)
    ∧ length chords = length chords0
    ∧ length text = length text0
    ∧ length chords = length text
    ∧ (∀ i, (i < length chords)%nat →
         ∃ c t, chords0 !! i = Some c ∧ text0 !! i = Some t
           ∧ chords !! i
             = Some (if bool_decide (S i < length chords)%nat
                     then c +:+ " " else c)
           ∧ text !! i
             = Some (if bool_decide (S i < length chords)%nat
                        && (len t <? len c)
                     then t +:+ " -" else t))
    ∧ (startswith "[" line = true →
       if contains "]" line then head (even_items parts) = Some EmptyString
       else parts = [line] ∧ chords = [] ∧ text = []).
Proof.
  intros parts chords0 text0.
  destruct (split_line_items line) as [Heven Hdrop].
  assert (table_rows line = Ok (padded_rows chords0 text0)) as Hrun.
  { unfold table_rows, chords0, text0, parts.
    destruct (startswith "[" line); rewrite make_pdf_table_eq;
      [by rewrite even_items_drop_2|done]. }
  assert (length chords0 = length text0) as Hlen.
  { unfold chords0, text0, parts. destruct (startswith "[" line).
    - rewrite <- even_items_drop_2. lia.
    - cbn [length]. lia. }
  assert (length (padded_rows chords0 text0).1 = length chords0
          ∧ length (padded_rows chords0 text0).2 = length text0) as [Hlc Hlt]
    by (unfold padded_rows; cbn [fst snd]; by rewrite !length_imap).
  exists (padded_rows chords0 text0).1, (padded_rows chords0 text0).2.
  split; [by destruct (padded_rows chords0 text0)|].
  split; [done|]. split; [done|]. split; [lia|]. split.
  - intros i Hi. rewrite Hlc in Hi |- *.
    destruct (lookup_lt_is_Some_2 chords0 i Hi) as [c Hc].
    destruct (lookup_lt_is_Some_2 text0 i) as [t Ht]; [lia|].
    exists c, t. split; [done|]. split; [done|].
    by apply padded_rows_lookup.
  - intros Hstart. pose proof Hstart as [s Hs]%startswith_bracket.
    destruct (contains "]" line) eqn:Hclose.
    + rewrite Hs in Hclose. pose proof (split_line_open_head s Hclose) as Hhead.
      unfold parts. rewrite Hs.
      by destruct (split_line (String "[" s)) as [|? [|? ?]].
    + pose proof (split_line_no_close _ Hclose) as Hparts.
      split; [done|]. revert Hlc Hlt. unfold chords0, text0, parts.
      rewrite Hstart, Hparts. cbn [odd_items even_items tail length].
      by destruct (padded_rows _ _) as [[|? ?] [|? ?]].
Qed.

(** The rows of three lines: text under chords, a text shorter than its
    chord, and an opening bracket that nothing closes. *)
Example table_rows_examples :
  table_rows "[C]Hello [G]world" = Ok (["C "; "G"], ["Hello "; "world"])
  ∧ table_rows "a[Cmaj7]b[G]c" = Ok ([" "; "Cmaj7 "; "G"], ["a"; "b -"; "c"])
  ∧ table_rows "x[Am]" = Ok ([" "; "Am"], ["x"; ""])
  ∧ table_rows "[Em" = Ok ([], []).
Proof. repeat split; vm_compute; reflexivity. Qed.

(** ** The counting pass counts every chord once *)

Lemma count_key_inj i m j m' :
  0 ≤ i < 12 → 0 ≤ j < 12 → count_key i m = count_key j m' → i = j ∧ m = m'.
Proof.
  intros Hi Hj. each_offset i Hi; each_offset j Hj; destruct m, m';
    intros H; vm_compute in H; first [discriminate H | (split; reflexivity)].
Qed.

Lemma tally_snoc chords chord i minor :
  tally (chords ++ [chord]) i minor
  = tally chords i minor
    + (if decide (chord_key chord = Some (i, minor)) then 1 else 0).
Proof.
  unfold tally. rewrite filter_app, length_app, filter_cons, filter_nil.
  case_decide; cbn [length]; lia.
Qed.

Lemma tally_app chords1 chords2 i minor :
  tally (chords1 ++ chords2) i minor
  = tally chords1 i minor + tally chords2 i minor.
Proof. unfold tally. rewrite filter_app, length_app. lia. Qed.

Lemma tallied_zero : tallied zero_counts [].
Proof.
  split; [apply zero_counts_histogram|]. intros i minor Hi.
  rewrite zero_counts_at by done. unfold tally. by rewrite filter_nil.
Qed.

Lemma count_chord_tally (done : list (gmap string Z)) cur g chord st' :
  tallied cur g →
  count_chord (done ++ [cur], length done) chord = Ok st' →
  ∃ cur', st' = (done ++ [cur'], length done) ∧ tallied cur' (g ++ [chord]).
Proof.
  intros [Hhist Htally]. unfold count_chord, nth_or_raise.
  destruct (Chord_init chord) as [c| |] eqn:Hc; [|done..]. rewrite bind_Ok.
  rewrite list_lookup_middle by done. rewrite bind_Ok.
  destruct (chord_to_offset !! root c) as [o|] eqn:Ho;
    [|by rewrite (dict_get_None _ _ Ho)].
  rewrite (dict_get_Some _ _ _ Ho), bind_Ok.
  pose proof (offsets_in_range _ _ Ho) as Hrange.
  destruct (Hhist o (minor c) Hrange) as (n & Hn & Hpos).
  rewrite (dict_get_Some _ _ _ Hn), bind_Ok. intros [= <-].
  exists (<[count_key o (minor c) := n + 1]> cur). split.
  - f_equal. rewrite insert_app_r_alt by lia.
    by replace (length done - length done)%nat with O by lia.
  - destruct (histogram_insert cur o (minor c) n Hhist Hrange Hn) as (H1 & _).
    split; [done|]. intros i m Hi. rewrite tally_snoc, <- Htally by done.
    unfold chord_key. rewrite Hc, Ho. cbn [mbind option_bind].
    unfold count_at. rewrite lookup_insert. case_decide as Hkey.
    + apply count_key_inj in Hkey as [<- <-]; [|done..].
      rewrite decide_True by done. rewrite Hn. cbn. lia.
    + rewrite decide_False; [lia|]. intros [= Ho' Hm']. apply Hkey.
      by rewrite Ho', Hm'.
Qed.

Lemma count_chords_tally chords : ∀ (done : list (gmap string Z)) cur g st',
  tallied cur g →
  foldM count_chord (done ++ [cur], length done) chords = Ok st' →
  ∃ cur', st' = (done ++ [cur'], length done) ∧ tallied cur' (g ++ chords).
Proof.
  induction chords as [|chord chords IH]; intros done cur g st' Hcur.
  - cbn [foldM]. intros [= <-]. exists cur. by rewrite app_nil_r.
  - cbn [foldM].
    destruct (count_chord (done ++ [cur], length done) chord) as [st1| |] eqn:Hstep;
      [|done..].
    rewrite bind_Ok.
    destruct (count_chord_tally _ _ _ _ _ Hcur Hstep) as (cur1 & -> & Hcur1).
    intros Hrest. destruct (IH _ _ _ _ Hcur1 Hrest) as (cur' & -> & Hcur').
    exists cur'. by rewrite <- app_assoc in Hcur'.
Qed.

Lemma count_lines_tally text : ∀ (done : list (gmap string Z)) cur gdone g st',
  Forall2 tallied done gdone → tallied cur g →
  foldM count_line (done ++ [cur], length done) text = Ok st' →
  Forall2 tallied st'.1 (gdone ++ paragraph_chords_from g text).
Proof.
  induction text as [|line text IH]; intros done cur gdone g st' Hdone Hcur.
  - cbn [foldM paragraph_chords_from]. intros [= <-]. cbn [fst].
    apply Forall2_app; [done|]. by constructor.
  - cbn [foldM paragraph_chords_from]. rewrite count_line_eq.
    destruct (blank_line line).
    + replace (S (length done)) with (length (done ++ [cur]))
        by (rewrite length_app; cbn; lia).
      destruct (foldM count_chord _ _) as [st1| |] eqn:Hline; [|done..].
      rewrite bind_Ok.
      destruct (count_chords_tally _ _ _ [] _ tallied_zero Hline)
        as (cur1 & -> & Hcur1).
      intros Hrest.
      replace (gdone ++ g :: paragraph_chords_from (odd_items (split_line line)) text)
        with ((gdone ++ [g])
              ++ paragraph_chords_from ([] ++ odd_items (split_line line)) text)
        by by rewrite <- app_assoc.
      eapply IH; [|done|done]. apply Forall2_app; [done|]. by constructor.
    + destruct (foldM count_chord _ _) as [st1| |] eqn:Hline; [|done..].
      rewrite bind_Ok.
      destruct (count_chords_tally _ _ _ _ _ Hcur Hline) as (cur1 & -> & Hcur1).
      by apply IH.
Qed.

Lemma count_chords_tallied text counts :
  count_chords text = Ok counts →
  Forall2 tallied counts (paragraph_chords text).
Proof.
  intros Hrun. unfold count_chords in Hrun.
  destruct (foldM count_line ([zero_counts], O) text) as [st| |] eqn:Hfold;
    [|done..].
  cbn in Hrun. injection Hrun as <-.
  apply (count_lines_tally text [] zero_counts [] [] st
           (Forall2_nil_2 _ _ _) tallied_zero Hfold).
Qed.

Lemma paragraph_chords_concat text :
  concat (paragraph_chords text) = document_chords text.
Proof.
  unfold paragraph_chords.
  assert (∀ g, concat (paragraph_chords_from g text)
               = g ++ document_chords text) as Hconcat; [|apply Hconcat].
  induction text as [|line text' IH]; intros g.
  - cbn [paragraph_chords_from concat]. unfold document_chords.
    cbn [flat_map]. reflexivity.
  - cbn [paragraph_chords_from]. rewrite document_chords_cons.
    destruct (blank_line line).
    + cbn [concat]. by rewrite IH.
    + by rewrite IH, <- app_assoc.
Qed.

(** X23: when the counting pass returns, it returns one histogram for each
    paragraph, and each histogram holds, at every offset and mode, the
    number of chord tokens of its paragraph whose root has that offset
    and whose quality has that mode: every token is counted once, in the
    paragraph of its line. *)
Theorem count_chords_is_tally (text : list string)
    (counts : list (gmap string Z)) :
  count_chords text = Ok counts →
  Forall2 (λ count chords,
             ∀ i minor, 0 ≤ i < 12 → count_at count i minor = tally chords i minor)
          counts (paragraph_chords text)
  ∧ concat (paragraph_chords text) = document_chords text.
Proof.
  intros Hrun. split; [|apply paragraph_chords_concat].
  eapply Forall2_impl; [by apply count_chords_tallied|].
  by intros count chords [_ ?].
Qed.

Lemma count_chords_is_tally_witness :
  ∃ counts,
    count_chords key_change_text = Ok counts
    ∧ Forall2 (λ count chords,
                 ∀ i minor, 0 ≤ i < 12 →
                            count_at count i minor = tally chords i minor)
              counts (paragraph_chords key_change_text)
    ∧ concat (paragraph_chords key_change_text)
      = document_chords key_change_text.
Proof.
  pose proof (count_chords_spec key_change_text) as Hspec.
  assert (first_error (document_chords key_change_text) = None) as Herr
    by (vm_compute; reflexivity).
  rewrite Herr in Hspec. destruct Hspec as (counts & Hcounts & _).
  exists counts. split; [exact Hcounts|].
  apply (count_chords_is_tally key_change_text counts Hcounts).
Defined.

(** ** Scores and chords *)

Lemma sumZ_pos_exists (f : Z → Z) l : 0 < sumZ f l → ∃ j, j ∈ l ∧ 0 < f j.
Proof.
  induction l as [|a l IH]; cbn [sumZ foldr]; [lia|]. fold (sumZ f l).
  intros Hpos. destruct (decide (0 < f a)) as [Ha|Ha].
  - exists a. split; [apply elem_of_cons; by left|done].
  - destruct IH as (j & Hj & Hfj); [lia|].
    exists j. split; [apply elem_of_cons; by right|done].
Qed.

Lemma weighted_total_pos count k :
  histogram count → 0 < weighted_total count k → has_chord count.
Proof.
  intros Hcount Hpos. apply sumZ_pos_exists in Hpos as (i & Hi & Hterm).
  assert (0 ≤ i < 12) as Hrange.
  { unfold range12 in Hi. apply elem_of_seqZ in Hi. lia. }
  unfold weighted_term in Hterm.
  pose proof (count_nonneg count Hcount i false Hrange).
  pose proof (count_nonneg count Hcount i true Hrange).
  destruct (decide (1 ≤ count_at count i false)) as [Hf|Hf];
    [by exists i, false|].
  destruct (decide (1 ≤ count_at count i true)) as [Ht|Ht];
    [by exists i, true|].
  replace (count_at count i false) with 0 in Hterm by lia.
  replace (count_at count i true) with 0 in Hterm by lia. lia.
Qed.

Lemma estimate_key_positive count :
  histogram count →
  ∃ v k, estimate_key count = Ok (v, k)
         ∧ (0 < v ↔ has_chord count) ∧ (v = 0 → k = 0) ∧ 0 ≤ v.
Proof.
  intros Hcount.
  destruct (estimate_paragraph_spec count Hcount)
    as (p & Hp & _ & Hval & _ & Hzero & Hsome).
  destruct (estimate_key_best count Hcount) as (v & k & Hrun & _ & Hv & _).
  unfold estimate_paragraph in Hp. rewrite Hrun, bind_Ok in Hp.
  injection Hp as <-. cbn [val key fst snd] in *.
  exists v, k. split; [done|]. split; [|done]. split; [|done].
  intros Hpos. rewrite Hv in Hpos. by eapply weighted_total_pos.
Qed.

(** X24: the score that [estimate_key] gives a histogram is positive
    exactly when the histogram holds a chord, and 0, with the offset 0,
    otherwise. *)
Theorem score_positive_iff_chord (count : gmap string Z) :
  histogram count →
  ∃ bestScore bestOffset,
    estimate_key count = Ok (bestScore, bestOffset)
    ∧ (0 < bestScore ↔ has_chord count)
    ∧ (¬ has_chord count → bestScore = 0 ∧ bestOffset = 0).
Proof.
  intros Hcount.
  destruct (estimate_key_positive count Hcount) as (v & k & Hrun & Hiff & Hz & Hv).
  exists v, k. split; [done|]. split; [done|]. intros Hnone.
  assert (v = 0) as -> by (destruct (decide (0 < v)) as [?%Hiff|?]; [done|lia]).
  split; [done|]. by apply Hz.
Qed.

Lemma score_positive_iff_chord_witness :
  ∃ bestScore bestOffset,
    estimate_key four_C_major = Ok (bestScore, bestOffset)
    ∧ (0 < bestScore ↔ has_chord four_C_major)
    ∧ (¬ has_chord four_C_major → bestScore = 0 ∧ bestOffset = 0).
Proof. apply (score_positive_iff_chord four_C_major), four_C_major_histogram. Defined.

(** *** Paragraphs, their chords and their scores *)

Lemma counted_chord_key chord :
  counted chord → ∃ o m, chord_key chord = Some (o, m) ∧ 0 ≤ o < 12.
Proof.
  intros (c & o & Hc & Ho). exists o, (minor c). unfold chord_key.
  rewrite Hc, Ho. split; [done|]. by eapply offsets_in_range.
Qed.

Lemma tally_nonneg chords i m : 0 ≤ tally chords i m.
Proof. unfold tally. lia. Qed.

Lemma tally_has_chord count chords :
  tallied count chords → Forall counted chords →
  has_chord count ↔ chords ≠ [].
Proof.
  intros [Hhist Htally] Hall. split.
  - intros (i & m & Hi & Hpos) ->. rewrite Htally in Hpos by done.
    unfold tally in Hpos. rewrite filter_nil in Hpos. cbn in Hpos. lia.
  - destruct chords as [|chord chords]; [done|]. intros _.
    apply Forall_cons in Hall as [Hc _].
    apply counted_chord_key in Hc as (o & m & Hkey & Ho).
    exists o, m. split; [done|]. rewrite Htally by done.
    change (chord :: chords) with ([chord] ++ chords).
    rewrite tally_app. pose proof (tally_nonneg chords o m).
    unfold tally at 1. rewrite filter_cons, decide_True by done.
    cbn [length]. lia.
Qed.

Lemma estimate_keys_Forall2 counts ps :
  Forall histogram counts → estimate_keys counts = Ok ps →
  Forall2 (λ count p, chord_count p = count ∧ (0 < val p ↔ has_chord count)
                      ∧ (val p = 0 → key p = 0) ∧ 0 ≤ val p)
          counts ps.
Proof.
  revert ps. induction counts as [|count counts IH]; intros ps Hall.
  - cbn. intros [= <-]. constructor.
  - apply Forall_cons in Hall as [Hcount Hall]. cbn [estimate_keys].
    unfold estimate_paragraph.
    destruct (estimate_key_positive count Hcount) as (v & k & -> & Hiff & Hz & Hv).
    rewrite !bind_Ok.
    destruct (estimate_keys counts) as [ps'| |]; [|done..]. rewrite bind_Ok.
    intros [= <-]. constructor; [done|]. by apply IH.
Qed.

Lemma Forall2_concat_Forall {A : Type} (P : A → Prop) (ls : list (list A)) :
  Forall P (concat ls) → Forall (Forall P) ls.
Proof.
  induction ls as [|l ls IH]; [constructor|]. cbn [concat].
  intros [Hl Hls]%Forall_app. constructor; [done|by apply IH].
Qed.

Lemma Forall2_compose {A B C : Type} (R : A → B → Prop) (S : A → C → Prop)
    (T : B → C → Prop) l k m :
  (∀ x y z, R x y → S x z → T y z) →
  Forall2 R l k → Forall2 S l m → Forall2 T k m.
Proof.
  intros HT HR. revert m. induction HR as [|x y l k Hxy Hlk IH]; intros m HS.
  - apply Forall2_nil_inv_l in HS as ->. constructor.
  - apply Forall2_cons_inv_l in HS as (z & m' & Hxz & Hlm & ->).
    constructor; [by eapply HT|by apply IH].
Qed.

Lemma Forall2_with_Forall {A B : Type} (R : A → B → Prop) (P : B → Prop) l k :
  Forall2 R l k → Forall P k → Forall2 (λ x y, R x y ∧ P y) l k.
Proof.
  induction 1 as [|x y l k Hxy Hlk IH]; [constructor|].
  intros [Hy Hk]%Forall_cons. constructor; [done|by apply IH].
Qed.

(** X25: what the analysis holds of each paragraph: the histogram of the
    paragraph is the tally of its chord tokens, its score is positive
    exactly when the paragraph has a chord token, and a paragraph without
    chord tokens has the score 0 and the offset 0. *)
Theorem paragraphs_match_chords (text : list string) (transpose : string)
    (a : analysis) :
  analyse text transpose = Ok a →
  Forall2 (λ p chords,
             (∀ i minor, 0 ≤ i < 12 →
                count_at (chord_count p) i minor = tally chords i minor)
             ∧ (0 < val p ↔ chords ≠ [])
             ∧ (chords = [] → val p = 0 ∧ key p = 0))
          (paragraphs a) (paragraph_chords text).
Proof.
  intros Ha. pose proof Ha as (counts & Hcount & Hest & _)%analyse_inv.
  pose proof (analyse_shape _ _ _ Ha) as (Herr & _ & Hps & _).
  pose proof (count_chords_spec text) as Hspec. rewrite Herr in Hspec.
  destruct Hspec as (counts' & Hcount' & _ & Hhist & _).
  assert (counts' = counts) as -> by congruence.
  pose proof (estimate_keys_Forall2 _ _ Hhist Hest) as Hscores.
  pose proof (count_chords_tallied _ _ Hcount) as Htally.
  assert (Forall (Forall counted) (paragraph_chords text)) as Hcounted.
  { apply Forall2_concat_Forall. rewrite paragraph_chords_concat.
    by apply first_error_Forall. }
  pose proof (Forall2_with_Forall _ _ _ _ Htally Hcounted) as Hboth.
  eapply Forall2_compose; [|exact Hscores|exact Hboth].
  intros count p chords (Hc & Hiff & Hz & Hv) [Htal Hall]. cbv beta in *.
  subst count. pose proof (tally_has_chord _ _ Htal Hall) as Hchord.
  split; [apply Htal|]. split; [by rewrite Hiff|].
  intros ->. assert (val p = 0) as Hval; [|by split; [|apply Hz]].
  assert (¬ 0 < val p); [|lia]. rewrite Hiff, Hchord. by intros ?.
Qed.

Lemma paragraphs_match_chords_witness :
  ∃ a, analyse key_change_text "F" = Ok a
       ∧ Forall2 (λ p chords,
                    (∀ i minor, 0 ≤ i < 12 →
                       count_at (chord_count p) i minor = tally chords i minor)
                    ∧ (0 < val p ↔ chords ≠ [])
                    ∧ (chords = [] → val p = 0 ∧ key p = 0))
                 (paragraphs a) (paragraph_chords key_change_text).
Proof.
  pose proof analyse_key_change_text as Hrun.
  destruct (analyse key_change_text "F") as [a| |] eqn:Ha;
    [|discriminate Hrun..].
  exists a. split; [reflexivity|].
  apply (paragraphs_match_chords key_change_text "F" a Ha).
Defined.

(** ** The rewritten token parses back *)

Lemma offset_keys_spelled :
  map_Forall (λ (s : string) (_ : Z),
    match s with
    | String l EmptyString => in_range "A" "G" l
    | String l (String a EmptyString) => in_range "A" "G" l && accidental a
    | _ => false
    end = true) chord_to_offset.
Proof. apply (bool_decide_unpack _). vm_compute. exact I. Qed.

Lemma offset_key_spelling s o : chord_to_offset !! s = Some o → spelling s.
Proof.
  intros Hs. pose proof (offset_keys_spelled s o Hs) as H. cbv beta in H.
  destruct s as [|l [|a [|? ?]]]; [done| | |done].
  - exists l. split; [done|]. by left.
  - apply andb_prop in H as [Hl Ha]. exists l. split; [done|].
    unfold accidental in Ha.
    apply orb_prop in Ha as [->%Ascii.eqb_eq | ->%Ascii.eqb_eq]; tauto.
Qed.

Lemma spelling_note_shape s rest :
  spelling s → starts_with_accidental rest = false → note_shape s rest.
Proof.
  intros (l & Hl & Hs) Hrest. exists l. split.
  - unfold note_letter. by rewrite Hl.
  - destruct Hs as [->|[->| ->]]; [by left|right..].
    + by exists "b"%char.
    + by exists "#"%char.
Qed.

Lemma spelling_capitalize s : spelling s → capitalize s = s.
Proof.
  intros (l & Hl & Hs). apply letters_A_to_G in Hl.
  destruct Hl as [->|[->|[->|[->|[->|[->| ->]]]]]];
    destruct Hs as [->|[->| ->]]; reflexivity.
Qed.

Lemma spelling_nonempty s : spelling s → s ≠ EmptyString.
Proof. intros (l & _ & [->|[->| ->]]); done. Qed.

Lemma span_not_char_all a m :
  contains a m = false → span (not_char a) m = (m, EmptyString).
Proof.
  intros Hm. pose proof (span_no_stop a m Hm) as Hsnd.
  pose proof (span_app (not_char a) m) as Happ.
  destruct (span (not_char a) m) as [x y]. cbn [fst snd] in *. subst y.
  by rewrite str_app_nil_r in Happ; subst x.
Qed.

Lemma starts_with_accidental_slash m y :
  starts_with_accidental m = false →
  starts_with_accidental (m +:+ String "/" y) = false.
Proof. by destruct m. Qed.

(** A chord with table spellings, written out and parsed again. *)
Lemma spelled_chord_round_trip P r M3 g4 M5 :
  P = EmptyString ∨ P = "(" →
  spelling r → starts_with_accidental M3 = false → contains "/" M3 = false →
  (g4 = None ∧ M5 = EmptyString)
  ∨ (∃ b, g4 = Some b ∧ spelling b ∧ starts_with_accidental M5 = false
          ∧ span dot M5 = (M5, EmptyString)) →
  Chord_init (Chord_chord (Chord_of_match
    [None; if_truthy (Some P); Some r; Some M3; g4; Some M5]))
  = Ok (Chord_of_match [None; if_truthy (Some P); Some r; Some M3; g4; Some M5]).
Proof.
  intros HP Hr H3 Hslash Hbass. rewrite chord_text by done.
  rewrite (spelling_capitalize r Hr), Chord_init_greedy.
  destruct Hbass as [[-> ->]|(b & -> & Hb & H5 & Hdot)].
  - cbn [if_truthy str_truthy]. rewrite !str_app_nil_r.
    rewrite <- (str_app_nil_r M3) at 1.
    rewrite (chord_greedy_intro P r M3 EmptyString None EmptyString); [done..| | |].
    + rewrite str_app_nil_r. by apply spelling_note_shape.
    + rewrite str_app_nil_r. by apply span_not_char_all.
    + by left.
  - rewrite (if_truthy_Some b) by by apply spelling_nonempty.
    rewrite (spelling_capitalize b Hb), !str_app_assoc.
    rewrite (chord_greedy_intro P r M3 ("/" +:+ b +:+ M5) (Some b) M5); [done..| | |].
    + apply spelling_note_shape; [done|].
      rewrite str_app_cons, str_app_nil_l. by apply starts_with_accidental_slash.
    + rewrite str_app_cons, str_app_nil_l. by apply span_not_char.
    + right. exists b. split; [done|]. split; [|done].
      by apply spelling_note_shape.
Qed.

Lemma pitch_classes_normalise accidental c :
  pitch_classes (Chord_normalise accidental c) = pitch_classes c.
Proof.
  destruct (Chord_normalise_fields accidental c) as (Hr & Hb & _).
  cbv zeta in *.
  set (m := if String.eqb accidental "b" then map_accidental_flat
            else map_accidental_sharp) in *.
  assert (∀ s, chord_to_offset !! default s (m !! s) = chord_to_offset !! s)
    as Hsame.
  { intros s. destruct (m !! s) as [v|] eqn:Hs; [|done].
    by destruct (accidental_map_entry accidental s v Hs) as (_ & ? & _). }
  unfold pitch_classes. rewrite Hr, Hb, Hsame.
  destruct (bass c) as [b|]; [|done]. by rewrite Hsame.
Qed.

Lemma if_truthy_spelling b : spelling b →
  capitalize <$> if_truthy (Some b) = Some b.
Proof.
  intros Hb. rewrite if_truthy_Some by by apply spelling_nonempty.
  cbn. by rewrite spelling_capitalize.
Qed.

Lemma starts_with_accidental_truthy s (o : option string) :
  o = if_truthy (Some s) →
  (∀ x, o = Some x → starts_with_accidental x = false) →
  starts_with_accidental s = false.
Proof.
  intros -> H. destruct s as [|a s]; [done|]. by apply H.
Qed.

Lemma rewritten_chord_round_trip fuel shift n t c pc :
  Chord_init t = Ok c → pitch_classes c = Some pc →
  0 ≤ shift ≤ Z.of_nat fuel →
  contains "/" t = false ∨ is_Some (bass c) →
  (∀ x, triad c = Some x → starts_with_accidental x = false) →
  (∀ y, bassrest c = Some y → starts_with_accidental y = false) →
  ∃ c', Chord_transpose fuel shift c = Ok c'
        ∧ rewritten_chord fuel shift (Some n) t
          = Ok ("[" +:+ Chord_chord (Chord_normalise n c') +:+ "]")
        ∧ Chord_init (Chord_chord (Chord_normalise n c'))
          = Ok (Chord_normalise n c')
        ∧ pitch_classes (Chord_normalise n c') = Some (advance shift pc).
Proof.
  intros Hinit Hpc Hshift Hslash Htriad Hrest.
  destruct (Chord_transpose_classes fuel shift c pc Hpc Hshift)
    as (c' & Hc' & Hpc' & Ho & Ht & Hbr & Hm).
  exists c'. split; [done|].
  assert (t ≠ EmptyString) as Hne.
  { intros ->. vm_compute in Hinit. discriminate Hinit. }
  split.
  { unfold rewritten_chord. apply String.eqb_neq in Hne. rewrite Hne.
    cbn [negb]. by rewrite Hinit, bind_Ok, Hc', !bind_Ok. }
  split; [|by rewrite pitch_classes_normalise].
  pose proof (pitch_classes_normalise n c') as Hpc''. rewrite Hpc' in Hpc''.
  destruct (Chord_normalise_fields n c') as (_ & Hb'' & Ho'' & Ht'' & Hbr'' & Hm'').
  cbv zeta in Hb''.
  apply pitch_classes_inv in Hpc'' as [Hroot Hbass].
  apply pitch_classes_inv in Hpc as [_ Hbass0].
  rewrite Chord_init_greedy in Hinit.
  destruct (chord_greedy t) as [[g rest]|] eqn:Hg; [|done].
  injection Hinit as <-.
  apply chord_greedy_shape in Hg
    as (P & n0 & M3 & S & g4 & S5 & M5 & -> & HP & Hn0 & Hspan & HS
        & Hdot & Hend & ->).
  unfold Chord_of_match, group in Ho, Ht, Hbr, Hm, Htriad, Hrest, Hslash, Hbass0.
  cbn [lookup list_lookup mjoin option_join opening_brace root triad bass
       bassrest minor default from_option id] in Ho, Ht, Hbr, Hm, Htriad, Hrest,
       Hslash, Hbass0.
  assert (starts_with_accidental M3 = false) as H3
    by (apply (starts_with_accidental_truthy M3 (if_truthy (Some M3)));
        [done|exact Htriad]).
  assert (starts_with_accidental M5 = false) as H5
    by (apply (starts_with_accidental_truthy M5 (if_truthy (Some M5)));
        [done|exact Hrest]).
  assert (contains "/" M3 = false) as Hno.
  { replace M3 with (span (not_char "/") (M3 +:+ S)).1 by by rewrite Hspan.
    apply contains_span_fst. }
  assert (Chord_normalise n c'
          = Chord_of_match [None; if_truthy (Some P);
                            Some (root (Chord_normalise n c')); Some M3;
                            bass (Chord_normalise n c'); Some M5]) as Heq.
  { apply Chord_eq; unfold Chord_of_match, group;
      cbn [lookup list_lookup mjoin option_join opening_brace root triad bass
           bassrest minor default from_option id].
    - congruence.
    - symmetry. apply spelling_capitalize. by eapply offset_key_spelling.
    - congruence.
    - destruct (bass (Chord_normalise n c')) as [b|]; [|done].
      destruct Hbass as (o & Hob & _). symmetry.
      apply if_truthy_spelling. by eapply offset_key_spelling.
    - congruence.
    - congruence. }
  rewrite Heq at 1 2. rewrite <- Heq at 2.
  rewrite spelled_chord_round_trip; [by rewrite <- Heq|done|..|done|].
  - by eapply offset_key_spelling.
  - done.
  - destruct (bass (Chord_normalise n c')) as [b|] eqn:Hb.
    + right. exists b. destruct Hbass as (o & Hob & _).
      split; [done|]. split; [by eapply offset_key_spelling|].
      split; [done|]. pose proof (span_self dot S5) as H.
      by rewrite Hdot in H.
    + left. split; [done|].
      destruct HS as [(-> & -> & ->)|(S4 & -> & Hcase)].
      * by injection Hdot as <- _.
      * exfalso. destruct (bass c') as [b'|] eqn:Hb'; [done|].
        destruct Hcase as [(b & -> & Hbn & ->)|(Hnone & -> & ->)].
        -- rewrite if_truthy_Some in Hbass0 by by eapply note_shape_nonempty.
           cbn in Hbass0. destruct Hbass0 as (o & _ & Hpc2).
           pose proof (pitch_classes_inv _ _ Hpc') as [_ Hb2].
           rewrite Hb' in Hb2. cbn in Hb2. rewrite Hpc2 in Hb2. done.
        -- destruct Hslash as [Hslash|[? Hslash]]; [|done].
           rewrite !contains_app in Hslash. cbn [contains] in Hslash.
           rewrite Ascii.eqb_refl in Hslash. cbn in Hslash.
           by rewrite !orb_true_r in Hslash.
Qed.

(** X26: a chord token with table spellings, a bass after its slash if it
    has a slash, and no [b] or [#] at the head of its suffix or of its
    trailing annotation, is rewritten by pass 3 to a token that parses
    back to the transposed and normalised chord itself: root and bass
    moved up by the shift, suffix and annotation as they were. *)
Theorem rewritten_chord_parses_back (fuel : nat) (shift : Z) (n t : string)
    (c : Chord) (pc : Z * option Z) :
  Chord_init t = Ok c → pitch_classes c = Some pc →
  0 ≤ shift ≤ Z.of_nat fuel →
  contains "/" t = false ∨ is_Some (bass c) →
  (∀ x, triad c = Some x → starts_with_accidental x = false) →
  (∀ y, bassrest c = Some y → starts_with_accidental y = false) →
  ∃ c', Chord_transpose fuel shift c = Ok c'
        ∧ rewritten_chord fuel shift (Some n) t
          = Ok ("[" +:+ Chord_chord (Chord_normalise n c') +:+ "]")
        ∧ Chord_init (Chord_chord (Chord_normalise n c'))
          = Ok (Chord_normalise n c')
        ∧ pitch_classes (Chord_normalise n c') = Some (advance shift pc)
        ∧ triad (Chord_normalise n c') = triad c
        ∧ bassrest (Chord_normalise n c') = bassrest c.
Proof.
  intros Hinit Hpc Hshift Hslash Htriad Hrest.
  destruct (rewritten_chord_round_trip fuel shift n t c pc Hinit Hpc Hshift
              Hslash Htriad Hrest) as (c' & Hc' & Hnew & Hback & Hpc').
  exists c'. do 4 (split; [done|]).
  destruct (Chord_transpose_classes fuel shift c pc Hpc Hshift)
    as (c1 & Hc1 & _ & _ & Ht & Hbr & _).
  assert (c1 = c') as -> by congruence.
  destruct (Chord_normalise_fields n c') as (_ & _ & _ & Ht' & Hbr' & _).
  split; congruence.
Qed.

Lemma rewritten_chord_parses_back_witness :
  ∃ c', Chord_transpose 12 3 D_flat_over_F = Ok c'
        ∧ rewritten_chord 12 3 (Some "b") "Db/F"
          = Ok ("[" +:+ Chord_chord (Chord_normalise "b" c') +:+ "]")
        ∧ Chord_init (Chord_chord (Chord_normalise "b" c'))
          = Ok (Chord_normalise "b" c')
        ∧ pitch_classes (Chord_normalise "b" c') = Some (advance 3 (1, Some 5))
        ∧ triad (Chord_normalise "b" c') = triad D_flat_over_F
        ∧ bassrest (Chord_normalise "b" c') = bassrest D_flat_over_F.
Proof.
  apply (rewritten_chord_parses_back 12 3 "b" "Db/F" D_flat_over_F (1, Some 5)).
  - vm_compute. reflexivity.
  - vm_compute. reflexivity.
  - lia.
  - right. vm_compute. eexists. reflexivity.
  - intros x H. discriminate H.
  - intros y H. discriminate H.
Defined.

(** Without the condition on the suffix the token can change its root:
    [G#b5] moved up by one semitone is written [Ab5], which parses with
    the root [Ab], the pitch class of [G#] itself. *)
Example rewritten_chord_misread :
  rewritten_chord 12 1 (Some "#") "G#b5" = Ok "[Ab5]"
  ∧ root <$> Chord_init "Ab5" = Ok "Ab"
  ∧ chord_to_offset !! "Ab" = chord_to_offset !! "G#".
Proof. repeat split; vm_compute; reflexivity. Qed.

(** ** Comments and directives *)

Lemma rstrip_cons_keep p c s :
  p c = false → rstrip p (String c s) = String c (rstrip p s).
Proof. intros Hc. cbn [rstrip]. by rewrite Hc. Qed.

Lemma rstrip_snoc p s c :
  p c = true → rstrip p (s +:+ String c EmptyString) = rstrip p s.
Proof.
  intros Hc. induction s as [|a s IH].
  - rewrite str_app_nil_l. cbn [rstrip]. by rewrite Hc.
  - rewrite str_app_cons. cbn [rstrip]. by rewrite IH.
Qed.

Lemma rstrip_snoc_keep p s c :
  p c = false → rstrip p (s +:+ String c EmptyString) = s +:+ String c EmptyString.
Proof.
  intros Hc. induction s as [|a s IH].
  - rewrite str_app_nil_l. cbn [rstrip]. by rewrite Hc.
  - rewrite str_app_cons. cbn [rstrip]. rewrite IH.
    destruct s; cbn; by rewrite andb_false_r.
Qed.

Lemma contains_rstrip a p s : contains a s = false → contains a (rstrip p s) = false.
Proof.
  induction s as [|c s IH]; [done|]. cbn [contains rstrip].
  intros [Hc Hs]%orb_false_elim.
  destruct (p c && String.eqb (rstrip p s) EmptyString); [done|].
  cbn [contains]. by rewrite Hc, IH.
Qed.

Lemma contains_lstrip a p s : contains a s = false → contains a (lstrip p s) = false.
Proof.
  induction s as [|c s IH]; [done|]. cbn [contains lstrip].
  intros [Hc Hs]%orb_false_elim.
  destruct (p c); [by apply IH|]. cbn [contains]. by rewrite Hc, Hs.
Qed.

Lemma startswith_char a s :
  startswith (String a EmptyString) s
  = match s with String c _ => Ascii.eqb a c | EmptyString => false end.
Proof.
  unfold startswith. destruct s as [|c s]; [done|]. cbn [String.prefix].
  destruct (ascii_dec a c) as [->|Hne].
  - rewrite Ascii.eqb_refl. by destruct s.
  - symmetry. by apply Ascii.eqb_neq.
Qed.

Lemma startswith_rstrip_newline a s :
  Ascii.eqb a "010" = false →
  startswith (String a EmptyString) (rstrip (is_char "010") s)
  = startswith (String a EmptyString) s.
Proof.
  intros Ha. rewrite !startswith_char. destruct s as [|c s]; [done|].
  cbn [rstrip]. unfold is_char at 1.
  destruct (Ascii.eqb c "010") eqn:Hc; cbn [andb]; [|done].
  apply Ascii.eqb_eq in Hc as ->. rewrite Ha.
  by destruct (String.eqb _ _).
Qed.

Lemma command_of_no_colon line :
  contains ":" line = false → command_of line = Unsupported.
Proof.
  intros Hline. unfold command_of, split_colon, strip.
  rewrite span_no_stop; [done|]. by apply contains_rstrip, contains_lstrip.
Qed.

(** X27: a directive is recognised only with a colon: every line without
    a colon that is not a comment is laid out as text, [{title}] too. *)
Theorem directive_needs_colon (line : string) :
  contains ":" line = false → startswith "#" line = false →
  classify line = LaidOut (rstrip (is_char "010") line).
Proof.
  intros Hcolon Hhash. unfold classify.
  rewrite (startswith_rstrip_newline "#") by done. rewrite Hhash.
  destruct (startswith "{" _); [|done].
  rewrite command_of_no_colon; [done|]. by apply contains_rstrip.
Qed.

Lemma directive_needs_colon_witness :
  classify ("{title}" +:+ newline)
  = LaidOut (rstrip (is_char "010") ("{title}" +:+ newline)).
Proof. apply (directive_needs_colon ("{title}" +:+ newline)); reflexivity. Defined.

Lemma classify_named name args :
  lstrip brace_or_blank name = name →
  (∀ r, rstrip brace_or_blank (name +:+ ":" +:+ r)
        = name +:+ ":" +:+ rstrip brace_or_blank r) →
  (∀ r, span (not_char ":") (name +:+ ":" +:+ r) = (name, ":" +:+ r)) →
  name ≠ EmptyString →
  command_of ("{" +:+ name +:+ ":" +:+ args +:+ "}")
  = if bool_decide (name ∈ ["title"; "t"])
    then Title (rstrip brace_or_blank args)
    else if bool_decide (name ∈ ["subtitle"; "st"])
         then Subtitle (rstrip brace_or_blank args)
         else Unsupported.
Proof.
  intros Hl Hr Hspan Hne. unfold command_of, split_colon, strip.
  rewrite str_app_cons, str_app_nil_l. cbn [lstrip].
  change (brace_or_blank "{") with true. cbv iota.
  assert (lstrip brace_or_blank (name +:+ ":" +:+ args +:+ "}")
          = name +:+ ":" +:+ args +:+ "}") as ->.
  { destruct name as [|c name]; [done|]. rewrite str_app_cons.
    cbn [lstrip] in *. destruct (brace_or_blank c) eqn:Hc; [|done].
    exfalso. assert (String.length (lstrip brace_or_blank name)
                     ≤ String.length name)%nat as Hlen.
    { clear. induction name as [|a s IH]; [done|]. cbn [lstrip].
      destruct (brace_or_blank a); cbn [String.length]; lia. }
    rewrite Hl in Hlen. cbn [String.length] in Hlen. lia. }
  rewrite Hr, rstrip_snoc by reflexivity.
  rewrite Hspan. cbn [fst snd]. rewrite str_app_cons, str_app_nil_l. done.
Qed.

(** X28: the directives [title], [t], [subtitle] and [st] take as their
    argument all that follows the first colon, up to the closing brace and
    the blanks before it; the blanks after the colon are kept. *)
Theorem title_directives (args : string) :
  classify ("{title:" +:+ args +:+ "}" +:+ newline)
  = SetsTitle (rstrip brace_or_blank args)
  ∧ classify ("{t:" +:+ args +:+ "}" +:+ newline)
    = SetsTitle (rstrip brace_or_blank args)
  ∧ classify ("{subtitle:" +:+ args +:+ "}" +:+ newline)
    = SetsSubtitle (rstrip brace_or_blank args)
  ∧ classify ("{st:" +:+ args +:+ "}" +:+ newline)
    = SetsSubtitle (rstrip brace_or_blank args).
Proof.
  assert (∀ name,
    lstrip brace_or_blank name = name →
    (∀ r, rstrip brace_or_blank (name +:+ ":" +:+ r)
          = name +:+ ":" +:+ rstrip brace_or_blank r) →
    (∀ r, span (not_char ":") (name +:+ ":" +:+ r) = (name, ":" +:+ r)) →
    name ≠ EmptyString →
    classify ("{" +:+ name +:+ ":" +:+ args +:+ "}" +:+ newline)
    = match command_of ("{" +:+ name +:+ ":" +:+ args +:+ "}") with
      | Title a => SetsTitle a
      | Subtitle a => SetsSubtitle a
      | Unsupported => LaidOut ("{" +:+ name +:+ ":" +:+ args +:+ "}")
      end) as Hclass.
  { intros name Hl Hr Hspan Hne. unfold classify.
    assert (rstrip (is_char "010")
              ("{" +:+ name +:+ ":" +:+ args +:+ "}" +:+ newline)
            = "{" +:+ name +:+ ":" +:+ args +:+ "}") as ->.
    { rewrite <- !str_app_assoc. unfold newline.
      rewrite rstrip_snoc by reflexivity.
      rewrite rstrip_snoc_keep by reflexivity.
      by rewrite !str_app_assoc. }
    rewrite str_app_cons, str_app_nil_l. rewrite !startswith_char.
    change (Ascii.eqb "#" "{") with false. change (Ascii.eqb "{" "{") with true.
    cbv iota. by rewrite <- (str_app_nil_l (String "{" _)), <- str_app_cons. }
  repeat split.
  - change ("{title:" +:+ args +:+ "}" +:+ newline)
      with ("{" +:+ "title" +:+ ":" +:+ args +:+ "}" +:+ newline).
    rewrite Hclass, classify_named; try done;
      try (intros r; rewrite !str_app_cons, str_app_nil_l;
           by rewrite !rstrip_cons_keep by reflexivity).
  - change ("{t:" +:+ args +:+ "}" +:+ newline)
      with ("{" +:+ "t" +:+ ":" +:+ args +:+ "}" +:+ newline).
    rewrite Hclass, classify_named; try done;
      try (intros r; rewrite !str_app_cons, str_app_nil_l;
           by rewrite !rstrip_cons_keep by reflexivity).
  - change ("{subtitle:" +:+ args +:+ "}" +:+ newline)
      with ("{" +:+ "subtitle" +:+ ":" +:+ args +:+ "}" +:+ newline).
    rewrite Hclass, classify_named; try done;
      try (intros r; rewrite !str_app_cons, str_app_nil_l;
           by rewrite !rstrip_cons_keep by reflexivity).
  - change ("{st:" +:+ args +:+ "}" +:+ newline)
      with ("{" +:+ "st" +:+ ":" +:+ args +:+ "}" +:+ newline).
    rewrite Hclass, classify_named; try done;
      try (intros r; rewrite !str_app_cons, str_app_nil_l;
           by rewrite !rstrip_cons_keep by reflexivity).
Qed.

(** ** The text of a transposed document *)

Lemma contains_spelling a s :
  spelling s → in_range "A" "G" a = false → accidental a = false →
  contains a s = false.
Proof.
  intros (l & Hl & Hs) Ha Hacc. unfold accidental in Hacc.
  apply orb_false_elim in Hacc as [Hb Hsharp].
  assert (Ascii.eqb l a = false) as Hla.
  { apply Ascii.eqb_neq. intros ->. congruence. }
  rewrite Ascii.eqb_sym in Hb, Hsharp.
  destruct Hs as [->|[->| ->]]; cbn [contains]; by rewrite Hla, ?Hb, ?Hsharp.
Qed.

Lemma contains_Chord_chord a c :
  Ascii.eqb "(" a = false → Ascii.eqb "/" a = false →
  contains a (root c) = false →
  (∀ x, triad c = Some x → contains a x = false) →
  (∀ b, bass c = Some b → contains a b = false) →
  (∀ y, bassrest c = Some y → contains a y = false) →
  contains a (Chord_chord c) = false.
Proof.
  intros Hparen Hslash Hroot Htriad Hbass Hrest. unfold Chord_chord.
  destruct (opening_brace c) as [p|], (triad c) as [x|], (bass c) as [b|],
    (bassrest c) as [y|];
    repeat match goal with
           | |- context [str_truthy ?o] => destruct (str_truthy o)
           end;
    cbn [default from_option id];
    rewrite ?contains_app; cbn [contains];
    rewrite ?Hparen, ?Hslash, ?Hroot, ?(Htriad _ eq_refl), ?(Hbass _ eq_refl),
            ?(Hrest _ eq_refl); reflexivity.
Qed.

Lemma Chord_init_substrings a t c :
  Chord_init t = Ok c → contains a t = false →
  (∀ x, triad c = Some x → contains a x = false)
  ∧ (∀ y, bassrest c = Some y → contains a y = false).
Proof.
  rewrite Chord_init_greedy.
  destruct (chord_greedy t) as [[g rest]|] eqn:Hg; [|done]. intros [= <-].
  apply chord_greedy_shape in Hg
    as (P & n & M3 & S & g4 & S5 & M5 & -> & HP & Hn & H3 & H4 & H5 & _ & ->).
  unfold Chord_of_match, group. cbn [lookup list_lookup mjoin option_join
    opening_brace root triad bass bassrest default from_option id].
  rewrite !contains_app.
  intros [_ [_ [HM3 HS]%orb_false_elim]%orb_false_elim]%orb_false_elim.
  split.
  - by intros x [-> _]%if_truthy_inv.
  - intros y [-> _]%if_truthy_inv.
    pose proof (span_app dot S5) as Happ. rewrite H5 in Happ. cbn in Happ.
    assert (contains a S5 = false) as HS5.
    { destruct H4 as [(_ & _ & ->)|(S4 & -> & [(b & -> & _)|(_ & _ & ->)])].
      - done.
      - cbn [contains] in HS. apply orb_false_elim in HS as [_ HS].
        rewrite contains_app in HS. by apply orb_false_elim in HS as [_ ?].
      - cbn [contains] in HS. by apply orb_false_elim in HS as [_ ?]. }
    rewrite <- Happ, contains_app in HS5. by apply orb_false_elim in HS5 as [? _].
Qed.

(** Root and bass are written as a capital letter with an optional
    accidental. *)
Lemma transpose_step_spelled c c' :
  spelling (root c) → (∀ b, bass c = Some b → spelling b) →
  transpose_step c = Ok c' →
  spelling (root c') ∧ (∀ b, bass c' = Some b → spelling b)
  ∧ opening_brace c' = opening_brace c ∧ triad c' = triad c
  ∧ bassrest c' = bassrest c.
Proof.
  intros Hr Hb. unfold transpose_step.
  destruct (dict_get map_transpose_semitone (root c)) as [r| |] eqn:Hroot;
    [|done..].
  rewrite bind_Ok. apply dict_get_Ok in Hroot.
  assert (∀ s t, map_transpose_semitone !! s = Some t → spelling t) as Hstep.
  { intros s t Hst. destruct (step_table_entry s t Hst) as (_ & (o & _ & Ho) & _).
    by eapply offset_key_spelling. }
  destruct (bass c) as [b|] eqn:Hbass.
  - rewrite (str_truthy_Some b) by by apply spelling_nonempty, Hb.
    cbn [default from_option id].
    destruct (dict_get map_transpose_semitone b) as [b'| |] eqn:Hb'; [|done..].
    apply dict_get_Ok in Hb'. cbn. intros [= <-]. cbn.
    split; [by eapply Hstep|]. split; [|done]. intros ? [= <-]. by eapply Hstep.
  - cbn. intros [= <-]. cbn. split; [by eapply Hstep|]. by split.
Qed.

Lemma Chord_transpose_spelled (fuel : nat) : ∀ n c c',
  spelling (root c) → (∀ b, bass c = Some b → spelling b) →
  Chord_transpose fuel n c = Ok c' →
  spelling (root c') ∧ (∀ b, bass c' = Some b → spelling b)
  ∧ opening_brace c' = opening_brace c ∧ triad c' = triad c
  ∧ bassrest c' = bassrest c.
Proof.
  induction fuel as [|fuel IH]; intros n c c' Hr Hb.
  - cbn. destruct (n =? 0); [|done]. by intros [= <-].
  - destruct (decide (n = 0)) as [->|Hn].
    + rewrite Chord_transpose_0. by intros [= <-].
    + rewrite Chord_transpose_S by done.
      destruct (transpose_step c) as [c1| |] eqn:Hstep; [|done..].
      rewrite bind_Ok. intros Hrun.
      destruct (transpose_step_spelled _ _ Hr Hb Hstep)
        as (Hr1 & Hb1 & Ho1 & Ht1 & Hbr1).
      destruct (IH _ _ _ Hr1 Hb1 Hrun) as (? & ? & ? & ? & ?).
      repeat split; (done || congruence).
Qed.

Lemma Chord_normalise_spelled accidental c :
  spelling (root c) → (∀ b, bass c = Some b → spelling b) →
  spelling (root (Chord_normalise accidental c))
  ∧ (∀ b, bass (Chord_normalise accidental c) = Some b → spelling b).
Proof.
  intros Hr Hb.
  destruct (Chord_normalise_fields accidental c) as (Hr' & Hb' & _).
  cbv zeta in *.
  set (m := if String.eqb accidental "b" then map_accidental_flat
            else map_accidental_sharp) in *.
  assert (∀ s, spelling s → spelling (default s (m !! s))) as Hsp.
  { intros s Hs. destruct (m !! s) as [v|] eqn:Hv; [|done]. cbn.
    destruct (accidental_map_entry accidental s v Hv) as (_ & Heq & [o Ho] & _).
    rewrite Ho in Heq. by eapply offset_key_spelling. }
  rewrite Hr', Hb'. split; [by apply Hsp|].
  destruct (bass c) as [b0|]; [|done]. intros b [= <-]. by apply Hsp, Hb.
Qed.

Lemma rewritten_chord_text fuel shift norm chord new :
  chord ≠ EmptyString → contains "]" chord = false →
  rewritten_chord fuel shift norm chord = Ok new →
  ∃ chord', new = "[" +:+ chord' +:+ "]" ∧ contains "]" chord' = false.
Proof.
  intros Hne Hclose. unfold rewritten_chord.
  apply String.eqb_neq in Hne. rewrite Hne. cbn [negb].
  destruct (Chord_init chord) as [c| |] eqn:Hc; [|done..]. rewrite bind_Ok.
  destruct (Chord_transpose fuel shift c) as [c'| |] eqn:Hc'; [|done..].
  rewrite bind_Ok. destruct norm as [n|]; [|done]. rewrite bind_Ok.
  intros [= <-]. eexists. split; [done|].
  destruct (Chord_init_shape _ _ Hc) as (_ & Hr & Hb & _).
  destruct (Chord_init_substrings "]" _ _ Hc Hclose) as [Ht Hbr].
  destruct (Chord_transpose_spelled _ _ _ _ Hr Hb Hc') as (Hr' & Hb' & _ & Ht' & Hbr').
  destruct (Chord_normalise_spelled n c' Hr' Hb') as [Hr'' Hb''].
  destruct (Chord_normalise_fields n c') as (_ & _ & _ & Ht'' & Hbr'' & _).
  apply contains_Chord_chord; [done|done|..].
  - by apply contains_spelling.
  - rewrite Ht'', Ht'. apply Ht.
  - intros b Hbass. apply contains_spelling; [by apply Hb''|done|done].
  - rewrite Hbr'', Hbr'. apply Hbr.
Qed.

Lemma rewritten_segments_unsplit f segments new :
  well_split segments →
  (∀ chord y, chord ∈ odd_items segments → f chord = Ok y →
     ∃ chord', y = "[" +:+ chord' +:+ "]" ∧ contains "]" chord' = false) →
  rewritten_segments f segments = Ok new →
  ∃ segments',
    new = unsplit segments' ∧ well_split segments'
    ∧ even_items segments' = even_items segments
    ∧ Forall2 (λ chord chord', f chord = Ok ("[" +:+ chord' +:+ "]"))
              (odd_items segments) (odd_items segments').
Proof.
  revert new.
  induction segments as [|text|text chord segments IH] using pairs_ind;
    intros new Hwell Hf; cbn [rewritten_segments well_split] in *.
  - done.
  - intros [= <-]. exists [text]. cbn. repeat split; (done || constructor).
  - destruct Hwell as (Htext & _ & Hwell).
    destruct (f chord) as [y| |] eqn:Hy; [|done..]. rewrite bind_Ok.
    destruct (rewritten_segments f segments) as [r| |] eqn:Hr; [|done..].
    rewrite bind_Ok. intros [= <-].
    destruct (Hf chord y) as (chord' & -> & Hclose);
      [cbn [odd_items]; apply elem_of_cons; by left|done|].
    destruct (IH r Hwell) as (segments' & -> & Hwell' & Heven & Hodd); [|done|].
    { intros c z Hc. apply Hf. cbn [odd_items]. apply elem_of_cons. by right. }
    exists (text :: chord' :: segments'). cbn [unsplit well_split even_items odd_items].
    split; [by rewrite !str_app_assoc|]. split; [done|].
    split; [by rewrite Heven|]. by constructor.
Qed.

Lemma mapM_Forall2 {A B : Type} (f : A → result B) l out :
  mapM f l = Ok out → Forall2 (λ x y, f x = Ok y) l out.
Proof.
  revert out. induction l as [|x l IH]; intros out; cbn [mapM].
  - intros [= <-]. constructor.
  - destruct (f x) as [y| |] eqn:Hy; [|done..]. rewrite bind_Ok.
    destruct (mapM f l) as [ys| |]; [|done..]. rewrite bind_Ok.
    intros [= <-]. constructor; [done|by apply IH].
Qed.

Lemma Forall2_impl_elem {A B : Type} (R S : A → B → Prop) l k :
  Forall2 R l k → (∀ x y, x ∈ l → R x y → S x y) → Forall2 S l k.
Proof.
  induction 1 as [|x y l k Hxy Hlk IH]; intros HRS; [constructor|].
  constructor.
  - apply HRS; [apply elem_of_cons; by left|done].
  - apply IH. intros x' y' Hx'. apply HRS, elem_of_cons. by right.
Qed.

Lemma well_split_chords segments :
  well_split segments →
  Forall (λ chord, contains "]" chord = false) (odd_items segments).
Proof.
  induction segments as [|text|text chord segments IH] using pairs_ind;
    cbn [well_split odd_items]; [constructor..|].
  intros (_ & Hchord & Hrest). constructor; [done|by apply IH].
Qed.

Lemma counted_nonempty chord : counted chord → chord ≠ EmptyString.
Proof. intros (c & o & Hc & _) ->. vm_compute in Hc. discriminate Hc. Qed.

(** X29: transposing changes no text: when passes 1 to 3 complete, every
    line of the list that pass 3 has built splits into the text segments
    of the line it comes from, byte for byte, with as many chords between
    them, each the chord of the line parsed, transposed and normalised;
    the list is again a document that the splitter reads as it was
    written. *)
Theorem transposing_keeps_text (fuel : nat) (text out : list string)
    (transpose : string) :
  parse_file_transpose fuel text transpose = Ok out →
  ∃ a, analyse text transpose = Ok a
       ∧ Forall2 (λ line new,
           even_items (split_line new) = even_items (split_line line)
           ∧ Forall2 (λ chord chord',
                        rewritten_chord fuel (shift a) (norm a) chord
                        = Ok ("[" +:+ chord' +:+ "]"))
                     (odd_items (split_line line)) (odd_items (split_line new)))
           text out.
Proof.
  intros Hrun. destruct (analyse text transpose) as [a|e|] eqn:Ha.
  - exists a. split; [done|].
    rewrite (parse_file_transpose_mapM _ _ _ a Ha) in Hrun.
    apply mapM_Forall2 in Hrun.
    pose proof (analyse_shape _ _ _ Ha) as (Herr & _).
    apply first_error_Forall in Herr. rewrite Forall_forall in Herr.
    eapply Forall2_impl_elem; [exact Hrun|].
    intros line new Hline Hnew. unfold rewritten_line in Hnew.
    pose proof (well_split_chords _ (split_line_well_split line)) as Hclose.
    rewrite Forall_forall in Hclose.
    destruct (rewritten_segments_unsplit
                (rewritten_chord fuel (shift a) (norm a)) (split_line line) new
                (split_line_well_split line))
      as (segments' & -> & Hwell & Heven & Hodd); [|done|].
    { intros chord y Hin Hy.
      eapply rewritten_chord_text; [| |exact Hy].
      - apply counted_nonempty, Herr. by eapply document_chords_elem.
      - by apply Hclose. }
    rewrite (split_line_unsplit _ Hwell). by split.
  - by rewrite parse_file_transpose_eq, Ha in Hrun.
  - by apply analyse_returns in Ha.
Qed.

Lemma transposing_keeps_text_witness :
  ∃ a, analyse key_change_text "F" = Ok a
       ∧ Forall2 (λ line new,
           even_items (split_line new) = even_items (split_line line)
           ∧ Forall2 (λ chord chord',
                        rewritten_chord 12 (shift a) (norm a) chord
                        = Ok ("[" +:+ chord' +:+ "]"))
                     (odd_items (split_line line)) (odd_items (split_line new)))
           key_change_text
           ["[F]a" +:+ newline; newline; "[G][G][Eb]" +:+ newline].
Proof.
  apply (transposing_keeps_text 12 key_change_text _ "F").
  vm_compute. reflexivity.
Defined.
